(** * Wavefront "extension" of exact matches (wavefront/wavefront_extend.c)

    A shallow embedding of the extension-and-termination engine of the
    wavefront alignment library: the two termination detectors, the packed
    (word-parallel) match kernel, the three diagonal-range drivers and the
    three orchestrators, followed by the properties proved about them.

    Conventions.
    - C [int] and [wf_offset_t] (a signed 32-bit integer) values are [Z];
      signed overflow is undefined in C, so no wrap-around is modelled and
      the arithmetic is the one of [Z].  The C remainder [%] is [Z.rem].
    - A [uint64_t] block is the [Z] in [0, 2^64) obtained by combining eight
      consecutive bytes in little-endian order (the byte order the kernel's
      trailing-zero count relies on).
    - A [char*] is a buffer together with a position in it; a read outside
      the buffer is an error ([None]).
    - [offsets] is the C array of a wavefront, indexed by the diagonal.
    - A function that can read out of bounds, or run a caller-supplied
      predicate for ever, returns an [option]; [None] is that failure. *)

From Stdlib Require Import ZArith Zquot List Lia Bool Permutation FunctionalExtensionality.
From coqutil Require Import Byte Word.LittleEndianList.
Import ListNotations.
Local Open Scope Z_scope.

(** ** The error monad of the embedding *)

Definition bind {A B : Type} (m : option A) (f : A -> option B) : option B :=
  match m with
  | Some x => f x
  | None => None
  end.

Notation "x <- m ;; k" := (bind m (fun x => k))
  (at level 61, m at next level, right associativity).
Notation "' p <- m ;; k" := (bind m (fun x => match x with p => k end))
  (at level 61, p pattern, m at next level, right associativity).

(** ** Macros of the headers *)

Definition wf_offset_t := Z.

(** Modelled from the spec: [WAVEFRONT_DIAGONAL] is a macro of the wavefront
    header, which is not among the sources.  Spec: "diagonal = horizontal
    position - vertical position". *)
Definition WAVEFRONT_DIAGONAL (h v : Z) : Z := h - v.

(** Modelled from the spec: [WAVEFRONT_H] is a macro of the wavefront header.
    Spec: the "offset encodes the current horizontal (and implicitly
    vertical, via k) position reached". *)
Definition WAVEFRONT_H (k : Z) (offset : wf_offset_t) : Z := offset.

(** Modelled from the spec: [WAVEFRONT_V] is a macro of the wavefront header.
    Spec: "vertical position v = h-k". *)
Definition WAVEFRONT_V (k : Z) (offset : wf_offset_t) : Z := offset - k.

(** Modelled from the spec: [WAVEFRONT_OFFSET] is a macro of the wavefront
    header: the offset of the point (h,v), that is, the inverse of
    [WAVEFRONT_H] on the diagonal of (h,v). *)
Definition WAVEFRONT_OFFSET (h v : Z) : wf_offset_t := h.

(** Modelled from the spec: [DIV_FLOOR] is a macro of the commons header.
    Spec: "integer division by 8, rounded down". *)
Definition DIV_FLOOR (numerator denominator : Z) : Z := numerator / denominator.

(** ** Data model *)

(** [wavefront_t]: the fields this module reads and writes. *)
Record wavefront_t : Type := mk_wavefront {
  lo : Z;
  hi : Z;
  offsets : Z -> wf_offset_t;
  k_alignment_end : Z
}.

Definition set_k_alignment_end (w : wavefront_t) (k : Z) : wavefront_t :=
  {| lo := lo w; hi := hi w; offsets := offsets w; k_alignment_end := k |}.

(** [offsets[k] = offset] *)
Definition set_offset (w : wavefront_t) (k : Z) (offset : wf_offset_t) : wavefront_t :=
  {| lo := lo w; hi := hi w;
     offsets := fun j => if j =? k then offset else offsets w j;
     k_alignment_end := k_alignment_end w |}.

Inductive alignment_span_t : Type :=
  | alignment_end2end
  | alignment_endsfree.

Definition alignment_span_eqb (x y : alignment_span_t) : bool :=
  match x, y with
  | alignment_end2end, alignment_end2end => true
  | alignment_endsfree, alignment_endsfree => true
  | _, _ => false
  end.

Record alignment_form_t : Type := mk_alignment_form {
  span : alignment_span_t;
  pattern_end_free : Z;
  text_end_free : Z
}.

(** The heuristic strategies; this module only tells [wf_heuristic_none]
    from the others. *)
Inductive wf_heuristic_strategy : Type :=
  | wf_heuristic_none
  | wf_heuristic_some (code : Z).

Definition is_heuristic_none (s : wf_heuristic_strategy) : bool :=
  match s with
  | wf_heuristic_none => true
  | wf_heuristic_some _ => false
  end.

(** The alignment status codes; this module writes two of them. *)
Inductive wf_status_t : Type :=
  | WF_STATUS_SUCCESSFUL
  | WF_STATUS_HEURISTICALY_DROPPED
  | WF_STATUS_OTHER (code : Z).

(** A [char*]: an allocated buffer and a position in it. *)
Record char_ptr : Type := mk_char_ptr {
  buffer : list byte;
  pos : Z
}.

Definition ptr_add (p : char_ptr) (i : Z) : char_ptr :=
  {| buffer := buffer p; pos := pos p + i |}.

(** [*(uint64_t* )p]: the eight bytes at [p], little-endian. *)
Definition load_uint64 (p : char_ptr) : option Z :=
  if (0 <=? pos p) && (pos p + 8 <=? Z.of_nat (length (buffer p)))
  then Some (le_combine (firstn 8 (skipn (Z.to_nat (pos p)) (buffer p))))
  else None.

Record wavefront_components_t : Type := mk_wavefront_components {
  memory_modular : bool;
  max_score_scope : Z;
  mwavefronts : Z -> option wavefront_t
}.

(** [wavefront_aligner_t]: the fields this module reads and writes.  The
    custom match function is the C function pointer with its argument
    block applied. *)
Record wavefront_aligner_t : Type := mk_wavefront_aligner {
  status : wf_status_t;
  pattern : char_ptr;
  pattern_length : Z;
  text : char_ptr;
  text_length : Z;
  alignment_form : alignment_form_t;
  match_funct : Z -> Z -> bool;
  wf_components : wavefront_components_t;
  strategy : wf_heuristic_strategy
}.

Definition set_status (a : wavefront_aligner_t) (s : wf_status_t) : wavefront_aligner_t :=
  {| status := s;
     pattern := pattern a; pattern_length := pattern_length a;
     text := text a; text_length := text_length a;
     alignment_form := alignment_form a;
     match_funct := match_funct a;
     wf_components := wf_components a;
     strategy := strategy a |}.

(** The wavefront of a score is updated in place: the slot of the table
    holds the updated wavefront afterwards. *)
Definition store_mwavefront (a : wavefront_aligner_t) (score : Z) (w : wavefront_t)
  : wavefront_aligner_t :=
  {| status := status a;
     pattern := pattern a; pattern_length := pattern_length a;
     text := text a; text_length := text_length a;
     alignment_form := alignment_form a;
     match_funct := match_funct a;
     wf_components :=
       {| memory_modular := memory_modular (wf_components a);
          max_score_scope := max_score_scope (wf_components a);
          mwavefronts := fun s => if s =? score then Some w
                                  else mwavefronts (wf_components a) s |};
     strategy := strategy a |}.

(** ** Termination detectors *)

Definition wavefront_extend_end2end_check_termination
    (wf_aligner : wavefront_aligner_t) (mwavefront : wavefront_t)
  : bool * wavefront_t :=
  let pattern_length := pattern_length wf_aligner in
  let text_length := text_length wf_aligner in
  let alignment_k := WAVEFRONT_DIAGONAL text_length pattern_length in
  if (lo mwavefront >? alignment_k) || (alignment_k >? hi mwavefront)
  then (false, mwavefront)
  else
    let offset := offsets mwavefront alignment_k in
    let alignment_offset := WAVEFRONT_OFFSET text_length pattern_length in
    if offset <? alignment_offset then (false, mwavefront)
    else (true, set_k_alignment_end mwavefront alignment_k).

Definition wavefront_extend_endsfree_check_termination
    (wf_aligner : wavefront_aligner_t) (mwavefront : wavefront_t)
    (offset : wf_offset_t) (k : Z)
  : bool * wavefront_t :=
  let pattern_length := pattern_length wf_aligner in
  let text_length := text_length wf_aligner in
  let h_pos := WAVEFRONT_H k offset in
  let v_pos := WAVEFRONT_V k offset in
  if (h_pos >=? text_length)
     && (pattern_length - v_pos <=? pattern_end_free (alignment_form wf_aligner))
  then (true, set_k_alignment_end mwavefront k)
  else if (v_pos >=? pattern_length)
          && (text_length - h_pos <=? text_end_free (alignment_form wf_aligner))
  then (true, set_k_alignment_end mwavefront k)
  else (false, mwavefront).

(** The verdict of the ends-free check, as a function of the position. *)
Definition endsfree_terminal (wf_aligner : wavefront_aligner_t)
    (offset : wf_offset_t) (k : Z) : bool :=
  ((WAVEFRONT_H k offset >=? text_length wf_aligner)
   && (pattern_length wf_aligner - WAVEFRONT_V k offset
       <=? pattern_end_free (alignment_form wf_aligner)))
  || ((WAVEFRONT_V k offset >=? pattern_length wf_aligner)
      && (text_length wf_aligner - WAVEFRONT_H k offset
          <=? text_end_free (alignment_form wf_aligner))).

(** ** Packed match kernel *)

(** [__builtin_ctzl]: the number of trailing zero bits of a 64-bit value.
    The C builtin is undefined at 0; the kernel calls it on a non-zero
    value only.  Here the count stops at 64. *)
Fixpoint ctz_from (fuel : nat) (i : Z) (x : Z) : Z :=
  match fuel with
  | O => i
  | S fuel' => if Z.testbit x i then i else ctz_from fuel' (i + 1) x
  end.

Definition __builtin_ctzl (x : Z) : Z := ctz_from 64 0 x.

(** The [while (cmp==0)] loop of the kernel.  Each round moves both block
    pointers eight bytes on, so it ends within [length buffer] rounds or
    fails on a read outside a buffer. *)
Fixpoint packed_kernel_while (fuel : nat) (pattern_blocks text_blocks : char_ptr)
    (cmp : Z) (offset : wf_offset_t) : option (Z * wf_offset_t) :=
  if cmp =? 0 then
    match fuel with
    | O => None
    | S fuel' =>
        let offset := offset + 8 in
        let pattern_blocks := ptr_add pattern_blocks 8 in
        let text_blocks := ptr_add text_blocks 8 in
        p <- load_uint64 pattern_blocks ;;
        t <- load_uint64 text_blocks ;;
        packed_kernel_while fuel' pattern_blocks text_blocks (Z.lxor p t) offset
    end
  else Some (cmp, offset).

Definition wavefront_extend_matches_packed_kernel
    (wf_aligner : wavefront_aligner_t) (k : Z) (offset : wf_offset_t)
  : option wf_offset_t :=
  let pattern_blocks := ptr_add (pattern wf_aligner) (WAVEFRONT_V k offset) in
  let text_blocks := ptr_add (text wf_aligner) (WAVEFRONT_H k offset) in
  p <- load_uint64 pattern_blocks ;;
  t <- load_uint64 text_blocks ;;
  '(cmp, offset) <- packed_kernel_while (length (buffer (pattern wf_aligner)))
                      pattern_blocks text_blocks (Z.lxor p t) offset ;;
  let equal_right_bits := __builtin_ctzl cmp in
  let equal_chars := DIV_FLOOR equal_right_bits 8 in
  Some (offset + equal_chars).

(** The reference the kernel is compared with, in the words of the spec:
    "naive symbol-by-symbol comparison from the same starting position":
    the number of leading positions at which the two sequences hold equal
    symbols, up to the first mismatch or the end of a sequence. *)
Fixpoint equal_symbols (pattern_seq text_seq : list byte) : nat :=
  match pattern_seq, text_seq with
  | p :: pattern_seq', t :: text_seq' =>
      if Byte.eqb p t then S (equal_symbols pattern_seq' text_seq') else O
  | _, _ => O
  end.

Definition naive_extend (pattern_seq text_seq : list byte)
    (k : Z) (offset : wf_offset_t) : wf_offset_t :=
  let v := WAVEFRONT_V k offset in
  let h := WAVEFRONT_H k offset in
  offset + Z.of_nat (equal_symbols (skipn (Z.to_nat v) pattern_seq)
                                   (skipn (Z.to_nat h) text_seq)).

(** The 64-bit block at index [i] of a buffer. *)
Definition block (buf : list byte) (i : nat) : Z :=
  le_combine (firstn 8 (skipn i buf)).

(** The buffers agree on the [n] bytes from the indices [ip] and [it] on and
    differ on the next one. *)
Definition first_mismatch (pattern_buf : list byte) (ip : nat)
    (text_buf : list byte) (it : nat) (n : nat) : Prop :=
  (forall i, (i < n)%nat ->
     exists c, nth_error pattern_buf (ip + i) = Some c /\
               nth_error text_buf (it + i) = Some c) /\
  (exists c d, nth_error pattern_buf (ip + n) = Some c /\
               nth_error text_buf (it + n) = Some d /\ c <> d).

(** ** Sentinel padding *)

(** Modelled from the spec: the padded-string module is not among the
    sources.  Spec: the sequences are "padded with distinguishing sentinel
    symbols at both ends". *)
Definition pad_sequence (sentinel : byte) (begin_padding end_padding : nat)
    (sequence : list byte) : char_ptr :=
  {| buffer := repeat sentinel begin_padding ++ sequence ++ repeat sentinel end_padding;
     pos := Z.of_nat begin_padding |}.

(** The layout of a padded sequence pair: the two sentinel symbols and the
    widths of the paddings. *)
Record padding_t : Type := mk_padding {
  pattern_sentinel : byte;
  text_sentinel : byte;
  pattern_begin_padding : nat;
  pattern_end_padding : nat;
  text_begin_padding : nat;
  text_end_padding : nat
}.

(** Modelled from the spec: the precondition of the packed kernel.  Spec:
    "sequence buffers are over-allocated with sentinel padding wide enough
    to always satisfy one full block read", and "sentinels of different
    sequences must never bit-wise coincide with arbitrary valid symbols". *)
Definition sentinel_padded (wf_aligner : wavefront_aligner_t)
    (pattern_seq text_seq : list byte) (pd : padding_t) : Prop :=
  pattern wf_aligner =
    pad_sequence (pattern_sentinel pd) (pattern_begin_padding pd)
      (pattern_end_padding pd) pattern_seq /\
  text wf_aligner =
    pad_sequence (text_sentinel pd) (text_begin_padding pd)
      (text_end_padding pd) text_seq /\
  pattern_length wf_aligner = Z.of_nat (length pattern_seq) /\
  text_length wf_aligner = Z.of_nat (length text_seq) /\
  (8 <= pattern_end_padding pd)%nat /\
  (8 <= text_end_padding pd)%nat /\
  pattern_sentinel pd <> text_sentinel pd /\
  ~ In (text_sentinel pd) pattern_seq /\
  ~ In (pattern_sentinel pd) text_seq.

(** ** Custom match kernel *)

(** The [while (match_funct(v,h,func_arguments))] loop of the custom driver.
    The predicate is the caller's; with one that never fails the loop does
    not end, hence the fuel. *)
Fixpoint custom_match_while (fuel : nat) (match_funct : Z -> Z -> bool)
    (v h : Z) (offset : wf_offset_t) : option wf_offset_t :=
  if match_funct v h then
    match fuel with
    | O => None
    | S fuel' => custom_match_while fuel' match_funct (v + 1) (h + 1) (offset + 1)
    end
  else Some offset.

(** [#pragma omp parallel num_threads(num_threads)]: the team has the
    requested number of workers, and they run the body one after the other,
    in the order of [schedule].  A worker reads and writes the offsets of its
    own sub-range only and writes [k_alignment_end] inside a critical
    section, so with disjoint sub-ranges every interleaving of the workers
    ends in the state one of these orders ends in (the order of their
    critical sections).  [end_reached] is set by every worker whose driver
    answers true. *)
Fixpoint omp_parallel (body : Z -> wavefront_t -> option (bool * wavefront_t))
    (schedule : list Z) (end_reached : bool) (mwavefront : wavefront_t)
  : option (bool * wavefront_t) :=
  match schedule with
  | [] => Some (end_reached, mwavefront)
  | thread_num :: rest =>
      '(reached, mwavefront) <- body thread_num mwavefront ;;
      omp_parallel body rest (if reached then true else end_reached) mwavefront
  end.

(** The number of diagonals a [for (k=lo;k<=hi;++k)] loop visits. *)
Definition range_size (lo hi : Z) : nat := Z.to_nat (hi - lo + 1).

(** The thread numbers of a team of [n] workers. *)
Definition thread_nums (n : Z) : list Z := map Z.of_nat (seq 0 (Z.to_nat n)).

(** ** Example data

    Concrete collaborators and aligner states, for the examples that follow
    the theorems. *)

(** The NULL offset of the examples: half of the least 32-bit integer. *)
Definition example_offset_null : wf_offset_t := Z.quot (- 2 ^ 31) 2.

(** Modelled from the spec: the partitioner [wavefront_compute_thread_limits]
    belongs to the wavefront-compute module, which is not among the sources.
    Spec: it "partitions [lo,hi] into disjoint contiguous sub-ranges of
    near-equal size".  Here every worker gets [(hi-lo+1)/num_threads]
    diagonals and the last worker the rest as well. *)
Definition example_thread_limits (thread_num num_threads k_lo k_hi : Z) : Z * Z :=
  let chunk_size := Z.quot (k_hi - k_lo + 1) num_threads in
  let t_lo := k_lo + thread_num * chunk_size in
  let t_hi := if thread_num + 1 =? num_threads then k_hi else t_lo + chunk_size - 1 in
  (t_lo, t_hi).

(** The workers run in the order of their thread numbers. *)
Definition example_schedule (n : Z) : list Z := thread_nums n.

(** The workers run in the opposite order. *)
Definition example_schedule_rev (n : Z) : list Z := rev (thread_nums n).

(** Two cut-off hooks: one that never drops and one that always does. *)
Definition example_cutoff_keep (a : wavefront_aligner_t) (score : Z)
  : bool * wavefront_aligner_t := (false, a).

Definition example_cutoff_drop (a : wavefront_aligner_t) (score : Z)
  : bool * wavefront_aligner_t := (true, a).

(** Paddings of '?' for the pattern and '!' for the text. *)
Definition example_padding : padding_t :=
  {| pattern_sentinel := Byte.x3f; text_sentinel := Byte.x21;
     pattern_begin_padding := 8; pattern_end_padding := 16;
     text_begin_padding := 8; text_end_padding := 16 |}.

(** A custom match function: equality of the symbols at positions inside
    the sequences. *)
Definition example_match (pattern_seq text_seq : list byte) (v h : Z) : bool :=
  (0 <=? v) && (0 <=? h) &&
  match nth_error pattern_seq (Z.to_nat v), nth_error text_seq (Z.to_nat h) with
  | Some p, Some t => Byte.eqb p t
  | _, _ => false
  end.

Definition example_aligner (pattern_seq text_seq : list byte)
    (form : alignment_form_t) (heuristic : wf_heuristic_strategy)
    (scope : Z) (table : Z -> option wavefront_t) : wavefront_aligner_t :=
  {| status := WF_STATUS_OTHER 1;
     pattern := pad_sequence (pattern_sentinel example_padding)
                  (pattern_begin_padding example_padding)
                  (pattern_end_padding example_padding) pattern_seq;
     pattern_length := Z.of_nat (length pattern_seq);
     text := pad_sequence (text_sentinel example_padding)
               (text_begin_padding example_padding)
               (text_end_padding example_padding) text_seq;
     text_length := Z.of_nat (length text_seq);
     alignment_form := form;
     match_funct := example_match pattern_seq text_seq;
     wf_components :=
       {| memory_modular := true; max_score_scope := scope; mwavefronts := table |};
     strategy := heuristic |}.

(** A wavefront with the listed offsets and NULL elsewhere. *)
Definition example_wavefront (k_lo k_hi : Z) (entries : list (Z * wf_offset_t))
  : wavefront_t :=
  {| lo := k_lo; hi := k_hi;
     offsets := fun k =>
       match find (fun e => fst e =? k) entries with
       | Some e => snd e
       | None => example_offset_null
       end;
     k_alignment_end := 0 |}.

(** A table of wavefronts with one wavefront, at [score]. *)
Definition example_table (score : Z) (w : wavefront_t) : Z -> option wavefront_t :=
  fun s => if s =? score then Some w else None.

Definition form_end2end : alignment_form_t :=
  {| span := alignment_end2end; pattern_end_free := 0; text_end_free := 0 |}.

Definition form_endsfree : alignment_form_t :=
  {| span := alignment_endsfree; pattern_end_free := 3; text_end_free := 3 |}.

(** "GATTACAGATTACA" and "GATTACAGATTACAGG" *)
Definition gattaca_pattern : list byte :=
  [Byte.x47; Byte.x41; Byte.x54; Byte.x54; Byte.x41; Byte.x43; Byte.x41;
   Byte.x47; Byte.x41; Byte.x54; Byte.x54; Byte.x41; Byte.x43; Byte.x41].

Definition gattaca_text : list byte := gattaca_pattern ++ [Byte.x47; Byte.x47].

(** Seven and ten times "A" *)
Definition poly_a_pattern : list byte := repeat Byte.x41 7.

Definition poly_a_text : list byte := repeat Byte.x41 10.

(** The pattern against the longer text, end-to-end, with a heuristic
    strategy set; the wavefront of score 2 holds diagonal 0 at offset 0. *)
Definition gattaca_wavefront : wavefront_t := example_wavefront (-1) 1 [(0, 0)].

Definition gattaca_aligner : wavefront_aligner_t :=
  example_aligner gattaca_pattern gattaca_text form_end2end (wf_heuristic_some 1)
    3 (example_table 2 gattaca_wavefront).

(** The pattern against itself, end-to-end, without heuristic. *)
Definition identical_aligner : wavefront_aligner_t :=
  example_aligner gattaca_pattern gattaca_pattern form_end2end wf_heuristic_none
    3 (example_table 0 gattaca_wavefront).

(** A pattern that holds the sentinel of the text: "A!" against "A". *)
Definition sentinel_clash_aligner : wavefront_aligner_t :=
  example_aligner [Byte.x41; Byte.x21] [Byte.x41] form_end2end wf_heuristic_none
    3 (example_table 0 gattaca_wavefront).

(** Ends-free alignment of "AAAAAAA" against "AAAAAAAAAA" with allowances
    of 3; the wavefront of score 0 holds diagonal 0 at offset 0 and diagonal
    3 at offset 3. *)
Definition poly_a_wavefront : wavefront_t := example_wavefront 0 3 [(0, 0); (3, 3)].

Definition poly_a_aligner : wavefront_aligner_t :=
  example_aligner poly_a_pattern poly_a_text form_endsfree wf_heuristic_none
    3 (example_table 0 poly_a_wavefront).

(** The same sequences with a wavefront on which no diagonal becomes
    terminal: diagonal 1 at offset 1 stops short of both ends, since the
    pattern is "AAAAAAA" and the text "AAAACAAAAA". *)
Definition broken_text : list byte :=
  repeat Byte.x41 4 ++ [Byte.x43] ++ repeat Byte.x41 5.

Definition broken_wavefront : wavefront_t := example_wavefront 0 3 [(0, 0); (1, 1)].

Definition broken_aligner (form : alignment_form_t) : wavefront_aligner_t :=
  example_aligner poly_a_pattern broken_text form wf_heuristic_none
    3 (example_table 0 broken_wavefront).


(** Two equal buffers without padding: sixteen times "A" each. *)
Definition unpadded_aligner : wavefront_aligner_t :=
  {| status := WF_STATUS_OTHER 1;
     pattern := {| buffer := repeat Byte.x41 16; pos := 0 |};
     pattern_length := 16;
     text := {| buffer := repeat Byte.x41 16; pos := 0 |};
     text_length := 16;
     alignment_form := form_end2end;
     match_funct := example_match (repeat Byte.x41 16) (repeat Byte.x41 16);
     wf_components :=
       {| memory_modular := true; max_score_scope := 3;
          mwavefronts := example_table 0 gattaca_wavefront |};
     strategy := wf_heuristic_none |}.

(** What a call left on diagonal [k] of the wavefront of [score], and in its
    [k_alignment_end]. *)
Definition final_offset (r : option (bool * wavefront_aligner_t)) (score k : Z)
  : option wf_offset_t :=
  '(_, a) <- r ;;
  w <- mwavefronts (wf_components a) score ;;
  Some (offsets w k).

Definition final_k_alignment_end (r : option (bool * wavefront_aligner_t)) (score : Z)
  : option Z :=
  '(_, a) <- r ;;
  w <- mwavefronts (wf_components a) score ;;
  Some (k_alignment_end w).

(** The verdict and the status a call ends with. *)
Definition final_verdict (r : option (bool * wavefront_aligner_t))
  : option (bool * wf_status_t) :=
  '(b, a) <- r ;; Some (b, status a).

(** The aligner [a'] is the aligner [a] but for its status and the
    wavefront of [score]. *)
Definition same_outside_slot (a a' : wavefront_aligner_t) (score : Z) : Prop :=
  pattern a' = pattern a /\ pattern_length a' = pattern_length a /\
  text a' = text a /\ text_length a' = text_length a /\
  alignment_form a' = alignment_form a /\
  match_funct a' = match_funct a /\
  strategy a' = strategy a /\
  memory_modular (wf_components a') = memory_modular (wf_components a) /\
  max_score_scope (wf_components a') = max_score_scope (wf_components a) /\
  forall s, s <> score ->
    mwavefronts (wf_components a') s = mwavefronts (wf_components a) s.

(** The first [n] blocks from two block pointers on lie in the buffers and
    are equal: the comparison word of each is zero. *)
Definition equal_blocks (pattern_blocks text_blocks : char_ptr) (n : nat) : Prop :=
  forall i : nat, (i < n)%nat ->
    exists p t,
      load_uint64 (ptr_add pattern_blocks (8 * Z.of_nat i)) = Some p /\
      load_uint64 (ptr_add text_blocks (8 * Z.of_nat i)) = Some t /\
      Z.lxor p t = 0.

(** The wavefront [w'] has the range of [w] and no smaller offset. *)
Definition grows (w w' : wavefront_t) : Prop :=
  lo w' = lo w /\ hi w' = hi w /\ forall k, offsets w k <= offsets w' k.

Section Extend.

(** [WAVEFRONT_OFFSET_NULL] is a constant of the wavefront header, which is
    not among the sources: the drivers are parametric in it. *)
Variable WAVEFRONT_OFFSET_NULL : wf_offset_t.

(** Whether the library is compiled with [WFA_PARALLEL]. *)
Variable WFA_PARALLEL : bool.

(** The collaborators of the wavefront-compute and heuristic modules:
    the worker-count policy, the partitioner of a diagonal range (it returns
    [(t_lo, t_hi)]) and the cut-off hook, which may change the aligner. *)
Variable wavefront_compute_num_threads : wavefront_aligner_t -> Z -> Z -> Z.
Variable wavefront_compute_thread_limits : Z -> Z -> Z -> Z -> Z * Z.
Variable wavefront_heuristic_cufoff :
  wavefront_aligner_t -> Z -> bool * wavefront_aligner_t.

(** The order in which the workers of a team of the given size run. *)
Variable omp_schedule : Z -> list Z.

(** ** Diagonal-range drivers *)

Fixpoint packed_end2end_for (n : nat) (wf_aligner : wavefront_aligner_t)
    (mwavefront : wavefront_t) (k : Z) : option wavefront_t :=
  match n with
  | O => Some mwavefront
  | S n' =>
      let offset := offsets mwavefront k in
      if offset =? WAVEFRONT_OFFSET_NULL
      then packed_end2end_for n' wf_aligner mwavefront (k + 1)
      else
        offset <- wavefront_extend_matches_packed_kernel wf_aligner k offset ;;
        packed_end2end_for n' wf_aligner (set_offset mwavefront k offset) (k + 1)
  end.

Definition wavefront_extend_matches_packed_end2end
    (wf_aligner : wavefront_aligner_t) (mwavefront : wavefront_t)
    (score lo hi : Z) : option wavefront_t :=
  packed_end2end_for (range_size lo hi) wf_aligner mwavefront lo.

Fixpoint packed_endsfree_for (n : nat) (wf_aligner : wavefront_aligner_t)
    (mwavefront : wavefront_t) (k : Z) : option (bool * wavefront_t) :=
  match n with
  | O => Some (false, mwavefront)
  | S n' =>
      let offset := offsets mwavefront k in
      if offset =? WAVEFRONT_OFFSET_NULL
      then packed_endsfree_for n' wf_aligner mwavefront (k + 1)
      else
        offset <- wavefront_extend_matches_packed_kernel wf_aligner k offset ;;
        let mwavefront := set_offset mwavefront k offset in
        let '(reached, mwavefront) :=
          wavefront_extend_endsfree_check_termination wf_aligner mwavefront offset k in
        if reached then Some (true, mwavefront)
        else packed_endsfree_for n' wf_aligner mwavefront (k + 1)
  end.

Definition wavefront_extend_matches_packed_endsfree
    (wf_aligner : wavefront_aligner_t) (mwavefront : wavefront_t)
    (score lo hi : Z) : option (bool * wavefront_t) :=
  packed_endsfree_for (range_size lo hi) wf_aligner mwavefront lo.

Fixpoint custom_for (fuel : nat) (n : nat) (wf_aligner : wavefront_aligner_t)
    (mwavefront : wavefront_t) (k : Z) (endsfree : bool)
  : option (bool * wavefront_t) :=
  match n with
  | O => Some (false, mwavefront)
  | S n' =>
      let offset := offsets mwavefront k in
      if offset =? WAVEFRONT_OFFSET_NULL
      then custom_for fuel n' wf_aligner mwavefront (k + 1) endsfree
      else
        let v := WAVEFRONT_V k offset in
        let h := WAVEFRONT_H k offset in
        offset <- custom_match_while fuel (match_funct wf_aligner) v h offset ;;
        let mwavefront := set_offset mwavefront k offset in
        let '(reached, mwavefront) :=
          if endsfree
          then wavefront_extend_endsfree_check_termination wf_aligner mwavefront offset k
          else (false, mwavefront) in
        if reached then Some (true, mwavefront)
        else custom_for fuel n' wf_aligner mwavefront (k + 1) endsfree
  end.

Definition wavefront_extend_matches_custom (fuel : nat)
    (wf_aligner : wavefront_aligner_t) (mwavefront : wavefront_t)
    (score lo hi : Z) (endsfree : bool) : option (bool * wavefront_t) :=
  custom_for fuel (range_size lo hi) wf_aligner mwavefront lo endsfree.

(** ** Orchestrators *)

(** [score % max_score_scope] when the wavefronts are stored modularly *)
Definition modular_score (wf_aligner : wavefront_aligner_t) (score : Z) : Z :=
  if memory_modular (wf_components wf_aligner)
  then Z.rem score (max_score_scope (wf_components wf_aligner))
  else score.

Definition wavefront_extend_end2end (wf_aligner : wavefront_aligner_t) (score : Z)
  : option (bool * wavefront_aligner_t) :=
  let score := modular_score wf_aligner score in
  match mwavefronts (wf_components wf_aligner) score with
  | None => Some (false, wf_aligner)
  | Some mwavefront =>
      let lo := lo mwavefront in
      let hi := hi mwavefront in
      let num_threads := wavefront_compute_num_threads wf_aligner lo hi in
      '(end_reached, mwavefront) <-
        (if num_threads =? 1 then
           mwavefront <-
             wavefront_extend_matches_packed_end2end wf_aligner mwavefront score lo hi ;;
           Some (wavefront_extend_end2end_check_termination wf_aligner mwavefront)
         else if WFA_PARALLEL then
           '(_, mwavefront) <-
             omp_parallel
               (fun thread_num mwavefront =>
                  let '(t_lo, t_hi) :=
                    wavefront_compute_thread_limits thread_num num_threads lo hi in
                  mwavefront <-
                    wavefront_extend_matches_packed_end2end
                      wf_aligner mwavefront score t_lo t_hi ;;
                  Some (false, mwavefront))
               (omp_schedule num_threads) false mwavefront ;;
           Some (wavefront_extend_end2end_check_termination wf_aligner mwavefront)
         else Some (false, mwavefront)) ;;
      let wf_aligner := store_mwavefront wf_aligner score mwavefront in
      if end_reached then Some (true, set_status wf_aligner WF_STATUS_SUCCESSFUL)
      else if negb (is_heuristic_none (strategy wf_aligner)) then
        let '(alignment_dropped, wf_aligner) :=
          wavefront_heuristic_cufoff wf_aligner score in
        if alignment_dropped
        then Some (true, set_status wf_aligner WF_STATUS_HEURISTICALY_DROPPED)
        else Some (false, wf_aligner)
      else Some (false, wf_aligner)
  end.

Definition wavefront_extend_endsfree (wf_aligner : wavefront_aligner_t) (score : Z)
  : option (bool * wavefront_aligner_t) :=
  let score := modular_score wf_aligner score in
  match mwavefronts (wf_components wf_aligner) score with
  | None => Some (false, wf_aligner)
  | Some mwavefront =>
      let lo := lo mwavefront in
      let hi := hi mwavefront in
      let num_threads := wavefront_compute_num_threads wf_aligner lo hi in
      '(end_reached, mwavefront) <-
        (if num_threads =? 1 then
           wavefront_extend_matches_packed_endsfree wf_aligner mwavefront score lo hi
         else if WFA_PARALLEL then
           omp_parallel
             (fun thread_num mwavefront =>
                let '(t_lo, t_hi) :=
                  wavefront_compute_thread_limits thread_num num_threads lo hi in
                wavefront_extend_matches_packed_endsfree
                  wf_aligner mwavefront score t_lo t_hi)
             (omp_schedule num_threads) false mwavefront
         else Some (false, mwavefront)) ;;
      let wf_aligner := store_mwavefront wf_aligner score mwavefront in
      if end_reached then Some (true, set_status wf_aligner WF_STATUS_SUCCESSFUL)
      else if negb (is_heuristic_none (strategy wf_aligner)) then
        let '(alignment_dropped, wf_aligner) :=
          wavefront_heuristic_cufoff wf_aligner score in
        if alignment_dropped
        then Some (true, set_status wf_aligner WF_STATUS_HEURISTICALY_DROPPED)
        else Some (false, wf_aligner)
      else Some (false, wf_aligner)
  end.

Definition wavefront_extend_custom (fuel : nat)
    (wf_aligner : wavefront_aligner_t) (score : Z)
  : option (bool * wavefront_aligner_t) :=
  let score := modular_score wf_aligner score in
  match mwavefronts (wf_components wf_aligner) score with
  | None => Some (false, wf_aligner)
  | Some mwavefront =>
      let endsfree :=
        alignment_span_eqb (span (alignment_form wf_aligner)) alignment_endsfree in
      let lo := lo mwavefront in
      let hi := hi mwavefront in
      let num_threads := wavefront_compute_num_threads wf_aligner lo hi in
      '(end_reached, mwavefront) <-
        (if num_threads =? 1 then
           wavefront_extend_matches_custom fuel wf_aligner mwavefront score lo hi endsfree
         else if WFA_PARALLEL then
           omp_parallel
             (fun thread_num mwavefront =>
                let '(t_lo, t_hi) :=
                  wavefront_compute_thread_limits thread_num num_threads lo hi in
                wavefront_extend_matches_custom
                  fuel wf_aligner mwavefront score t_lo t_hi endsfree)
             (omp_schedule num_threads) false mwavefront
         else Some (false, mwavefront)) ;;
      let '(end_reached, mwavefront) :=
        if negb endsfree
        then wavefront_extend_end2end_check_termination wf_aligner mwavefront
        else (end_reached, mwavefront) in
      let wf_aligner := store_mwavefront wf_aligner score mwavefront in
      if end_reached then Some (true, set_status wf_aligner WF_STATUS_SUCCESSFUL)
      else if negb (is_heuristic_none (strategy wf_aligner)) then
        let '(alignment_dropped, wf_aligner) :=
          wavefront_heuristic_cufoff wf_aligner score in
        if alignment_dropped
        then Some (true, set_status wf_aligner WF_STATUS_HEURISTICALY_DROPPED)
        else Some (false, wf_aligner)
      else Some (false, wf_aligner)
  end.

(** ** The parts the three orchestrators share

    The definitions below restate pieces of the code above in one place, so
    that the properties can name them; each is proved equal to the code it
    restates ([packed_end2end_for_eq], [packed_endsfree_for_eq],
    [custom_for_eq], [wavefront_extend_end2end_eq],
    [wavefront_extend_endsfree_eq], [wavefront_extend_custom_eq]). *)

(** The loop of a driver: [ext] extends one diagonal, [endsfree] tells
    whether the ends-free check runs after each diagonal. *)
Fixpoint extend_for (ext : Z -> wf_offset_t -> option wf_offset_t) (endsfree : bool)
    (n : nat) (wf_aligner : wavefront_aligner_t) (mwavefront : wavefront_t) (k : Z)
  : option (bool * wavefront_t) :=
  match n with
  | O => Some (false, mwavefront)
  | S n' =>
      let offset := offsets mwavefront k in
      if offset =? WAVEFRONT_OFFSET_NULL
      then extend_for ext endsfree n' wf_aligner mwavefront (k + 1)
      else
        offset <- ext k offset ;;
        let mwavefront := set_offset mwavefront k offset in
        if endsfree && endsfree_terminal wf_aligner offset k
        then Some (true, set_k_alignment_end mwavefront k)
        else extend_for ext endsfree n' wf_aligner mwavefront (k + 1)
  end.

Definition extend_range (ext : Z -> wf_offset_t -> option wf_offset_t)
    (endsfree : bool) (wf_aligner : wavefront_aligner_t) (mwavefront : wavefront_t)
    (lo hi : Z) : option (bool * wavefront_t) :=
  extend_for ext endsfree (range_size lo hi) wf_aligner mwavefront lo.

(** The extension of one diagonal by the custom match function. *)
Definition custom_kernel (fuel : nat) (wf_aligner : wavefront_aligner_t)
    (k : Z) (offset : wf_offset_t) : option wf_offset_t :=
  custom_match_while fuel (match_funct wf_aligner)
    (WAVEFRONT_V k offset) (WAVEFRONT_H k offset) offset.

(** The multithreading dispatcher of an orchestrator. *)
Definition dispatch (ext : Z -> wf_offset_t -> option wf_offset_t) (endsfree : bool)
    (wf_aligner : wavefront_aligner_t) (mwavefront : wavefront_t)
  : option (bool * wavefront_t) :=
  let lo := lo mwavefront in
  let hi := hi mwavefront in
  let num_threads := wavefront_compute_num_threads wf_aligner lo hi in
  if num_threads =? 1 then extend_range ext endsfree wf_aligner mwavefront lo hi
  else if WFA_PARALLEL then
    omp_parallel
      (fun thread_num mwavefront =>
         let '(t_lo, t_hi) :=
           wavefront_compute_thread_limits thread_num num_threads lo hi in
         extend_range ext endsfree wf_aligner mwavefront t_lo t_hi)
      (omp_schedule num_threads) false mwavefront
  else Some (false, mwavefront).

(** Whether the dispatcher of an orchestrator runs any branch: the branch
    of one worker, or the parallel one in a build with [WFA_PARALLEL]. *)
Definition dispatches (wf_aligner : wavefront_aligner_t) (mwavefront : wavefront_t)
  : bool :=
  (wavefront_compute_num_threads wf_aligner (lo mwavefront) (hi mwavefront) =? 1)
  || WFA_PARALLEL.

(** The extension of an orchestrator up to its verdict [end_reached]. *)
Definition end2end_phase (wf_aligner : wavefront_aligner_t) (mwavefront : wavefront_t)
  : option (bool * wavefront_t) :=
  r <- dispatch (wavefront_extend_matches_packed_kernel wf_aligner) false
         wf_aligner mwavefront ;;
  if dispatches wf_aligner mwavefront
  then Some (wavefront_extend_end2end_check_termination wf_aligner (snd r))
  else Some (false, snd r).

Definition endsfree_phase (wf_aligner : wavefront_aligner_t) (mwavefront : wavefront_t)
  : option (bool * wavefront_t) :=
  dispatch (wavefront_extend_matches_packed_kernel wf_aligner) true
    wf_aligner mwavefront.

Definition custom_phase (fuel : nat) (wf_aligner : wavefront_aligner_t)
    (mwavefront : wavefront_t) : option (bool * wavefront_t) :=
  let endsfree :=
    alignment_span_eqb (span (alignment_form wf_aligner)) alignment_endsfree in
  r <- dispatch (custom_kernel fuel wf_aligner) endsfree wf_aligner mwavefront ;;
  if negb endsfree
  then Some (wavefront_extend_end2end_check_termination wf_aligner (snd r))
  else Some r.

(** What an orchestrator does with the verdict. *)
Definition epilogue (wf_aligner : wavefront_aligner_t) (score : Z)
    (r : bool * wavefront_t) : option (bool * wavefront_aligner_t) :=
  let wf_aligner := store_mwavefront wf_aligner score (snd r) in
  if fst r then Some (true, set_status wf_aligner WF_STATUS_SUCCESSFUL)
  else if negb (is_heuristic_none (strategy wf_aligner)) then
    if fst (wavefront_heuristic_cufoff wf_aligner score)
    then Some (true, set_status (snd (wavefront_heuristic_cufoff wf_aligner score))
                       WF_STATUS_HEURISTICALY_DROPPED)
    else Some (false, snd (wavefront_heuristic_cufoff wf_aligner score))
  else Some (false, wf_aligner).

(** An orchestrator, from its phase. *)
Definition orchestrate (phase : wavefront_aligner_t -> wavefront_t ->
                                option (bool * wavefront_t))
    (wf_aligner : wavefront_aligner_t) (score : Z)
  : option (bool * wavefront_aligner_t) :=
  let score := modular_score wf_aligner score in
  match mwavefronts (wf_components wf_aligner) score with
  | None => Some (false, wf_aligner)
  | Some mwavefront =>
      r <- phase wf_aligner mwavefront ;;
      epilogue wf_aligner score r
  end.

(** ** Predicates of the statements *)

(** What a driver leaves on diagonal [j] when it extends it from the
    wavefront [w] and goes on: a NULL offset stays, another offset is
    replaced by the result of [ext] (not terminal, when the ends-free check
    runs). *)
Definition extended_at (ext : Z -> wf_offset_t -> option wf_offset_t)
    (endsfree : bool) (wf_aligner : wavefront_aligner_t)
    (w w' : wavefront_t) (j : Z) : Prop :=
  if offsets w j =? WAVEFRONT_OFFSET_NULL then offsets w' j = offsets w j
  else ext j (offsets w j) = Some (offsets w' j) /\
       (endsfree = true -> endsfree_terminal wf_aligner (offsets w' j) j = false).

(** Diagonal [j] of [w] holds an offset whose extension meets the ends-free
    condition. *)
Definition terminal_at (ext : Z -> wf_offset_t -> option wf_offset_t)
    (wf_aligner : wavefront_aligner_t) (w : wavefront_t) (j : Z) : Prop :=
  offsets w j <> WAVEFRONT_OFFSET_NULL /\
  exists o, ext j (offsets w j) = Some o /\ endsfree_terminal wf_aligner o j = true.

(** [ext] gives a result on every diagonal of [lo..hi] that holds an
    offset. *)
Definition defined_on (ext : Z -> wf_offset_t -> option wf_offset_t)
    (w : wavefront_t) (lo hi : Z) : Prop :=
  forall j, lo <= j <= hi -> offsets w j <> WAVEFRONT_OFFSET_NULL ->
            ext j (offsets w j) <> None.

(** The offsets after every diagonal of [lo..hi] is extended. *)
Definition extend_offsets (ext : Z -> wf_offset_t -> option wf_offset_t)
    (w : wavefront_t) (lo hi : Z) : Z -> wf_offset_t :=
  fun j =>
    if (lo <=? j) && (j <=? hi) && negb (offsets w j =? WAVEFRONT_OFFSET_NULL)
    then match ext j (offsets w j) with
         | Some o => o
         | None => offsets w j
         end
    else offsets w j.

(** The sub-ranges of the [n] workers split [lo..hi]: each lies in the
    range, every diagonal of the range is in one, and no two overlap. *)
Definition partitions (limits : Z -> Z -> Z -> Z -> Z * Z) (n lo hi : Z) : Prop :=
  (forall t j, 0 <= t < n ->
     fst (limits t n lo hi) <= j <= snd (limits t n lo hi) -> lo <= j <= hi) /\
  (forall j, lo <= j <= hi ->
     exists t, 0 <= t < n /\
               fst (limits t n lo hi) <= j <= snd (limits t n lo hi)) /\
  (forall t1 t2 j, 0 <= t1 < n -> 0 <= t2 < n ->
     fst (limits t1 n lo hi) <= j <= snd (limits t1 n lo hi) ->
     fst (limits t2 n lo hi) <= j <= snd (limits t2 n lo hi) -> t1 = t2).

(** What an orchestrator call answers once its phase ended not terminal
    with the wavefront [w'] (it was [w] before): the phase did not write
    [k_alignment_end], and the heuristic hook, if a strategy is set, decides
    between "dropped" and "not done". *)
Definition not_terminal_outcome (wf_aligner : wavefront_aligner_t) (score : Z)
    (w w' : wavefront_t) (answer : option (bool * wavefront_aligner_t)) : Prop :=
  let score := modular_score wf_aligner score in
  let hooked :=
    wavefront_heuristic_cufoff (store_mwavefront wf_aligner score w') score in
  k_alignment_end w' = k_alignment_end w /\
  (strategy wf_aligner <> wf_heuristic_none -> fst hooked = true ->
     answer = Some (true, set_status (snd hooked) WF_STATUS_HEURISTICALY_DROPPED)) /\
  (strategy wf_aligner <> wf_heuristic_none -> fst hooked = false ->
     answer = Some (false, snd hooked)) /\
  (strategy wf_aligner = wf_heuristic_none ->
     answer = Some (false, store_mwavefront wf_aligner score w')).

(** A call that ends with the verdict true and the status "successful" has
    recorded, in [k_alignment_end] of the wavefront of the score, a diagonal
    of the range of [w] that is terminal on [w]. *)
Definition records_terminal (ext : Z -> wf_offset_t -> option wf_offset_t)
    (wf_aligner : wavefront_aligner_t) (w : wavefront_t) (score : Z)
    (r : option (bool * wavefront_aligner_t)) : Prop :=
  final_verdict r = Some (true, WF_STATUS_SUCCESSFUL) ->
  exists k,
    final_k_alignment_end r (modular_score wf_aligner score) = Some k /\
    lo w <= k <= hi w /\
    terminal_at ext wf_aligner w k.

(** The body of the parallel region of a dispatcher: the worker
    [thread_num] runs the driver on its sub-range [rng thread_num]. *)
Definition worker (ext : Z -> wf_offset_t -> option wf_offset_t) (endsfree : bool)
    (wf_aligner : wavefront_aligner_t) (rng : Z -> Z * Z)
    (thread_num : Z) (mwavefront : wavefront_t) : option (bool * wavefront_t) :=
  let '(t_lo, t_hi) := rng thread_num in
  extend_range ext endsfree wf_aligner mwavefront t_lo t_hi.

(** The condition under which a dispatcher extends the whole range
    [lo..hi] of the wavefront: one worker, or a parallel build whose workers
    get sub-ranges that split the range and all run. *)
Definition covers (wf_aligner : wavefront_aligner_t) (mwavefront : wavefront_t)
  : Prop :=
  let n := wavefront_compute_num_threads wf_aligner (lo mwavefront) (hi mwavefront) in
  n = 1 \/
  (WFA_PARALLEL = true /\
   partitions wavefront_compute_thread_limits n (lo mwavefront) (hi mwavefront) /\
   Permutation (omp_schedule n) (thread_nums n)).

(** Two runs of a checking dispatcher on [w] that both stopped on a terminal
    diagonal, the first with one worker, left [w1] and [w2]: the first run
    recorded the first terminal diagonal of the range and extended the
    diagonals up to it, the second recorded a terminal diagonal that is not
    before it, the two agree on every diagonal up to the first terminal
    one, and past it the first run left the offsets as they were while the
    second left each as it was or extended. *)
Definition agree_to_first_terminal (ext : Z -> wf_offset_t -> option wf_offset_t)
    (wf_aligner : wavefront_aligner_t) (w w1 w2 : wavefront_t) : Prop :=
  lo w1 = lo w /\ hi w1 = hi w /\ lo w2 = lo w /\ hi w2 = hi w /\
  lo w <= k_alignment_end w1 <= hi w /\
  terminal_at ext wf_aligner w (k_alignment_end w1) /\
  (forall i, lo w <= i < k_alignment_end w1 -> ~ terminal_at ext wf_aligner w i) /\
  k_alignment_end w1 <= k_alignment_end w2 <= hi w /\
  terminal_at ext wf_aligner w (k_alignment_end w2) /\
  (forall j, j <= k_alignment_end w1 -> offsets w2 j = offsets w1 j) /\
  (forall j, lo w <= j <= k_alignment_end w1 ->
     extended_at ext false wf_aligner w w1 j) /\
  (forall j, j < lo w \/ k_alignment_end w1 < j -> offsets w1 j = offsets w j) /\
  (forall j, k_alignment_end w1 < j ->
     offsets w2 j = offsets w j \/ extended_at ext false wf_aligner w w2 j).


(** * Properties *)

(** ** Termination detectors *)


Lemma endsfree_check_termination_eq a w offset k :
  wavefront_extend_endsfree_check_termination a w offset k =
  if endsfree_terminal a offset k then (true, set_k_alignment_end w k) else (false, w).
Proof.
  unfold wavefront_extend_endsfree_check_termination, endsfree_terminal.
  cbv zeta.
  destruct (_ && _); simpl; [reflexivity|].
  destruct (_ && _); reflexivity.
Qed.


(** C10: a NULL offset on the alignment diagonal never ends the alignment.
    The NULL marker is negative and the alignment offset of sequences of
    non-negative length is not, so the comparison of the check fails: it
    answers false and leaves the wavefront, [k_alignment_end] included, as
    it was. *)
Theorem end2end_check_termination_null (wf_aligner : wavefront_aligner_t)
    (mwavefront : wavefront_t) :
  WAVEFRONT_OFFSET_NULL < 0 ->
  0 <= text_length wf_aligner ->
  0 <= pattern_length wf_aligner ->
  offsets mwavefront
    (WAVEFRONT_DIAGONAL (text_length wf_aligner) (pattern_length wf_aligner))
    = WAVEFRONT_OFFSET_NULL ->
  WAVEFRONT_OFFSET_NULL
    < WAVEFRONT_OFFSET (text_length wf_aligner) (pattern_length wf_aligner) /\
  wavefront_extend_end2end_check_termination wf_aligner mwavefront
    = (false, mwavefront).
Proof.
  intros Hnull HT HP Hoff. unfold WAVEFRONT_OFFSET. split; [lia|].
  unfold wavefront_extend_end2end_check_termination. cbv zeta.
  destruct (_ || _); [reflexivity|].
  rewrite Hoff. unfold WAVEFRONT_OFFSET.
  replace (_ <? _) with true by lia. reflexivity.
Qed.

(** ** The shared parts restate the code *)

Lemma packed_end2end_for_eq n a w k :
  extend_for (wavefront_extend_matches_packed_kernel a) false n a w k =
  w' <- packed_end2end_for n a w k ;; Some (false, w').
Proof.
  revert w k. induction n as [|n IH]; intros w k; simpl; [reflexivity|].
  destruct (offsets w k =? WAVEFRONT_OFFSET_NULL); [apply IH|].
  destruct (wavefront_extend_matches_packed_kernel a k (offsets w k)); simpl;
    [apply IH|reflexivity].
Qed.

Lemma packed_endsfree_for_eq n a w k :
  packed_endsfree_for n a w k =
  extend_for (wavefront_extend_matches_packed_kernel a) true n a w k.
Proof.
  revert w k. induction n as [|n IH]; intros w k; simpl; [reflexivity|].
  destruct (offsets w k =? WAVEFRONT_OFFSET_NULL); [apply IH|].
  destruct (wavefront_extend_matches_packed_kernel a k (offsets w k)) as [o|]; simpl;
    [|reflexivity].
  rewrite endsfree_check_termination_eq.
  destruct (endsfree_terminal a o k); [reflexivity|apply IH].
Qed.

Lemma custom_for_eq fuel n a w k endsfree :
  custom_for fuel n a w k endsfree =
  extend_for (custom_kernel fuel a) endsfree n a w k.
Proof.
  revert w k. induction n as [|n IH]; intros w k; simpl; [reflexivity|].
  destruct (offsets w k =? WAVEFRONT_OFFSET_NULL); [apply IH|].
  unfold custom_kernel at 1.
  destruct (custom_match_while fuel (match_funct a) _ _ _) as [o|]; simpl;
    [|reflexivity].
  destruct endsfree; simpl; [|apply IH].
  rewrite endsfree_check_termination_eq.
  destruct (endsfree_terminal a o k); [reflexivity|apply IH].
Qed.

Lemma omp_parallel_ext body1 body2 schedule b w :
  (forall t w', body1 t w' = body2 t w') ->
  omp_parallel body1 schedule b w = omp_parallel body2 schedule b w.
Proof.
  intros Hb. revert b w. induction schedule as [|t rest IH]; intros b w; simpl;
    [reflexivity|].
  rewrite Hb. destruct (body2 t w) as [[r w']|]; simpl; [apply IH|reflexivity].
Qed.

Lemma epilogue_eq a score end_reached w :
  epilogue a score (end_reached, w) =
  (let wf_aligner := store_mwavefront a score w in
   if end_reached then Some (true, set_status wf_aligner WF_STATUS_SUCCESSFUL)
   else if negb (is_heuristic_none (strategy wf_aligner)) then
     let '(alignment_dropped, wf_aligner) :=
       wavefront_heuristic_cufoff wf_aligner score in
     if alignment_dropped
     then Some (true, set_status wf_aligner WF_STATUS_HEURISTICALY_DROPPED)
     else Some (false, wf_aligner)
   else Some (false, wf_aligner)).
Proof.
  unfold epilogue. cbv zeta. simpl fst. simpl snd.
  destruct end_reached; [reflexivity|].
  destruct (negb _); [|reflexivity].
  destruct (wavefront_heuristic_cufoff _ _) as [d a']. reflexivity.
Qed.

Lemma wavefront_extend_endsfree_eq a score :
  wavefront_extend_endsfree a score = orchestrate endsfree_phase a score.
Proof.
  unfold wavefront_extend_endsfree, orchestrate. cbv zeta.
  destruct (mwavefronts _ _) as [w|]; [|reflexivity].
  unfold endsfree_phase, dispatch. cbv zeta.
  unfold wavefront_extend_matches_packed_endsfree, extend_range.
  destruct (_ =? 1).
  - rewrite packed_endsfree_for_eq.
    destruct (extend_for _ _ _ _ _ _) as [[b w']|]; simpl; [|reflexivity].
    rewrite epilogue_eq. reflexivity.
  - destruct WFA_PARALLEL.
    + match goal with |- context [omp_parallel ?b ?s false w] =>
        rewrite (omp_parallel_ext b
          (fun thread_num mwavefront =>
             let '(t_lo, t_hi) :=
               wavefront_compute_thread_limits thread_num
                 (wavefront_compute_num_threads a (lo w) (hi w)) (lo w) (hi w) in
             extend_for (wavefront_extend_matches_packed_kernel a) true
               (range_size t_lo t_hi) a mwavefront t_lo))
      end.
      2:{ intros t w'. destruct (wavefront_compute_thread_limits _ _ _ _).
          apply packed_endsfree_for_eq. }
      destruct (omp_parallel _ _ _ _) as [[b w']|]; simpl; [|reflexivity].
      rewrite epilogue_eq. reflexivity.
    + simpl. rewrite epilogue_eq. reflexivity.
Qed.

Lemma wavefront_extend_custom_eq fuel a score :
  wavefront_extend_custom fuel a score = orchestrate (custom_phase fuel) a score.
Proof.
  unfold wavefront_extend_custom, orchestrate. cbv zeta.
  destruct (mwavefronts _ _) as [w|]; [|reflexivity].
  unfold custom_phase, dispatch. cbv zeta.
  unfold wavefront_extend_matches_custom, extend_range.
  set (endsfree := alignment_span_eqb _ _).
  assert (Hfin : forall r : bool * wavefront_t,
    (let '(end_reached, mwavefront) := r in
     let '(end_reached0, mwavefront0) :=
       if negb endsfree
       then wavefront_extend_end2end_check_termination a mwavefront
       else (end_reached, mwavefront) in
     let wf_aligner := store_mwavefront a (modular_score a score) mwavefront0 in
     if end_reached0 then Some (true, set_status wf_aligner WF_STATUS_SUCCESSFUL)
     else if negb (is_heuristic_none (strategy wf_aligner)) then
       let '(alignment_dropped, wf_aligner0) :=
         wavefront_heuristic_cufoff wf_aligner (modular_score a score) in
       if alignment_dropped
       then Some (true, set_status wf_aligner0 WF_STATUS_HEURISTICALY_DROPPED)
       else Some (false, wf_aligner0)
     else Some (false, wf_aligner)) =
    (r' <- (if negb endsfree
            then Some (wavefront_extend_end2end_check_termination a (snd r))
            else Some r) ;;
     epilogue a (modular_score a score) r')).
  { intros [b w']. simpl snd. destruct (negb endsfree); simpl.
    - destruct (wavefront_extend_end2end_check_termination a w') as [b2 w2].
      rewrite epilogue_eq. reflexivity.
    - rewrite epilogue_eq. reflexivity. }
  destruct (_ =? 1).
  - rewrite custom_for_eq.
    destruct (extend_for _ _ _ _ _ _) as [r|]; simpl; [apply Hfin|reflexivity].
  - destruct WFA_PARALLEL.
    + match goal with |- context [omp_parallel ?b ?s false w] =>
        rewrite (omp_parallel_ext b
          (fun thread_num mwavefront =>
             let '(t_lo, t_hi) :=
               wavefront_compute_thread_limits thread_num
                 (wavefront_compute_num_threads a (lo w) (hi w)) (lo w) (hi w) in
             extend_for (custom_kernel fuel a) endsfree
               (range_size t_lo t_hi) a mwavefront t_lo))
      end.
      2:{ intros t w'. destruct (wavefront_compute_thread_limits _ _ _ _).
          apply custom_for_eq. }
      destruct (omp_parallel _ _ _ _) as [r|]; simpl; [apply Hfin|reflexivity].
    + simpl. apply (Hfin (false, w)).
Qed.

Lemma extend_for_nocheck_false ext n a w k r :
  extend_for ext false n a w k = Some r -> fst r = false.
Proof.
  revert w k. induction n as [|n IH]; intros w k; simpl.
  - intros [= <-]. reflexivity.
  - destruct (offsets w k =? WAVEFRONT_OFFSET_NULL); [apply IH|].
    destruct (ext k (offsets w k)); simpl; [apply IH|discriminate].
Qed.

Lemma wavefront_extend_end2end_eq a score :
  wavefront_extend_end2end a score = orchestrate end2end_phase a score.
Proof.
  unfold wavefront_extend_end2end, orchestrate. cbv zeta.
  destruct (mwavefronts _ _) as [w|]; [|reflexivity].
  unfold end2end_phase, dispatch, dispatches. cbv zeta.
  unfold wavefront_extend_matches_packed_end2end, extend_range.
  destruct (_ =? 1); simpl orb.
  - rewrite packed_end2end_for_eq.
    destruct (packed_end2end_for _ _ _ _) as [w'|]; simpl; [|reflexivity].
    destruct (wavefront_extend_end2end_check_termination a w') as [b2 w2].
    rewrite epilogue_eq. reflexivity.
  - destruct WFA_PARALLEL.
    + match goal with |- context [omp_parallel ?b ?s false w] =>
        rewrite (omp_parallel_ext b
          (fun thread_num mwavefront =>
             let '(t_lo, t_hi) :=
               wavefront_compute_thread_limits thread_num
                 (wavefront_compute_num_threads a (lo w) (hi w)) (lo w) (hi w) in
             extend_for (wavefront_extend_matches_packed_kernel a) false
               (range_size t_lo t_hi) a mwavefront t_lo))
      end.
      2:{ intros t w'. destruct (wavefront_compute_thread_limits _ _ _ _).
          symmetry. apply packed_end2end_for_eq. }
      destruct (omp_parallel _ _ _ _) as [[b w']|]; simpl; [|reflexivity].
      destruct (wavefront_extend_end2end_check_termination a w') as [b2 w2].
      rewrite epilogue_eq. reflexivity.
    + simpl. rewrite epilogue_eq. reflexivity.
Qed.


(** ** The loop of the drivers *)

Lemma set_offset_same w k o : offsets (set_offset w k o) k = o.
Proof. simpl. rewrite Z.eqb_refl. reflexivity. Qed.

Lemma set_offset_other w k o j : j <> k -> offsets (set_offset w k o) j = offsets w j.
Proof. intros H. simpl. destruct (Z.eqb_spec j k); [contradiction|reflexivity]. Qed.

(** A driver writes the offsets of its range only, and [k_alignment_end]
    only when it answers true. *)
Lemma extend_for_frame ext ef n a w k b w' :
  extend_for ext ef n a w k = Some (b, w') ->
  lo w' = lo w /\ hi w' = hi w /\
  (forall j, j < k \/ k + Z.of_nat n <= j -> offsets w' j = offsets w j) /\
  (b = false -> k_alignment_end w' = k_alignment_end w).
Proof.
  revert w k. induction n as [|n IH]; intros w k; simpl extend_for.
  - intros [= <- <-]. auto.
  - destruct (offsets w k =? WAVEFRONT_OFFSET_NULL).
    + intros H. apply IH in H. destruct H as (H1 & H2 & H3 & H4).
      repeat split; auto. intros j Hj. apply H3. lia.
    + destruct (ext k (offsets w k)) as [o|]; simpl; [|discriminate].
      destruct (ef && endsfree_terminal a o k).
      * intros [= <- <-]. simpl. repeat split; try discriminate.
        intros j Hj. destruct (Z.eqb_spec j k); [lia|reflexivity].
      * intros H. apply IH in H. destruct H as (H1 & H2 & H3 & H4).
        repeat split; auto. intros j Hj. rewrite H3 by lia.
        apply set_offset_other. lia.
Qed.

(** A driver that answers false has extended every diagonal of its range. *)
Lemma extend_for_false ext ef n a w k w' :
  extend_for ext ef n a w k = Some (false, w') ->
  forall j, k <= j < k + Z.of_nat n -> extended_at ext ef a w w' j.
Proof.
  revert w k. induction n as [|n IH]; intros w k; simpl extend_for.
  - intros _ j Hj. lia.
  - intros H j Hj. unfold extended_at.
    destruct (Z.eq_dec j k) as [->|Hne].
    + destruct (offsets w k =? WAVEFRONT_OFFSET_NULL) eqn:En.
      * apply extend_for_frame in H. destruct H as (_ & _ & H3 & _).
        apply H3. lia.
      * destruct (ext k (offsets w k)) as [o|]; simpl in H; [|discriminate].
        destruct (ef && endsfree_terminal a o k) eqn:Et; [discriminate|].
        apply extend_for_frame in H. destruct H as (_ & _ & H3 & _).
        rewrite H3 by lia. rewrite set_offset_same. split; [reflexivity|].
        intros ->. exact Et.
    + destruct (offsets w k =? WAVEFRONT_OFFSET_NULL) eqn:En.
      * apply (IH w (k + 1) H j). lia.
      * destruct (ext k (offsets w k)) as [o|]; simpl in H; [|discriminate].
        destruct (ef && endsfree_terminal a o k) eqn:Et; [discriminate|].
        assert (Hj' : k + 1 <= j < k + 1 + Z.of_nat n) by lia.
        pose proof (IH _ _ H j Hj') as Hx. unfold extended_at in Hx.
        rewrite set_offset_other in Hx by exact Hne. exact Hx.
Qed.

(** A driver that answers true stopped at the first terminal diagonal of
    its range: the diagonals before it are extended, the ones after it are
    as they were, and [k_alignment_end] is that diagonal. *)
Lemma extend_for_true ext ef n a w k w' :
  extend_for ext ef n a w k = Some (true, w') ->
  ef = true /\
  exists j, k <= j < k + Z.of_nat n /\
    terminal_at ext a w j /\
    ext j (offsets w j) = Some (offsets w' j) /\
    k_alignment_end w' = j /\
    (forall i, k <= i < j -> extended_at ext ef a w w' i) /\
    (forall i, j < i -> offsets w' i = offsets w i).
Proof.
  revert w k. induction n as [|n IH]; intros w k; simpl extend_for.
  - discriminate.
  - destruct (offsets w k =? WAVEFRONT_OFFSET_NULL) eqn:En.
    + intros H. destruct (IH _ _ H) as (He & j & Hj & Ht & Hx & Hk & Hb & Ha).
      split; [exact He|]. exists j.
      split; [lia|]. split; [exact Ht|]. split; [exact Hx|]. split; [exact Hk|].
      split; [|exact Ha].
      intros i Hi. destruct (Z.eq_dec i k) as [->|Hne]; [|apply Hb; lia].
      unfold extended_at. rewrite En.
      pose proof (extend_for_frame _ _ _ _ _ _ _ _ H) as (_ & _ & H3 & _).
      apply H3. lia.
    + destruct (ext k (offsets w k)) as [o|] eqn:Eo; simpl; [|discriminate].
      destruct (ef && endsfree_terminal a o k) eqn:Et.
      * intros [= <-]. apply andb_true_iff in Et. destruct Et as [-> Et].
        split; [reflexivity|]. exists k. simpl.
        rewrite Z.eqb_refl.
        split; [lia|]. split.
        { split; [apply Z.eqb_neq; exact En|]. exists o. auto. }
        split; [exact Eo|]. split; [reflexivity|]. split; [intros i Hi; lia|].
        intros i Hi. destruct (Z.eqb_spec i k); [lia|reflexivity].
      * intros H. destruct (IH _ _ H) as (He & j & Hj & Ht & Hx & Hk & Hb & Ha).
        split; [exact He|]. exists j.
        assert (Hjk : j <> k) by lia.
        unfold terminal_at in *.
        rewrite set_offset_other in Ht, Hx by exact Hjk.
        split; [lia|]. split; [exact Ht|]. split; [exact Hx|]. split; [exact Hk|].
        split.
        -- intros i Hi. destruct (Z.eq_dec i k) as [->|Hne].
           ++ unfold extended_at. rewrite En.
              pose proof (extend_for_frame _ _ _ _ _ _ _ _ H) as (_ & _ & H3 & _).
              rewrite H3 by lia. rewrite set_offset_same.
              split; [exact Eo|]. intros ->. exact Et.
           ++ assert (Hi' : k + 1 <= i < j) by lia.
              pose proof (Hb i Hi') as Hy. unfold extended_at in *.
              rewrite set_offset_other in Hy by exact Hne. exact Hy.
        -- intros i Hi. rewrite Ha by exact Hi. apply set_offset_other. lia.
Qed.

(** A driver gives a result when [ext] does on each diagonal it extends. *)
Lemma extend_for_defined ext ef n a w k :
  defined_on ext w k (k + Z.of_nat n - 1) ->
  exists r, extend_for ext ef n a w k = Some r.
Proof.
  revert w k. induction n as [|n IH]; intros w k Hd; simpl extend_for.
  - eauto.
  - assert (Hrest : forall w1, (forall j, k < j -> offsets w1 j = offsets w j) ->
                    defined_on ext w1 (k + 1) (k + 1 + Z.of_nat n - 1)).
    { intros w1 Hw j Hj Hn. rewrite Hw in * by lia. apply Hd; [lia|exact Hn]. }
    destruct (offsets w k =? WAVEFRONT_OFFSET_NULL) eqn:En.
    + apply IH. apply Hrest. reflexivity.
    + destruct (ext k (offsets w k)) as [o|] eqn:Eo; simpl.
      * destruct (ef && endsfree_terminal a o k); [eauto|].
        apply IH. apply Hrest. intros j Hj. apply set_offset_other. lia.
      * exfalso. apply (Hd k); [lia| |exact Eo]. apply Z.eqb_neq. exact En.
Qed.

Lemma range_size_spec lo hi : Z.of_nat (range_size lo hi) = Z.max 0 (hi - lo + 1).
Proof. unfold range_size. lia. Qed.

(** ** The end-to-end driver *)

(** C6: the end-to-end driver applies the kernel to every diagonal of
    [lo..hi] that holds an offset, leaves the NULL diagonals and the
    diagonals outside the range as they are, and checks no termination: it
    goes through the whole range and does not write [k_alignment_end]. *)
Theorem packed_end2end_driver_spec (wf_aligner : wavefront_aligner_t)
    (mwavefront : wavefront_t) (score k_lo k_hi : Z) :
  defined_on (wavefront_extend_matches_packed_kernel wf_aligner) mwavefront k_lo k_hi ->
  exists mwavefront',
    wavefront_extend_matches_packed_end2end wf_aligner mwavefront score k_lo k_hi
      = Some mwavefront' /\
    (forall k, k_lo <= k <= k_hi ->
       offsets mwavefront k <> WAVEFRONT_OFFSET_NULL ->
       wavefront_extend_matches_packed_kernel wf_aligner k (offsets mwavefront k)
         = Some (offsets mwavefront' k)) /\
    (forall k, k_lo <= k <= k_hi ->
       offsets mwavefront k = WAVEFRONT_OFFSET_NULL ->
       offsets mwavefront' k = WAVEFRONT_OFFSET_NULL) /\
    (forall k, k < k_lo \/ k_hi < k -> offsets mwavefront' k = offsets mwavefront k) /\
    lo mwavefront' = lo mwavefront /\
    hi mwavefront' = hi mwavefront /\
    k_alignment_end mwavefront' = k_alignment_end mwavefront.
Proof.
  intros Hd. unfold wavefront_extend_matches_packed_end2end.
  pose proof (range_size_spec k_lo k_hi) as Hn.
  destruct (extend_for_defined (wavefront_extend_matches_packed_kernel wf_aligner)
              false (range_size k_lo k_hi) wf_aligner mwavefront k_lo) as [[b w'] Hr].
  { intros j Hj. apply Hd. lia. }
  pose proof (extend_for_nocheck_false _ _ _ _ _ _ Hr) as Hb. simpl in Hb. subst b.
  pose proof Hr as Hr'. rewrite packed_end2end_for_eq in Hr'.
  destruct (packed_end2end_for _ _ _ _) as [w''|]; simpl in Hr'; [|discriminate].
  injection Hr' as ->. exists w'. split; [reflexivity|].
  pose proof (extend_for_frame _ _ _ _ _ _ _ _ Hr) as (H1 & H2 & H3 & H4).
  pose proof (extend_for_false _ _ _ _ _ _ _ Hr) as Hx.
  repeat split; auto.
  - intros k Hk Hnn. assert (Hk' : k_lo <= k < k_lo + Z.of_nat (range_size k_lo k_hi)) by lia.
    specialize (Hx k Hk'). unfold extended_at in Hx.
    apply Z.eqb_neq in Hnn. rewrite Hnn in Hx. apply Hx.
  - intros k Hk Hnn. assert (Hk' : k_lo <= k < k_lo + Z.of_nat (range_size k_lo k_hi)) by lia.
    specialize (Hx k Hk'). unfold extended_at in Hx.
    rewrite Hnn in Hx. rewrite Z.eqb_refl in Hx. congruence.
  - intros k Hk. apply H3. lia.
Qed.

(** ** Orchestrators: score reduction and absent wavefronts *)

Lemma modular_score_idem a score :
  modular_score a (modular_score a score) = modular_score a score.
Proof.
  unfold modular_score. destruct (memory_modular _); [|reflexivity].
  apply Zquot.Zrem_rem.
Qed.

Lemma orchestrate_modular phase a score :
  orchestrate phase a (modular_score a score) = orchestrate phase a score.
Proof. unfold orchestrate. cbv zeta. rewrite modular_score_idem. reflexivity. Qed.

Lemma orchestrate_absent phase a score :
  mwavefronts (wf_components a) (modular_score a score) = None ->
  orchestrate phase a score = Some (false, a).
Proof. intros H. unfold orchestrate. cbv zeta. rewrite H. reflexivity. Qed.

(** ** Orchestrators: the verdict and the heuristic hook *)

Lemma omp_parallel_false_kend body schedule b0 w w' :
  (forall t w1 w2, body t w1 = Some (false, w2) ->
                   k_alignment_end w2 = k_alignment_end w1) ->
  omp_parallel body schedule b0 w = Some (false, w') ->
  b0 = false /\ k_alignment_end w' = k_alignment_end w.
Proof.
  intros Hbody. revert b0 w.
  induction schedule as [|t rest IH]; intros b0 w; simpl.
  - intros [= -> ->]. auto.
  - destruct (body t w) as [[r w1]|] eqn:Eb; simpl; [|discriminate].
    intros H. apply IH in H. destruct H as [Hb Hk].
    destruct r; [discriminate|]. split; [exact Hb|].
    rewrite Hk. eapply Hbody. exact Eb.
Qed.

Lemma omp_parallel_flag body schedule b0 w r :
  (forall t w1 r1, body t w1 = Some r1 -> fst r1 = false) ->
  omp_parallel body schedule b0 w = Some r -> fst r = b0.
Proof.
  intros Hbody. revert b0 w.
  induction schedule as [|t rest IH]; intros b0 w; simpl.
  - intros [= <-]. reflexivity.
  - destruct (body t w) as [[r1 w1]|] eqn:Eb; simpl; [|discriminate].
    apply Hbody in Eb. simpl in Eb. subst r1. apply IH.
Qed.

Lemma dispatch_false_kend ext ef a w w' :
  dispatch ext ef a w = Some (false, w') ->
  k_alignment_end w' = k_alignment_end w.
Proof.
  unfold dispatch. cbv zeta. destruct (_ =? 1).
  - intros H. apply extend_for_frame in H. apply H. reflexivity.
  - destruct WFA_PARALLEL.
    + intros H. apply omp_parallel_false_kend in H; [apply H|].
      intros t w1 w2. destruct (wavefront_compute_thread_limits _ _ _ _).
      intros Hb. apply extend_for_frame in Hb. apply Hb. reflexivity.
    + intros [= <-]. reflexivity.
Qed.

Lemma dispatch_nocheck_false ext a w r :
  dispatch ext false a w = Some r -> fst r = false.
Proof.
  unfold dispatch. cbv zeta. destruct (_ =? 1).
  - apply extend_for_nocheck_false.
  - destruct WFA_PARALLEL.
    + apply omp_parallel_flag.
      intros t w1 r1. destruct (wavefront_compute_thread_limits _ _ _ _).
      apply extend_for_nocheck_false.
    + intros [= <-]. reflexivity.
Qed.

Lemma end2end_check_false a w w' :
  wavefront_extend_end2end_check_termination a w = (false, w') -> w' = w.
Proof.
  unfold wavefront_extend_end2end_check_termination. cbv zeta.
  destruct (_ || _); [congruence|].
  destruct (_ <? _); [congruence|discriminate].
Qed.

Lemma end2end_phase_false_kend a w w' :
  end2end_phase a w = Some (false, w') ->
  k_alignment_end w' = k_alignment_end w.
Proof.
  unfold end2end_phase.
  destruct (dispatch _ false a w) as [[b w1]|] eqn:Ed; simpl; [|discriminate].
  pose proof (dispatch_nocheck_false _ _ _ _ Ed) as Hb. simpl in Hb. subst b.
  apply dispatch_false_kend in Ed.
  destruct (dispatches a w).
  - intros [= H]. apply end2end_check_false in H. congruence.
  - intros [= <-]. exact Ed.
Qed.

Lemma custom_phase_false_kend fuel a w w' :
  custom_phase fuel a w = Some (false, w') ->
  k_alignment_end w' = k_alignment_end w.
Proof.
  unfold custom_phase. cbv zeta.
  destruct (alignment_span_eqb _ _); simpl negb; cbv iota.
  - destruct (dispatch _ true a w) as [[b w1]|] eqn:Ed; simpl; [|discriminate].
    intros [= -> ->]. apply dispatch_false_kend in Ed. exact Ed.
  - destruct (dispatch _ false a w) as [[b w1]|] eqn:Ed; simpl; [|discriminate].
    pose proof (dispatch_nocheck_false _ _ _ _ Ed) as Hb. simpl in Hb. subst b.
    apply dispatch_false_kend in Ed.
    intros [= H]. apply end2end_check_false in H. congruence.
Qed.

Lemma orchestrate_not_terminal phase a score w w' :
  mwavefronts (wf_components a) (modular_score a score) = Some w ->
  phase a w = Some (false, w') ->
  k_alignment_end w' = k_alignment_end w ->
  not_terminal_outcome a score w w' (orchestrate phase a score).
Proof.
  intros Hw Hp Hk. unfold not_terminal_outcome, orchestrate. cbv zeta.
  rewrite Hw, Hp. simpl bind. unfold epilogue. simpl fst. simpl snd. cbv zeta.
  change (strategy (store_mwavefront a (modular_score a score) w'))
    with (strategy a).
  split; [exact Hk|].
  destruct (strategy a) eqn:Es; simpl.
  - repeat split; intros; congruence.
  - repeat split; intros H1; try congruence; intros H2; rewrite H2; reflexivity.
Qed.

(** C9: when the extension of a call is not terminal, the orchestrator
    has not written [k_alignment_end]; with a heuristic strategy set it asks
    the cut-off hook and, if the hook reports a drop, sets the status to
    "heuristically dropped" and answers true; if the hook reports no drop,
    or no strategy is set, it answers false. *)
Theorem heuristic_cutoff_interplay (fuel : nat) (wf_aligner : wavefront_aligner_t)
    (score : Z) (mwavefront : wavefront_t) :
  mwavefronts (wf_components wf_aligner) (modular_score wf_aligner score)
    = Some mwavefront ->
  (forall mwavefront',
     end2end_phase wf_aligner mwavefront = Some (false, mwavefront') ->
     not_terminal_outcome wf_aligner score mwavefront mwavefront'
       (wavefront_extend_end2end wf_aligner score)) /\
  (forall mwavefront',
     endsfree_phase wf_aligner mwavefront = Some (false, mwavefront') ->
     not_terminal_outcome wf_aligner score mwavefront mwavefront'
       (wavefront_extend_endsfree wf_aligner score)) /\
  (forall mwavefront',
     custom_phase fuel wf_aligner mwavefront = Some (false, mwavefront') ->
     not_terminal_outcome wf_aligner score mwavefront mwavefront'
       (wavefront_extend_custom fuel wf_aligner score)).
Proof.
  intros Hw.
  rewrite wavefront_extend_end2end_eq, wavefront_extend_endsfree_eq,
    wavefront_extend_custom_eq.
  split; [|split]; intros w' Hp; apply orchestrate_not_terminal; auto.
  - eapply end2end_phase_false_kend; eauto.
  - eapply dispatch_false_kend; eauto.
  - eapply custom_phase_false_kend; eauto.
Qed.

(** ** The packed kernel: blocks, trailing zeros and the first mismatch *)

Lemma byte_testbit_high b i : 8 <= i -> Z.testbit (byte.unsigned b) i = false.
Proof.
  intros Hi. rewrite <- (Z.mod_small (byte.unsigned b) (2 ^ 8)).
  - apply Z.mod_pow2_bits_high. lia.
  - apply byte.unsigned_range.
Qed.

(** Bit [i] of a little-endian block is bit [i mod 8] of its byte [i / 8]. *)
Lemma le_combine_testbit bs : forall i, 0 <= i ->
  Z.testbit (le_combine bs) i =
  match nth_error bs (Z.to_nat (i / 8)) with
  | Some b => Z.testbit (byte.unsigned b) (i mod 8)
  | None => false
  end.
Proof.
  induction bs as [|b bs IH]; intros i Hi.
  - simpl. rewrite Z.testbit_0_l. destruct (Z.to_nat (i / 8)); reflexivity.
  - change (le_combine (b :: bs))
      with (Z.lor (byte.unsigned b) (Z.shiftl (le_combine bs) 8)).
    rewrite Z.lor_spec, Z.shiftl_spec by exact Hi.
    destruct (Z.lt_ge_cases i 8) as [Hlt|Hge].
    + rewrite (Z.testbit_neg_r _ (i - 8)) by lia. rewrite orb_false_r.
      rewrite Z.div_small, Z.mod_small by lia. reflexivity.
    + rewrite byte_testbit_high by exact Hge. rewrite orb_false_l.
      rewrite IH by lia.
      replace (i / 8) with ((i - 8) / 8 + 1).
      2:{ replace i with ((i - 8) + 1 * 8) at 2 by lia.
          rewrite Z.div_add by lia. reflexivity. }
      replace (i mod 8) with ((i - 8) mod 8).
      2:{ replace i with ((i - 8) + 1 * 8) at 2 by lia.
          rewrite Z.mod_add by lia. reflexivity. }
      assert (0 <= (i - 8) / 8) by (apply Z.div_pos; lia).
      rewrite Z2Nat.inj_add by lia. rewrite Nat.add_comm. reflexivity.
Qed.

Lemma ctz_from_spec fuel : forall i x,
  i <= ctz_from fuel i x <= i + Z.of_nat fuel /\
  (forall j, i <= j < ctz_from fuel i x -> Z.testbit x j = false) /\
  (ctz_from fuel i x < i + Z.of_nat fuel -> Z.testbit x (ctz_from fuel i x) = true).
Proof.
  induction fuel as [|fuel IH]; intros i x; cbn [ctz_from].
  - split; [lia|]. split; intros; lia.
  - destruct (Z.testbit x i) eqn:Eb.
    + split; [lia|]. split; [intros; lia|]. intros _. exact Eb.
    + destruct (IH (i + 1) x) as (H1 & H2 & H3).
      split; [lia|]. split.
      * intros j Hj. destruct (Z.eq_dec j i) as [->|Hne]; [exact Eb|].
        apply H2. lia.
      * intros Hlt. apply H3. lia.
Qed.

(** Two blocks that agree on their first [r] bytes and differ on the next:
    the exclusive-or is not zero and its trailing zeros count [r] bytes. *)
Lemma block_mismatch (a b : list byte) (r : nat) (c d : byte) :
  (r < 8)%nat ->
  (forall i, (i < r)%nat -> nth_error a i = nth_error b i) ->
  nth_error a r = Some c -> nth_error b r = Some d -> c <> d ->
  Z.lxor (le_combine a) (le_combine b) <> 0 /\
  DIV_FLOOR (__builtin_ctzl (Z.lxor (le_combine a) (le_combine b))) 8 = Z.of_nat r.
Proof.
  intros Hr Heq Ha Hb Hcd.
  set (cmp := Z.lxor (le_combine a) (le_combine b)).
  assert (Hbit : forall i, 0 <= i -> Z.testbit cmp i =
            xorb (Z.testbit (le_combine a) i) (Z.testbit (le_combine b) i)).
  { intros i Hi. apply Z.lxor_spec. }
  assert (Hlow : forall i, 0 <= i < 8 * Z.of_nat r -> Z.testbit cmp i = false).
  { intros i Hi. rewrite Hbit, !le_combine_testbit by lia.
    assert (Z.to_nat (i / 8) < r)%nat.
    { assert (i / 8 < Z.of_nat r) by (apply Z.div_lt_upper_bound; lia).
      assert (0 <= i / 8) by (apply Z.div_pos; lia). lia. }
    rewrite Heq by assumption. apply xorb_nilpotent. }
  assert (Hmid : exists j, 0 <= j < 8 /\ Z.testbit cmp (8 * Z.of_nat r + j) = true).
  { destruct (Z.eq_dec (Z.lxor (byte.unsigned c) (byte.unsigned d)) 0) as [E|E].
    { apply Z.lxor_eq in E. apply byte.unsigned_inj in E. contradiction. }
    assert (Hex : exists j, 0 <= j /\ Z.testbit (Z.lxor (byte.unsigned c) (byte.unsigned d)) j = true).
    { destruct (ctz_from_spec 8 0 (Z.lxor (byte.unsigned c) (byte.unsigned d))) as (H1 & H2 & H3).
      destruct (Z.eq_dec (ctz_from 8 0 (Z.lxor (byte.unsigned c) (byte.unsigned d))) 8) as [E8|E8].
      - exfalso. apply E. apply Z.bits_inj'. intros n Hn. rewrite Z.bits_0.
        destruct (Z.lt_ge_cases n 8).
        + apply H2. lia.
        + rewrite Z.lxor_spec, !byte_testbit_high by lia. reflexivity.
      - eexists. split; [|apply H3; simpl Z.of_nat; lia]. lia. }
    destruct Hex as (j & Hj & Hjb).
    assert (j < 8).
    { destruct (Z.lt_ge_cases j 8); [assumption|].
      rewrite Z.lxor_spec, !byte_testbit_high in Hjb by lia. discriminate. }
    exists j. split; [lia|].
    rewrite Hbit, !le_combine_testbit by lia.
    replace ((8 * Z.of_nat r + j) / 8) with (Z.of_nat r).
    2:{ rewrite Z.mul_comm, Z.div_add_l by lia. rewrite (Z.div_small j) by lia. lia. }
    replace ((8 * Z.of_nat r + j) mod 8) with j.
    2:{ rewrite Z.add_comm, Z.mul_comm, Z.mod_add by lia. rewrite Z.mod_small by lia. reflexivity. }
    rewrite Nat2Z.id, Ha, Hb. rewrite <- Z.lxor_spec. exact Hjb. }
  destruct Hmid as (j & Hj & Hjb).
  split.
  - intros E. rewrite E in Hjb. rewrite Z.bits_0 in Hjb. discriminate.
  - unfold __builtin_ctzl, DIV_FLOOR.
    destruct (ctz_from_spec 64 0 cmp) as (H1 & H2 & H3).
    set (n := ctz_from 64 0 cmp) in *.
    assert (Hn1 : n <= 8 * Z.of_nat r + j).
    { destruct (Z.le_gt_cases n (8 * Z.of_nat r + j)); [assumption|].
      rewrite H2 in Hjb by lia. discriminate. }
    assert (Hn2 : 8 * Z.of_nat r <= n).
    { destruct (Z.le_gt_cases (8 * Z.of_nat r) n); [assumption|].
      assert (Z.testbit cmp n = true) by (apply H3; simpl Z.of_nat; lia).
      rewrite Hlow in H0 by lia. discriminate. }
    symmetry. apply Z.div_unique with (r := n - 8 * Z.of_nat r); lia.
Qed.

Lemma block_match (a b : list byte) :
  length a = length b ->
  (forall i, (i < length a)%nat -> nth_error a i = nth_error b i) ->
  Z.lxor (le_combine a) (le_combine b) = 0.
Proof.
  intros Hl Heq. replace b with a; [apply Z.lxor_nilpotent|].
  apply nth_error_ext. intros i.
  destruct (Nat.lt_ge_cases i (length a)) as [Hi|Hi]; [apply Heq; exact Hi|].
  rewrite (proj2 (nth_error_None a i)) by exact Hi.
  rewrite (proj2 (nth_error_None b i)) by lia. reflexivity.
Qed.

Lemma block_nth_error (buf : list byte) (ip i : nat) :
  (i < 8)%nat -> nth_error (firstn 8 (skipn ip buf)) i = nth_error buf (ip + i).
Proof.
  intros Hi. rewrite nth_error_firstn.
  destruct (Nat.ltb_spec i 8); [|lia]. apply nth_error_skipn.
Qed.

Lemma block_length (buf : list byte) (ip : nat) :
  (ip + 8 <= length buf)%nat -> length (firstn 8 (skipn ip buf)) = 8%nat.
Proof. intros H. rewrite length_firstn, length_skipn. lia. Qed.

Lemma load_uint64_in_bounds (buf : list byte) (ip : nat) :
  (ip + 8 <= length buf)%nat ->
  load_uint64 (mk_char_ptr buf (Z.of_nat ip)) = Some (block buf ip).
Proof.
  intros H. unfold load_uint64. simpl.
  replace (0 <=? Z.of_nat ip) with true by lia.
  replace (Z.of_nat ip + 8 <=? Z.of_nat (length buf)) with true by lia.
  simpl. rewrite Nat2Z.id. reflexivity.
Qed.

Lemma first_mismatch_shift (bp : list byte) (ip : nat) (bt : list byte) (it n m : nat) :
  first_mismatch bp ip bt it (m + n) -> first_mismatch bp (ip + m) bt (it + m) n.
Proof.
  intros [Heq (c & d & Hc & Hd & Hcd)]. split.
  - intros i Hi. destruct (Heq (m + i)%nat) as (x & Hx1 & Hx2); [lia|].
    exists x. rewrite <- !Nat.add_assoc. auto.
  - exists c, d. rewrite <- !Nat.add_assoc. auto.
Qed.

Lemma packed_kernel_while_nonzero fuel pp tp cmp offset :
  cmp <> 0 -> packed_kernel_while fuel pp tp cmp offset = Some (cmp, offset).
Proof.
  intros H. apply Z.eqb_neq in H. destruct fuel; simpl; rewrite H; reflexivity.
Qed.

Lemma packed_kernel_while_zero fuel pp tp offset :
  packed_kernel_while (S fuel) pp tp 0 offset =
  (p <- load_uint64 (ptr_add pp 8) ;;
   t <- load_uint64 (ptr_add tp 8) ;;
   packed_kernel_while fuel (ptr_add pp 8) (ptr_add tp 8) (Z.lxor p t) (offset + 8)).
Proof. reflexivity. Qed.

(** The loop of the kernel goes through the [q] equal blocks and stops in
    the block that holds the first mismatch. *)
Lemma packed_kernel_while_spec (bp bt : list byte) (r : nat) :
  forall (q ip it : nat) (offset : wf_offset_t) (fuel : nat),
  (r < 8)%nat ->
  first_mismatch bp ip bt it (8 * q + r) ->
  (ip + 8 * q + 8 <= length bp)%nat ->
  (it + 8 * q + 8 <= length bt)%nat ->
  (q <= fuel)%nat ->
  exists cmp,
    packed_kernel_while fuel (mk_char_ptr bp (Z.of_nat ip)) (mk_char_ptr bt (Z.of_nat it))
      (Z.lxor (block bp ip) (block bt it)) offset
      = Some (cmp, offset + 8 * Z.of_nat q) /\
    DIV_FLOOR (__builtin_ctzl cmp) 8 = Z.of_nat r.
Proof.
  induction q as [|q IH]; intros ip it offset fuel Hr Hm Hbp Hbt Hfuel.
  - destruct Hm as [Heq (c & d & Hc & Hd & Hcd)].
    rewrite Nat.mul_0_r, Nat.add_0_l in *.
    destruct (block_mismatch (firstn 8 (skipn ip bp)) (firstn 8 (skipn it bt)) r c d)
      as [Hne Hctz]; auto.
    + intros i Hi. rewrite !block_nth_error by lia.
      destruct (Heq i Hi) as (x & -> & ->). reflexivity.
    + rewrite block_nth_error by lia. exact Hc.
    + rewrite block_nth_error by lia. exact Hd.
    + exists (Z.lxor (block bp ip) (block bt it)). unfold block.
      split; [|exact Hctz].
      rewrite Z.add_0_r. apply packed_kernel_while_nonzero. exact Hne.
  - destruct fuel as [|fuel]; [lia|].
    assert (Hz : Z.lxor (block bp ip) (block bt it) = 0).
    { apply block_match.
      - rewrite !block_length by lia. reflexivity.
      - intros i. rewrite block_length by lia. intros Hi.
        rewrite !block_nth_error by lia.
        destruct Hm as [Heq _]. destruct (Heq i) as (x & -> & ->); [lia|].
        reflexivity. }
    rewrite Hz, packed_kernel_while_zero.
    unfold ptr_add. simpl buffer. simpl pos.
    replace (Z.of_nat ip + 8) with (Z.of_nat (ip + 8)) by lia.
    replace (Z.of_nat it + 8) with (Z.of_nat (it + 8)) by lia.
    rewrite !load_uint64_in_bounds by lia. simpl bind.
    destruct (IH (ip + 8)%nat (it + 8)%nat (offset + 8) fuel) as (cmp & Hk & Hc); auto;
      try lia.
    + apply first_mismatch_shift.
      replace (8 + (8 * q + r))%nat with (8 * S q + r)%nat by lia. exact Hm.
    + exists cmp. split; [|exact Hc]. rewrite Hk. f_equal. f_equal. lia.
Qed.

(** The kernel advances the offset by the distance to the first mismatch,
    when the blocks up to the one that holds it lie in the buffers. *)
Lemma packed_kernel_first_mismatch a k offset (ip it n : nat) :
  ptr_add (pattern a) (WAVEFRONT_V k offset)
    = mk_char_ptr (buffer (pattern a)) (Z.of_nat ip) ->
  ptr_add (text a) (WAVEFRONT_H k offset)
    = mk_char_ptr (buffer (text a)) (Z.of_nat it) ->
  first_mismatch (buffer (pattern a)) ip (buffer (text a)) it n ->
  (ip + n + 8 <= length (buffer (pattern a)))%nat ->
  (it + n + 8 <= length (buffer (text a)))%nat ->
  wavefront_extend_matches_packed_kernel a k offset = Some (offset + Z.of_nat n).
Proof.
  intros Hp Ht Hm Hbp Hbt. unfold wavefront_extend_matches_packed_kernel. cbv zeta.
  rewrite Hp, Ht.
  pose proof (Nat.div_mod_eq n 8) as Hn.
  assert (Hr : (n mod 8 < 8)%nat) by (apply Nat.mod_upper_bound; lia).
  set (q := (n / 8)%nat) in *. set (r := (n mod 8)%nat) in *.
  rewrite !load_uint64_in_bounds by lia. simpl bind.
  destruct (packed_kernel_while_spec (buffer (pattern a)) (buffer (text a)) r
              q ip it offset (length (buffer (pattern a))))
    as (cmp & Hk & Hc); auto; try lia.
  - rewrite <- Hn. exact Hm.
  - rewrite Hk. cbn [bind]. rewrite Hc. f_equal. lia.
Qed.

(** ** The packed kernel on sentinel-padded sequences *)

Lemma nth_error_app_skip (l l' : list byte) (i : nat) :
  nth_error (l ++ l') (length l + i) = nth_error l' i.
Proof. rewrite nth_error_app2 by lia. f_equal. lia. Qed.

Lemma equal_symbols_le (p t : list byte) :
  (equal_symbols p t <= length p)%nat /\ (equal_symbols p t <= length t)%nat.
Proof.
  revert t. induction p as [|c p IH]; intros t; simpl; [lia|].
  destruct t as [|d t]; simpl; [lia|].
  destruct (Byte.eqb c d); [|lia]. destruct (IH t). lia.
Qed.

Lemma equal_symbols_nil_r (p : list byte) : equal_symbols p [] = 0%nat.
Proof. destruct p; reflexivity. Qed.

Lemma In_skipn (x : byte) (n : nat) (l : list byte) : In x (skipn n l) -> In x l.
Proof.
  intros H. rewrite <- (firstn_skipn n l). apply in_or_app. right. exact H.
Qed.

(** Between sentinel paddings the first mismatch is where the naive
    comparison of the sequences stops. *)
Lemma padded_first_mismatch (ps ts : byte) (pad_p pad_t : nat) :
  (1 <= pad_p)%nat -> (1 <= pad_t)%nat -> ps <> ts ->
  forall (p t pre_p pre_t : list byte),
  ~ In ts p -> ~ In ps t ->
  first_mismatch (pre_p ++ p ++ repeat ps pad_p) (length pre_p)
                 (pre_t ++ t ++ repeat ts pad_t) (length pre_t)
                 (equal_symbols p t).
Proof.
  intros Hpp Hpt Hst.
  assert (Hhd : forall (x : byte) (n : nat), (1 <= n)%nat ->
                  nth_error (repeat x n) 0 = Some x).
  { intros x n Hn. destruct n; [lia|reflexivity]. }
  induction p as [|c p IH]; intros t pre_p pre_t Hp Ht.
  - simpl equal_symbols. split; [intros i Hi; lia|].
    rewrite !nth_error_app_skip.
    change ([] ++ repeat ps pad_p) with (repeat ps pad_p).
    rewrite Hhd by exact Hpp.
    destruct t as [|d t].
    + change ([] ++ repeat ts pad_t) with (repeat ts pad_t).
      rewrite Hhd by exact Hpt. eauto.
    + exists ps, d. repeat split. intros ->. apply Ht. left. reflexivity.
  - destruct t as [|d t].
    + simpl equal_symbols. split; [intros i Hi; lia|].
      rewrite !nth_error_app_skip.
      change ([] ++ repeat ts pad_t) with (repeat ts pad_t).
      rewrite Hhd by exact Hpt.
      exists c, ts. repeat split. intros ->. apply Hp. left. reflexivity.
    + simpl equal_symbols. destruct (Byte.eqb c d) eqn:Ecd.
      * apply Byte.byte_dec_bl in Ecd. subst d.
        specialize (IH t (pre_p ++ [c]) (pre_t ++ [c])).
        rewrite <- !app_assoc in IH. simpl app in IH.
        rewrite !length_app in IH. simpl length in IH.
        destruct IH as [Heq (x & y & Hx & Hy & Hxy)].
        { intros H. apply Hp. right. exact H. }
        { intros H. apply Ht. right. exact H. }
        split.
        -- intros i Hi. destruct i as [|i].
           ++ exists c. rewrite !nth_error_app_skip. simpl. auto.
           ++ destruct (Heq i) as (z & Hz1 & Hz2); [lia|]. exists z.
              replace (length pre_p + S i)%nat with (length pre_p + 1 + i)%nat by lia.
              replace (length pre_t + S i)%nat with (length pre_t + 1 + i)%nat by lia.
              auto.
        -- exists x, y.
           replace (length pre_p + S (equal_symbols p t))%nat
             with (length pre_p + 1 + equal_symbols p t)%nat by lia.
           replace (length pre_t + S (equal_symbols p t))%nat
             with (length pre_t + 1 + equal_symbols p t)%nat by lia.
           auto.
      * apply Byte.eqb_false in Ecd. split; [intros i Hi; lia|].
        rewrite !nth_error_app_skip. simpl. exists c, d. auto.
Qed.

(** On a sentinel-padded pair and from a position inside the sequences,
    the kernel gives the naive offset; its block reads stay inside the
    buffers. *)
Lemma packed_kernel_padded a pattern_seq text_seq pd k offset :
  sentinel_padded a pattern_seq text_seq pd ->
  0 <= WAVEFRONT_V k offset <= pattern_length a ->
  0 <= WAVEFRONT_H k offset <= text_length a ->
  wavefront_extend_matches_packed_kernel a k offset
    = Some (naive_extend pattern_seq text_seq k offset).
Proof.
  intros (Hp & Ht & Hpl & Htl & Hpe & Hte & Hst & Hpf & Htf) Hv Hh.
  unfold naive_extend. cbv zeta.
  set (v := Z.to_nat (WAVEFRONT_V k offset)).
  set (h := Z.to_nat (WAVEFRONT_H k offset)).
  destruct (equal_symbols_le (skipn v pattern_seq) (skipn h text_seq)) as [Hn1 Hn2].
  rewrite length_skipn in Hn1, Hn2.
  apply packed_kernel_first_mismatch
    with (ip := (pattern_begin_padding pd + v)%nat)
         (it := (text_begin_padding pd + h)%nat).
  - rewrite Hp. unfold ptr_add, pad_sequence. simpl. f_equal. lia.
  - rewrite Ht. unfold ptr_add, pad_sequence. simpl. f_equal. lia.
  - rewrite Hp, Ht. unfold pad_sequence. simpl buffer.
    pose proof (padded_first_mismatch (pattern_sentinel pd) (text_sentinel pd)
                  (pattern_end_padding pd) (text_end_padding pd)) as Hm.
    specialize (Hm ltac:(lia) ltac:(lia) Hst
                  (skipn v pattern_seq) (skipn h text_seq)
                  (repeat (pattern_sentinel pd) (pattern_begin_padding pd)
                     ++ firstn v pattern_seq)
                  (repeat (text_sentinel pd) (text_begin_padding pd)
                     ++ firstn h text_seq)).
    rewrite <- !app_assoc in Hm.
    rewrite (app_assoc (firstn v pattern_seq)) in Hm.
    rewrite (app_assoc (firstn h text_seq)) in Hm.
    rewrite !firstn_skipn in Hm.
    rewrite !length_app, !repeat_length, !firstn_length_le in Hm by lia.
    apply Hm.
    + intros H. apply Hpf. eapply In_skipn. exact H.
    + intros H. apply Htf. eapply In_skipn. exact H.
  - rewrite Hp. unfold pad_sequence. simpl buffer.
    rewrite !length_app, !repeat_length. lia.
  - rewrite Ht. unfold pad_sequence. simpl buffer.
    rewrite !length_app, !repeat_length. lia.
Qed.

(** The naive comparison, spelled out: the symbols before the point where it
    stops are equal pairwise, and at that point a sequence ends or the
    symbols differ. *)
Lemma equal_symbols_spec (p t : list byte) :
  (forall i, (i < equal_symbols p t)%nat -> nth_error p i = nth_error t i) /\
  (nth_error p (equal_symbols p t) = None \/
   nth_error t (equal_symbols p t) = None \/
   nth_error p (equal_symbols p t) <> nth_error t (equal_symbols p t)).
Proof.
  revert t. induction p as [|c p IH]; intros t.
  - simpl. split; [intros i Hi; lia|]. left. reflexivity.
  - destruct t as [|d t].
    + simpl. split; [intros i Hi; lia|]. right. left. reflexivity.
    + simpl equal_symbols. destruct (Byte.eqb c d) eqn:E.
      * apply Byte.byte_dec_bl in E. subst d. destruct (IH t) as [H1 H2].
        split; [|exact H2].
        intros [|i] Hi; [reflexivity|]. simpl. apply H1. lia.
      * apply Byte.eqb_false in E. split; [intros i Hi; lia|].
        right. right. simpl. congruence.
Qed.

(** C3: on a sentinel-padded sequence pair, from every position inside the
    sequences (the ends included), the packed kernel returns the offset the
    naive symbol-by-symbol comparison gives: the offset advanced over the
    consecutive equal symbols, up to the first mismatch or the end of a
    sequence (no advance at all when the first symbols differ). *)
Theorem packed_kernel_refines_naive (wf_aligner : wavefront_aligner_t)
    (pattern_seq text_seq : list byte) (pd : padding_t)
    (k : Z) (offset : wf_offset_t) :
  sentinel_padded wf_aligner pattern_seq text_seq pd ->
  0 <= WAVEFRONT_V k offset <= pattern_length wf_aligner ->
  0 <= WAVEFRONT_H k offset <= text_length wf_aligner ->
  let v := Z.to_nat (WAVEFRONT_V k offset) in
  let h := Z.to_nat (WAVEFRONT_H k offset) in
  let n := equal_symbols (skipn v pattern_seq) (skipn h text_seq) in
  wavefront_extend_matches_packed_kernel wf_aligner k offset
    = Some (naive_extend pattern_seq text_seq k offset) /\
  naive_extend pattern_seq text_seq k offset = offset + Z.of_nat n /\
  (forall i, (i < n)%nat ->
     nth_error pattern_seq (v + i) = nth_error text_seq (h + i)) /\
  (nth_error pattern_seq (v + n) = None \/
   nth_error text_seq (h + n) = None \/
   nth_error pattern_seq (v + n) <> nth_error text_seq (h + n)).
Proof.
  intros Hpad Hv Hh v h n.
  split; [apply (packed_kernel_padded _ _ _ _ _ _ Hpad Hv Hh)|].
  split; [reflexivity|].
  destruct (equal_symbols_spec (skipn v pattern_seq) (skipn h text_seq)) as [H1 H2].
  fold n in H1, H2. rewrite !nth_error_skipn in H2.
  split; [|exact H2].
  intros i Hi. specialize (H1 i Hi). rewrite !nth_error_skipn in H1. exact H1.
Qed.

(** C7: on a sentinel-padded sequence pair, from a position where the text
    or the pattern is fully consumed, the kernel returns the offset as it
    was: it does not advance past the sentinel.  It fails on no read (a read
    outside a buffer is a failure of the kernel), and the block it reads in
    each buffer ends inside the padding. *)
Theorem packed_kernel_boundary_safe (wf_aligner : wavefront_aligner_t)
    (pattern_seq text_seq : list byte) (pd : padding_t)
    (k : Z) (offset : wf_offset_t) :
  sentinel_padded wf_aligner pattern_seq text_seq pd ->
  0 <= WAVEFRONT_V k offset <= pattern_length wf_aligner ->
  0 <= WAVEFRONT_H k offset <= text_length wf_aligner ->
  WAVEFRONT_H k offset = text_length wf_aligner \/
  WAVEFRONT_V k offset = pattern_length wf_aligner ->
  wavefront_extend_matches_packed_kernel wf_aligner k offset = Some offset /\
  0 <= pos (ptr_add (pattern wf_aligner) (WAVEFRONT_V k offset)) /\
  pos (ptr_add (pattern wf_aligner) (WAVEFRONT_V k offset)) + 8
    <= Z.of_nat (length (buffer (pattern wf_aligner))) /\
  0 <= pos (ptr_add (text wf_aligner) (WAVEFRONT_H k offset)) /\
  pos (ptr_add (text wf_aligner) (WAVEFRONT_H k offset)) + 8
    <= Z.of_nat (length (buffer (text wf_aligner))).
Proof.
  intros Hpad Hv Hh Hend.
  pose proof (packed_kernel_padded _ _ _ _ _ _ Hpad Hv Hh) as Hk.
  destruct Hpad as (Hp & Ht & Hpl & Htl & Hpe & Hte & Hst & Hpf & Htf).
  assert (Hn : naive_extend pattern_seq text_seq k offset = offset).
  { unfold naive_extend. cbv zeta. destruct Hend as [He|He]; rewrite He.
    - rewrite Htl, Nat2Z.id, skipn_all, equal_symbols_nil_r. lia.
    - rewrite Hpl, Nat2Z.id, skipn_all. simpl. lia. }
  rewrite Hn in Hk. split; [exact Hk|].
  rewrite Hp, Ht. unfold pad_sequence, ptr_add. simpl.
  rewrite !length_app, !repeat_length. lia.
Qed.


(** ** The parallel region *)

Lemma extended_at_eq ext ef a w1 w1' w2 w2' j :
  offsets w1 j = offsets w2 j -> offsets w1' j = offsets w2' j ->
  extended_at ext ef a w1 w1' j -> extended_at ext ef a w2 w2' j.
Proof. unfold extended_at. intros -> ->. auto. Qed.

Lemma terminal_at_eq ext a w1 w2 j :
  offsets w1 j = offsets w2 j -> terminal_at ext a w1 j -> terminal_at ext a w2 j.
Proof. unfold terminal_at. intros ->. auto. Qed.

Lemma extended_not_terminal ext a w w' j :
  extended_at ext true a w w' j -> ~ terminal_at ext a w j.
Proof.
  unfold extended_at, terminal_at. intros He [Hn (o & Ho & Ht)].
  apply Z.eqb_neq in Hn. rewrite Hn in He. destruct He as [He1 He2].
  rewrite Ho in He1. injection He1 as ->. rewrite He2 in Ht by reflexivity.
  discriminate.
Qed.

(** What one worker does, in terms of its sub-range. *)
Lemma worker_spec ext ef a rng t w r w1 :
  worker ext ef a rng t w = Some (r, w1) ->
  lo w1 = lo w /\ hi w1 = hi w /\
  (forall j, ~ (fst (rng t) <= j <= snd (rng t)) -> offsets w1 j = offsets w j) /\
  (r = false ->
     k_alignment_end w1 = k_alignment_end w /\
     forall j, fst (rng t) <= j <= snd (rng t) -> extended_at ext ef a w w1 j) /\
  (r = true ->
     ef = true /\
     fst (rng t) <= k_alignment_end w1 <= snd (rng t) /\
     terminal_at ext a w (k_alignment_end w1)).
Proof.
  unfold worker, extend_range. destruct (rng t) as [t_lo t_hi]. simpl fst. simpl snd.
  intros H. pose proof (range_size_spec t_lo t_hi) as Hn.
  pose proof (extend_for_frame _ _ _ _ _ _ _ _ H) as (H1 & H2 & H3 & H4).
  split; [exact H1|]. split; [exact H2|]. split; [|split].
  - intros j Hj. apply H3. lia.
  - intros ->. split; [auto|]. intros j Hj.
    apply (extend_for_false _ _ _ _ _ _ _ H). lia.
  - intros ->. destruct (extend_for_true _ _ _ _ _ _ _ H)
      as (He & j & Hj & Ht & _ & Hk & _).
    rewrite Hk. split; [exact He|]. split; [lia|exact Ht].
Qed.

(** What the team does, when the sub-ranges of its workers do not
    overlap. *)
Lemma omp_parallel_workers ext ef a rng : forall schedule b0 w b w',
  NoDup schedule ->
  (forall t1 t2 j, In t1 schedule -> In t2 schedule ->
     fst (rng t1) <= j <= snd (rng t1) -> fst (rng t2) <= j <= snd (rng t2) ->
     t1 = t2) ->
  omp_parallel (worker ext ef a rng) schedule b0 w = Some (b, w') ->
  lo w' = lo w /\ hi w' = hi w /\
  (forall j, (forall t, In t schedule -> ~ (fst (rng t) <= j <= snd (rng t))) ->
             offsets w' j = offsets w j) /\
  (b = false ->
     b0 = false /\ k_alignment_end w' = k_alignment_end w /\
     forall t j, In t schedule -> fst (rng t) <= j <= snd (rng t) ->
                 extended_at ext ef a w w' j) /\
  (b = true ->
     (b0 = true /\ k_alignment_end w' = k_alignment_end w) \/
     (ef = true /\
      exists t, In t schedule /\
        fst (rng t) <= k_alignment_end w' <= snd (rng t) /\
        terminal_at ext a w (k_alignment_end w'))).
Proof.
  induction schedule as [|t rest IH]; intros b0 w b w' Hnd Hdis; simpl omp_parallel.
  - intros [= <- <-]. split; [reflexivity|]. split; [reflexivity|].
    split; [reflexivity|]. split.
    + intros ->. split; [reflexivity|]. split; [reflexivity|].
      intros t j [].
    + intros ->. left. auto.
  - destruct (worker ext ef a rng t w) as [[r w1]|] eqn:Ew; simpl bind;
      [|discriminate].
    intros H.
    destruct (worker_spec _ _ _ _ _ _ _ _ Ew) as (W1 & W2 & W3 & W4 & W5).
    inversion Hnd as [|? ? Hnotin Hnd']; subst.
    apply IH in H; [|exact Hnd'|].
    2:{ intros t1 t2 j H1 H2. apply Hdis; right; assumption. }
    destruct H as (I1 & I2 & I3 & I4 & I5).
    assert (Hout : forall t' j, In t' rest ->
              fst (rng t') <= j <= snd (rng t') ->
              ~ (fst (rng t) <= j <= snd (rng t))).
    { intros t' j Hin Hj Hjt. apply Hnotin.
      rewrite (Hdis t t' j); auto; [left; reflexivity|right; exact Hin]. }
    split; [congruence|]. split; [congruence|]. split; [|split].
    + intros j Hj. rewrite I3.
      * apply W3. apply Hj. left. reflexivity.
      * intros t' Hin. apply Hj. right. exact Hin.
    + intros ->. destruct (I4 eq_refl) as (Hb & Hk & Hx).
      destruct r; [discriminate|]. destruct (W4 eq_refl) as [Wk Wx].
      split; [exact Hb|]. split; [congruence|].
      intros t' j [<-|Hin] Hj.
      * apply (extended_at_eq ext ef a w w1 w w' j); [reflexivity| |apply Wx; exact Hj].
        symmetry. apply I3. intros t2 Hin2 Hj2. apply (Hout t2 j Hin2 Hj2). exact Hj.
      * apply (extended_at_eq ext ef a w1 w' w w' j); [|reflexivity|].
        -- apply W3. apply (Hout t' j Hin Hj).
        -- apply (Hx t' j Hin Hj).
    + intros ->. destruct (I5 eq_refl) as [[Hb Hk]|(He & t' & Hin & Hj & Ht)].
      * destruct r.
        -- destruct (W5 eq_refl) as (He & Hj & Ht). right.
           split; [exact He|]. exists t. rewrite Hk.
           split; [left; reflexivity|]. split; [exact Hj|exact Ht].
        -- left. destruct (W4 eq_refl) as [Wk _]. split; [exact Hb|congruence].
      * right. split; [exact He|]. exists t'. split; [right; exact Hin|].
        split; [exact Hj|].
        apply (terminal_at_eq ext a w1 w); [|exact Ht].
        apply W3. apply (Hout t' _ Hin Hj).
Qed.

(** The team gives a result when [ext] does on the diagonals of every
    worker. *)
Lemma omp_parallel_defined ext ef a rng : forall schedule b0 w,
  NoDup schedule ->
  (forall t1 t2 j, In t1 schedule -> In t2 schedule ->
     fst (rng t1) <= j <= snd (rng t1) -> fst (rng t2) <= j <= snd (rng t2) ->
     t1 = t2) ->
  (forall t, In t schedule -> defined_on ext w (fst (rng t)) (snd (rng t))) ->
  exists r, omp_parallel (worker ext ef a rng) schedule b0 w = Some r.
Proof.
  induction schedule as [|t rest IH]; intros b0 w Hnd Hdis Hdef; simpl omp_parallel.
  - eauto.
  - assert (Hsome : exists r, worker ext ef a rng t w = Some r).
    { unfold worker, extend_range.
      pose proof (Hdef t (or_introl eq_refl)) as Hd.
      destruct (rng t) as [t_lo t_hi]. simpl in Hd.
      apply extend_for_defined. intros j Hj. apply Hd.
      pose proof (range_size_spec t_lo t_hi). lia. }
    destruct Hsome as [[r w1] Ew]. rewrite Ew. simpl bind.
    destruct (worker_spec _ _ _ _ _ _ _ _ Ew) as (W1 & W2 & W3 & W4 & W5).
    inversion Hnd as [|? ? Hnotin Hnd']; subst.
    apply IH; [exact Hnd'| |].
    + intros t1 t2 j H1 H2. apply Hdis; right; assumption.
    + intros t' Hin j Hj Hn.
      assert (Hjt : ~ (fst (rng t) <= j <= snd (rng t))).
      { intros Hjt. apply Hnotin.
        rewrite (Hdis t t' j); auto; [left; reflexivity|right; exact Hin]. }
      rewrite (W3 j Hjt) in *. apply (Hdef t' (or_intror Hin) j Hj Hn).
Qed.

(** ** The dispatcher *)

Lemma thread_nums_in n t : In t (thread_nums n) <-> 0 <= t < n.
Proof.
  unfold thread_nums. rewrite in_map_iff. split.
  - intros (i & <- & Hi). apply in_seq in Hi. lia.
  - intros Ht. exists (Z.to_nat t). split; [lia|]. apply in_seq. lia.
Qed.

Lemma thread_nums_nodup n : NoDup (thread_nums n).
Proof.
  unfold thread_nums. apply Finite.Injective_map_NoDup; [|apply seq_NoDup].
  intros x y H. lia.
Qed.

Lemma dispatch_spec ext ef a w b w' :
  covers a w ->
  dispatch ext ef a w = Some (b, w') ->
  lo w' = lo w /\ hi w' = hi w /\
  (forall j, j < lo w \/ hi w < j -> offsets w' j = offsets w j) /\
  (b = false ->
     k_alignment_end w' = k_alignment_end w /\
     forall j, lo w <= j <= hi w -> extended_at ext ef a w w' j) /\
  (b = true ->
     ef = true /\ lo w <= k_alignment_end w' <= hi w /\
     terminal_at ext a w (k_alignment_end w')).
Proof.
  unfold covers, dispatch. cbv zeta.
  set (n := wavefront_compute_num_threads a (lo w) (hi w)).
  intros [Hone|(Hpar & (P1 & P2 & P3) & Hperm)].
  - rewrite Hone. simpl (1 =? 1).
    change (extend_range ext ef a w (lo w) (hi w))
      with (worker ext ef a (fun _ => (lo w, hi w)) 0 w).
    intros H. destruct (worker_spec _ _ _ _ _ _ _ _ H) as (W1 & W2 & W3 & W4 & W5).
    simpl fst in *. simpl snd in *.
    split; [exact W1|]. split; [exact W2|]. split; [|split; assumption].
    intros j Hj. apply W3. lia.
  - destruct (n =? 1) eqn:En.
    { apply Z.eqb_eq in En.
      change (extend_range ext ef a w (lo w) (hi w))
        with (worker ext ef a (fun _ => (lo w, hi w)) 0 w).
      intros H. destruct (worker_spec _ _ _ _ _ _ _ _ H) as (W1 & W2 & W3 & W4 & W5).
      simpl fst in *. simpl snd in *.
      split; [exact W1|]. split; [exact W2|]. split; [|split; assumption].
      intros j Hj. apply W3. lia. }
    rewrite Hpar.
    intros H.
    change (omp_parallel
              (worker ext ef a
                 (fun t => wavefront_compute_thread_limits t n (lo w) (hi w)))
              (omp_schedule n) false w = Some (b, w')) in H.
    assert (Hin : forall t, In t (omp_schedule n) <-> 0 <= t < n).
    { intros t. rewrite <- thread_nums_in. split; apply Permutation_in;
        [exact Hperm|apply Permutation_sym; exact Hperm]. }
    apply omp_parallel_workers in H.
    + destruct H as (H1 & H2 & H3 & H4 & H5).
      split; [exact H1|]. split; [exact H2|]. split; [|split].
      * intros j Hj. apply H3. intros t Ht Hjt. apply Hin in Ht.
        pose proof (P1 t j Ht Hjt). lia.
      * intros ->. destruct (H4 eq_refl) as (_ & Hk & Hx). split; [exact Hk|].
        intros j Hj. destruct (P2 j Hj) as (t & Ht & Hjt).
        apply (Hx t j); [apply Hin; exact Ht|exact Hjt].
      * intros ->. destruct (H5 eq_refl) as [[Hb _]|(He & t & Ht & Hj & Hterm)];
          [discriminate|].
        split; [exact He|]. split; [|exact Hterm].
        apply (P1 t); [apply Hin; exact Ht|exact Hj].
    + apply (Permutation_NoDup (Permutation_sym Hperm)). apply thread_nums_nodup.
    + intros t1 t2 j Ht1 Ht2. apply P3; apply Hin; assumption.
Qed.

Lemma dispatch_defined ext ef a w :
  covers a w ->
  defined_on ext w (lo w) (hi w) ->
  exists r, dispatch ext ef a w = Some r.
Proof.
  unfold covers, dispatch. cbv zeta.
  set (n := wavefront_compute_num_threads a (lo w) (hi w)).
  intros Hc Hd.
  assert (Hone : exists r, extend_range ext ef a w (lo w) (hi w) = Some r).
  { unfold extend_range. apply extend_for_defined. intros j Hj. apply Hd.
    pose proof (range_size_spec (lo w) (hi w)). lia. }
  destruct (n =? 1) eqn:En; [exact Hone|].
  destruct Hc as [Hc|(Hpar & (P1 & P2 & P3) & Hperm)];
    [apply Z.eqb_neq in En; contradiction|].
  rewrite Hpar.
  change (exists r, omp_parallel
            (worker ext ef a
               (fun t => wavefront_compute_thread_limits t n (lo w) (hi w)))
            (omp_schedule n) false w = Some r).
  assert (Hin : forall t, In t (omp_schedule n) <-> 0 <= t < n).
  { intros t. rewrite <- thread_nums_in. split; apply Permutation_in;
      [exact Hperm|apply Permutation_sym; exact Hperm]. }
  apply omp_parallel_defined.
  - apply (Permutation_NoDup (Permutation_sym Hperm)). apply thread_nums_nodup.
  - intros t1 t2 j Ht1 Ht2. apply P3; apply Hin; assumption.
  - intros t Ht j Hj. apply Hd. apply (P1 t); [apply Hin; exact Ht|exact Hj].
Qed.

(** A dispatcher that answers false leaves the wavefront with every
    diagonal of the range extended, whatever the number of workers. *)
Lemma dispatch_false_canonical ext ef a w w' :
  covers a w ->
  dispatch ext ef a w = Some (false, w') ->
  w' = {| lo := lo w; hi := hi w;
          offsets := extend_offsets ext w (lo w) (hi w);
          k_alignment_end := k_alignment_end w |}.
Proof.
  intros Hc H. destruct (dispatch_spec _ _ _ _ _ _ Hc H) as (H1 & H2 & H3 & H4 & _).
  destruct (H4 eq_refl) as [Hk Hx].
  destruct w' as [lo' hi' off' k']. simpl in *. subst lo' hi' k'. f_equal.
  apply functional_extensionality. intros j. unfold extend_offsets.
  destruct (Z.leb_spec (lo w) j); simpl andb; [|apply H3; lia].
  destruct (Z.leb_spec j (hi w)); simpl andb; [|apply H3; lia].
  assert (Hj : lo w <= j <= hi w) by lia.
  specialize (Hx j Hj). unfold extended_at in Hx. simpl in Hx.
  destruct (offsets w j =? WAVEFRONT_OFFSET_NULL); simpl negb; cbv iota;
    [exact Hx|].
  destruct Hx as [-> _]. reflexivity.
Qed.


(** ** When the kernels give a result *)

(** The loop of the packed kernel does not run out of rounds: it fails only
    on a block read outside a buffer. *)
Lemma packed_kernel_while_none : forall fuel pp tp cmp offset,
  0 <= pos pp ->
  Z.of_nat (length (buffer pp)) - pos pp < 8 * (Z.of_nat fuel + 1) ->
  packed_kernel_while fuel pp tp cmp offset = None ->
  exists n, 0 < n /\
    (load_uint64 (ptr_add pp (8 * n)) = None \/
     load_uint64 (ptr_add tp (8 * n)) = None).
Proof.
  induction fuel as [|fuel IH]; intros pp tp cmp offset Hpos Hlen;
    simpl packed_kernel_while; destruct (cmp =? 0); try discriminate.
  - intros _. exists 1. split; [lia|]. left. unfold load_uint64.
    replace (pos (ptr_add pp (8 * 1)) + 8
             <=? Z.of_nat (length (buffer (ptr_add pp (8 * 1)))))
      with false by (unfold ptr_add; cbn [pos buffer]; lia).
    rewrite andb_false_r. reflexivity.
  - destruct (load_uint64 (ptr_add pp 8)) as [p|] eqn:Ep; simpl bind.
    2:{ intros _. exists 1. split; [lia|]. left. exact Ep. }
    destruct (load_uint64 (ptr_add tp 8)) as [t|] eqn:Et; simpl bind.
    2:{ intros _. exists 1. split; [lia|]. right. exact Et. }
    intros H.
    apply IH in H; [|unfold ptr_add; cbn [pos buffer]; lia
                    |unfold ptr_add; cbn [pos buffer]; lia].
    destruct H as (n & Hn & Hload). exists (n + 1). split; [lia|].
    replace (ptr_add pp (8 * (n + 1))) with (ptr_add (ptr_add pp 8) (8 * n))
      by (unfold ptr_add; cbn [pos buffer]; f_equal; lia).
    replace (ptr_add tp (8 * (n + 1))) with (ptr_add (ptr_add tp 8) (8 * n))
      by (unfold ptr_add; cbn [pos buffer]; f_equal; lia).
    exact Hload.
Qed.

(** The packed kernel fails only when it reads a block outside the pattern
    or the text buffer. *)
Lemma packed_kernel_none a k offset :
  wavefront_extend_matches_packed_kernel a k offset = None ->
  exists n, 0 <= n /\
    (load_uint64 (ptr_add (ptr_add (pattern a) (WAVEFRONT_V k offset)) (8 * n)) = None \/
     load_uint64 (ptr_add (ptr_add (text a) (WAVEFRONT_H k offset)) (8 * n)) = None).
Proof.
  unfold wavefront_extend_matches_packed_kernel. cbv zeta.
  set (pp := ptr_add (pattern a) (WAVEFRONT_V k offset)).
  set (tp := ptr_add (text a) (WAVEFRONT_H k offset)).
  assert (H0 : forall q, load_uint64 (ptr_add q (8 * 0)) = load_uint64 q).
  { intros q. unfold load_uint64, ptr_add. simpl. rewrite Z.add_0_r. reflexivity. }
  destruct (load_uint64 pp) as [p|] eqn:Ep; simpl bind.
  2:{ intros _. exists 0. split; [lia|]. left. rewrite H0. exact Ep. }
  destruct (load_uint64 tp) as [t|] eqn:Et; simpl bind.
  2:{ intros _. exists 0. split; [lia|]. right. rewrite H0. exact Et. }
  destruct (packed_kernel_while _ pp tp (Z.lxor p t) offset) as [[cmp o]|] eqn:Ew;
    simpl bind; [discriminate|].
  intros _. apply packed_kernel_while_none in Ew.
  - destruct Ew as (n & Hn & Hload). exists n. split; [lia|exact Hload].
  - unfold load_uint64 in Ep. destruct (0 <=? pos pp) eqn:E; [lia|discriminate].
  - unfold load_uint64 in Ep. destruct (0 <=? pos pp) eqn:E; [|discriminate].
    apply Z.leb_le in E.
    change (buffer pp) with (buffer (pattern a)).
    lia.
Qed.

(** On a sentinel-padded pair the packed kernel gives a result on every
    diagonal whose position lies inside the sequences. *)
Lemma packed_kernel_defined_on a pattern_seq text_seq pd w k_lo k_hi :
  sentinel_padded a pattern_seq text_seq pd ->
  (forall j, k_lo <= j <= k_hi -> offsets w j <> WAVEFRONT_OFFSET_NULL ->
     0 <= WAVEFRONT_V j (offsets w j) <= pattern_length a /\
     0 <= WAVEFRONT_H j (offsets w j) <= text_length a) ->
  defined_on (wavefront_extend_matches_packed_kernel a) w k_lo k_hi.
Proof.
  intros Hpad Hpos j Hj Hn. destruct (Hpos j Hj Hn) as [Hv Hh].
  rewrite (packed_kernel_padded _ _ _ _ _ _ Hpad Hv Hh). discriminate.
Qed.

(** With enough fuel the custom kernel gives a result, for a match
    function that fails from the end of the text on. *)
Lemma custom_match_while_defined (m : Z -> Z -> bool) (bound : Z) :
  (forall v h, m v h = true -> h < bound) ->
  forall fuel v h offset, bound - h <= Z.of_nat fuel ->
  exists o, custom_match_while fuel m v h offset = Some o.
Proof.
  intros Hm. induction fuel as [|fuel IH]; intros v h offset Hf; simpl.
  - destruct (m v h) eqn:E; [apply Hm in E; lia|eauto].
  - destruct (m v h) eqn:E; [|eauto]. apply IH. lia.
Qed.

(** With a match function that fails from the end of the text on, and
    fuel for the rest of the text, the custom kernel gives a result. *)
Lemma custom_kernel_defined_on fuel a w k_lo k_hi :
  (forall v h, match_funct a v h = true -> h < text_length a) ->
  (forall j, k_lo <= j <= k_hi -> offsets w j <> WAVEFRONT_OFFSET_NULL ->
     text_length a - WAVEFRONT_H j (offsets w j) <= Z.of_nat fuel) ->
  defined_on (custom_kernel fuel a) w k_lo k_hi.
Proof.
  intros Hm Hf j Hj Hn. unfold custom_kernel.
  destruct (custom_match_while_defined (match_funct a) (text_length a) Hm fuel
              (WAVEFRONT_V j (offsets w j)) (WAVEFRONT_H j (offsets w j))
              (offsets w j) (Hf j Hj Hn)) as [o ->].
  discriminate.
Qed.

Lemma epilogue_records_terminal ext a w score b w' :
  (b = true -> lo w <= k_alignment_end w' <= hi w /\
               terminal_at ext a w (k_alignment_end w')) ->
  records_terminal ext a w score (epilogue a (modular_score a score) (b, w')).
Proof.
  intros Hb. unfold records_terminal, epilogue. simpl fst. simpl snd.
  destruct b.
  - intros _. exists (k_alignment_end w'). split; [|apply Hb; reflexivity].
    simpl. rewrite Z.eqb_refl. reflexivity.
  - destruct (negb _); [|discriminate].
    destruct (fst _); discriminate.
Qed.

(** ** The custom orchestrator *)

(** C5: in the custom orchestrator, when the alignment form is not
    ends-free, the custom driver runs no per-diagonal check (it answers
    false and does not write [k_alignment_end], on every range), every
    diagonal of the wavefront is extended, and the end-to-end check that
    runs afterwards on the extended wavefront decides: if it answers true
    the call answers true with status "successful", and otherwise the call
    goes on as a call that is not terminal. *)
Theorem custom_end2end_recheck (fuel : nat) (wf_aligner : wavefront_aligner_t)
    (score : Z) (mwavefront : wavefront_t) :
  mwavefronts (wf_components wf_aligner) (modular_score wf_aligner score)
    = Some mwavefront ->
  span (alignment_form wf_aligner) <> alignment_endsfree ->
  covers wf_aligner mwavefront ->
  defined_on (custom_kernel fuel wf_aligner) mwavefront
    (lo mwavefront) (hi mwavefront) ->
  (forall w k_lo k_hi r,
     wavefront_extend_matches_custom fuel wf_aligner w
       (modular_score wf_aligner score) k_lo k_hi false = Some r ->
     fst r = false /\ k_alignment_end (snd r) = k_alignment_end w) /\
  (wavefront_compute_num_threads wf_aligner (lo mwavefront) (hi mwavefront) = 1 ->
   dispatch (custom_kernel fuel wf_aligner) false wf_aligner mwavefront
   = wavefront_extend_matches_custom fuel wf_aligner mwavefront
       (modular_score wf_aligner score) (lo mwavefront) (hi mwavefront) false) /\
  exists extended,
    dispatch (custom_kernel fuel wf_aligner) false wf_aligner mwavefront
      = Some (false, extended) /\
    k_alignment_end extended = k_alignment_end mwavefront /\
    (forall j, lo mwavefront <= j <= hi mwavefront ->
       extended_at (custom_kernel fuel wf_aligner) false wf_aligner
         mwavefront extended j) /\
    (forall j, j < lo mwavefront \/ hi mwavefront < j ->
       offsets extended j = offsets mwavefront j) /\
    (fst (wavefront_extend_end2end_check_termination wf_aligner extended) = true ->
     wavefront_extend_custom fuel wf_aligner score
     = Some (true,
             set_status
               (store_mwavefront wf_aligner (modular_score wf_aligner score)
                  (snd (wavefront_extend_end2end_check_termination
                          wf_aligner extended)))
               WF_STATUS_SUCCESSFUL)) /\
    (fst (wavefront_extend_end2end_check_termination wf_aligner extended) = false ->
     not_terminal_outcome wf_aligner score mwavefront extended
       (wavefront_extend_custom fuel wf_aligner score)).
Proof.
  intros Hw Hspan Hc Hd.
  assert (Hef : alignment_span_eqb (span (alignment_form wf_aligner))
                  alignment_endsfree = false).
  { destruct (span (alignment_form wf_aligner)); [reflexivity|contradiction]. }
  split; [|split].
  - intros w k_lo k_hi r. unfold wavefront_extend_matches_custom.
    rewrite custom_for_eq. intros H. destruct r as [b w1].
    pose proof (extend_for_nocheck_false _ _ _ _ _ _ H) as Hb. simpl in Hb. subst b.
    split; [reflexivity|].
    apply extend_for_frame in H. apply H. reflexivity.
  - intros Hone. unfold dispatch, wavefront_extend_matches_custom, extend_range.
    cbv zeta. rewrite Hone. simpl (1 =? 1). symmetry. apply custom_for_eq.
  - destruct (dispatch_defined (custom_kernel fuel wf_aligner) false _ _ Hc Hd)
      as [[b w1] Hdis].
    pose proof (dispatch_nocheck_false _ _ _ _ Hdis) as Hb. simpl in Hb. subst b.
    destruct (dispatch_spec _ _ _ _ _ _ Hc Hdis) as (H1 & H2 & H3 & H4 & _).
    destruct (H4 eq_refl) as [Hk Hx].
    exists w1. split; [exact Hdis|]. split; [exact Hk|]. split; [exact Hx|].
    split; [exact H3|].
    rewrite wavefront_extend_custom_eq.
    assert (Hphase : custom_phase fuel wf_aligner mwavefront
                     = Some (wavefront_extend_end2end_check_termination
                               wf_aligner w1)).
    { unfold custom_phase. cbv zeta. rewrite Hef, Hdis. reflexivity. }
    split.
    + intros Ht. unfold orchestrate. cbv zeta. rewrite Hw, Hphase. simpl bind.
      unfold epilogue. rewrite Ht. reflexivity.
    + intros Hf. apply orchestrate_not_terminal; [exact Hw| |exact Hk].
      rewrite Hphase. f_equal.
      destruct (wavefront_extend_end2end_check_termination wf_aligner w1)
        as [b w2] eqn:Echk.
      simpl in Hf. subst b. apply end2end_check_false in Echk. subst w2.
      reflexivity.
Qed.

(** * Further properties of the kernels *)

Lemma skipn_nth_error_cons (l : list byte) (n : nat) (x : byte) :
  nth_error l n = Some x -> skipn n l = x :: skipn (S n) l.
Proof.
  revert n. induction l as [|y l IH]; intros [|n] H; simpl in *;
    try discriminate.
  - injection H as ->. reflexivity.
  - apply IH. exact H.
Qed.

Lemma skipn_nth_error_nil (l : list byte) (n : nat) :
  nth_error l n = None -> skipn n l = [].
Proof. intros H. apply skipn_all2. apply nth_error_None. exact H. Qed.

(** Where the naive comparison stops, it stops again. *)
Lemma equal_symbols_stop (p t : list byte) :
  equal_symbols (skipn (equal_symbols p t) p) (skipn (equal_symbols p t) t) = 0%nat.
Proof.
  revert t. induction p as [|c p IH]; intros t; [reflexivity|].
  destruct t as [|d t]; [reflexivity|].
  change (equal_symbols (c :: p) (d :: t))
    with (if Byte.eqb c d then S (equal_symbols p t) else 0%nat).
  destruct (Byte.eqb c d) eqn:E.
  - simpl skipn. apply IH.
  - simpl. rewrite E. reflexivity.
Qed.

Lemma equal_symbols_refl (s : list byte) : equal_symbols s s = length s.
Proof.
  induction s as [|c s IH]; [reflexivity|]. simpl.
  rewrite (Byte.byte_dec_lb (eq_refl c)). rewrite IH. reflexivity.
Qed.

Lemma naive_extend_bounds (pattern_seq text_seq : list byte) k offset :
  0 <= WAVEFRONT_V k offset <= Z.of_nat (length pattern_seq) ->
  0 <= WAVEFRONT_H k offset <= Z.of_nat (length text_seq) ->
  offset <= naive_extend pattern_seq text_seq k offset /\
  WAVEFRONT_V k (naive_extend pattern_seq text_seq k offset)
    <= Z.of_nat (length pattern_seq) /\
  WAVEFRONT_H k (naive_extend pattern_seq text_seq k offset)
    <= Z.of_nat (length text_seq).
Proof.
  intros Hv Hh. unfold naive_extend. cbv zeta.
  destruct (equal_symbols_le (skipn (Z.to_nat (WAVEFRONT_V k offset)) pattern_seq)
              (skipn (Z.to_nat (WAVEFRONT_H k offset)) text_seq)) as [H1 H2].
  rewrite length_skipn in H1, H2. unfold WAVEFRONT_V, WAVEFRONT_H in *. lia.
Qed.

Lemma naive_extend_idempotent (pattern_seq text_seq : list byte) k offset :
  0 <= WAVEFRONT_V k offset -> 0 <= WAVEFRONT_H k offset ->
  naive_extend pattern_seq text_seq k (naive_extend pattern_seq text_seq k offset)
  = naive_extend pattern_seq text_seq k offset.
Proof.
  intros Hv Hh. unfold naive_extend at 1. cbv zeta.
  set (o := naive_extend pattern_seq text_seq k offset).
  assert (Ho : o = offset + Z.of_nat
            (equal_symbols (skipn (Z.to_nat (WAVEFRONT_V k offset)) pattern_seq)
                           (skipn (Z.to_nat (WAVEFRONT_H k offset)) text_seq)))
    by reflexivity.
  set (n := equal_symbols _ _) in Ho.
  replace (Z.to_nat (WAVEFRONT_V k o))
    with (n + Z.to_nat (WAVEFRONT_V k offset))%nat
    by (unfold WAVEFRONT_V in *; lia).
  replace (Z.to_nat (WAVEFRONT_H k o))
    with (n + Z.to_nat (WAVEFRONT_H k offset))%nat
    by (unfold WAVEFRONT_H in *; lia).
  rewrite <- !skipn_skipn. unfold n. rewrite equal_symbols_stop. lia.
Qed.

(** X1: on a sentinel-padded pair, from a position inside the sequences, the
    packed kernel gives an offset that is not smaller and whose position
    is still inside the sequences: no offset gets out of boundaries. *)
Theorem packed_kernel_keeps_bounds (wf_aligner : wavefront_aligner_t)
    (pattern_seq text_seq : list byte) (pd : padding_t)
    (k : Z) (offset : wf_offset_t) :
  sentinel_padded wf_aligner pattern_seq text_seq pd ->
  0 <= WAVEFRONT_V k offset <= pattern_length wf_aligner ->
  0 <= WAVEFRONT_H k offset <= text_length wf_aligner ->
  exists offset',
    wavefront_extend_matches_packed_kernel wf_aligner k offset = Some offset' /\
    offset <= offset' /\
    0 <= WAVEFRONT_V k offset' <= pattern_length wf_aligner /\
    0 <= WAVEFRONT_H k offset' <= text_length wf_aligner /\
    WAVEFRONT_DIAGONAL (WAVEFRONT_H k offset') (WAVEFRONT_V k offset') = k.
Proof.
  intros Hpad Hv Hh.
  exists (naive_extend pattern_seq text_seq k offset).
  split; [apply (packed_kernel_padded _ _ _ _ _ _ Hpad Hv Hh)|].
  destruct Hpad as (_ & _ & Hpl & Htl & _).
  rewrite Hpl, Htl in *.
  destruct (naive_extend_bounds pattern_seq text_seq k offset Hv Hh)
    as (H1 & H2 & H3).
  unfold WAVEFRONT_V, WAVEFRONT_H, WAVEFRONT_DIAGONAL in *.
  repeat split; lia.
Qed.

Lemma packed_kernel_padded_again a pattern_seq text_seq pd k offset :
  sentinel_padded a pattern_seq text_seq pd ->
  0 <= WAVEFRONT_V k offset <= pattern_length a ->
  0 <= WAVEFRONT_H k offset <= text_length a ->
  wavefront_extend_matches_packed_kernel a k (naive_extend pattern_seq text_seq k offset)
  = Some (naive_extend pattern_seq text_seq k offset).
Proof.
  intros Hpad Hv Hh.
  pose proof Hpad as (_ & _ & Hpl & Htl & _).
  rewrite Hpl, Htl in *.
  destruct (naive_extend_bounds pattern_seq text_seq k offset Hv Hh)
    as (H1 & H2 & H3).
  rewrite (packed_kernel_padded _ _ _ _ _ _ Hpad).
  - f_equal. apply naive_extend_idempotent; lia.
  - rewrite Hpl. unfold WAVEFRONT_V in *. lia.
  - rewrite Htl. unfold WAVEFRONT_H in *. lia.
Qed.

(** X2: on a sentinel-padded pair the packed kernel is idempotent: an
    offset it returned is returned as it is when extended again. *)
Theorem packed_kernel_idempotent (wf_aligner : wavefront_aligner_t)
    (pattern_seq text_seq : list byte) (pd : padding_t)
    (k : Z) (offset : wf_offset_t) :
  sentinel_padded wf_aligner pattern_seq text_seq pd ->
  0 <= WAVEFRONT_V k offset <= pattern_length wf_aligner ->
  0 <= WAVEFRONT_H k offset <= text_length wf_aligner ->
  exists offset',
    wavefront_extend_matches_packed_kernel wf_aligner k offset = Some offset' /\
    wavefront_extend_matches_packed_kernel wf_aligner k offset' = Some offset'.
Proof.
  intros Hpad Hv Hh.
  exists (naive_extend pattern_seq text_seq k offset).
  split; [apply (packed_kernel_padded _ _ _ _ _ _ Hpad Hv Hh)|].
  apply (packed_kernel_padded_again _ _ _ _ _ _ Hpad Hv Hh).
Qed.

Lemma ctz_nonneg x : 0 <= DIV_FLOOR (__builtin_ctzl x) 8.
Proof.
  unfold DIV_FLOOR, __builtin_ctzl.
  destruct (ctz_from_spec 64 0 x) as (H & _). apply Z.div_pos; lia.
Qed.

Lemma packed_kernel_while_monotone : forall fuel pp tp cmp offset cmp' offset',
  packed_kernel_while fuel pp tp cmp offset = Some (cmp', offset') ->
  offset <= offset'.
Proof.
  induction fuel as [|fuel IH]; intros pp tp cmp offset cmp' offset';
    simpl packed_kernel_while; destruct (cmp =? 0); try discriminate;
    try (intros [= <- <-]; lia).
  destruct (load_uint64 (ptr_add pp 8)); simpl bind; [|discriminate].
  destruct (load_uint64 (ptr_add tp 8)); simpl bind; [|discriminate].
  intros H. apply IH in H. lia.
Qed.

Lemma packed_kernel_monotone a k offset offset' :
  wavefront_extend_matches_packed_kernel a k offset = Some offset' ->
  offset <= offset'.
Proof.
  unfold wavefront_extend_matches_packed_kernel. cbv zeta.
  destruct (load_uint64 _); simpl bind; [|discriminate].
  destruct (load_uint64 _); simpl bind; [|discriminate].
  destruct (packed_kernel_while _ _ _ _ _) as [[cmp o]|] eqn:E; simpl bind;
    [|discriminate].
  intros [= <-]. apply packed_kernel_while_monotone in E.
  pose proof (ctz_nonneg cmp). lia.
Qed.

(** The custom loop stops at the first position where the match function
    fails. *)
Lemma custom_match_while_spec (m : Z -> Z -> bool) : forall fuel v h offset o,
  custom_match_while fuel m v h offset = Some o ->
  exists n : nat,
    o = offset + Z.of_nat n /\
    (forall i, 0 <= i < Z.of_nat n -> m (v + i) (h + i) = true) /\
    m (v + Z.of_nat n) (h + Z.of_nat n) = false.
Proof.
  induction fuel as [|fuel IH]; intros v h offset o; simpl;
    destruct (m v h) eqn:E; try discriminate.
  - intros [= <-]. exists 0%nat. rewrite !Z.add_0_r.
    split; [reflexivity|]. split; [intros i Hi; lia|exact E].
  - intros H. apply IH in H. destruct H as (n & -> & Hm & Hf).
    exists (S n). split; [lia|]. split.
    + intros i Hi. destruct (Z.eq_dec i 0) as [->|Hne].
      * rewrite !Z.add_0_r. exact E.
      * replace (v + i) with (v + 1 + (i - 1)) by lia.
        replace (h + i) with (h + 1 + (i - 1)) by lia. apply Hm. lia.
    + replace (v + Z.of_nat (S n)) with (v + 1 + Z.of_nat n) by lia.
      replace (h + Z.of_nat (S n)) with (h + 1 + Z.of_nat n) by lia. exact Hf.
  - intros [= <-]. exists 0%nat. rewrite !Z.add_0_r.
    split; [reflexivity|]. split; [intros i Hi; lia|exact E].
Qed.

(** With the equality of symbols as match function, the custom loop is the
    naive comparison. *)
Lemma custom_match_while_symbols (pattern_seq text_seq : list byte) :
  forall (n : nat) (fuel : nat) (v h : nat) (offset : wf_offset_t),
  equal_symbols (skipn v pattern_seq) (skipn h text_seq) = n ->
  (n <= fuel)%nat ->
  custom_match_while fuel (example_match pattern_seq text_seq)
    (Z.of_nat v) (Z.of_nat h) offset = Some (offset + Z.of_nat n).
Proof.
  induction n as [|n IH]; intros fuel v h offset Hn Hf.
  - assert (Hm : example_match pattern_seq text_seq (Z.of_nat v) (Z.of_nat h) = false).
    { unfold example_match. rewrite !Nat2Z.id.
      rewrite (proj2 (Z.leb_le 0 (Z.of_nat v))) by lia.
      rewrite (proj2 (Z.leb_le 0 (Z.of_nat h))) by lia. simpl andb.
      destruct (nth_error pattern_seq v) as [c|] eqn:Ec; [|reflexivity].
      destruct (nth_error text_seq h) as [d|] eqn:Ed; [|reflexivity].
      rewrite (skipn_nth_error_cons _ _ _ Ec), (skipn_nth_error_cons _ _ _ Ed) in Hn.
      simpl in Hn. destruct (Byte.eqb c d); [discriminate|reflexivity]. }
    rewrite Z.add_0_r. destruct fuel; simpl; rewrite Hm; reflexivity.
  - destruct fuel as [|fuel]; [lia|].
    destruct (nth_error pattern_seq v) as [c|] eqn:Ec.
    2:{ rewrite (skipn_nth_error_nil _ _ Ec) in Hn. discriminate. }
    destruct (nth_error text_seq h) as [d|] eqn:Ed.
    2:{ rewrite (skipn_nth_error_nil _ _ Ed) in Hn.
        rewrite equal_symbols_nil_r in Hn. discriminate. }
    rewrite (skipn_nth_error_cons _ _ _ Ec), (skipn_nth_error_cons _ _ _ Ed) in Hn.
    simpl in Hn. destruct (Byte.eqb c d) eqn:Ecd; [|discriminate].
    injection Hn as Hn.
    assert (Hm : example_match pattern_seq text_seq (Z.of_nat v) (Z.of_nat h) = true).
    { unfold example_match. rewrite !Nat2Z.id, Ec, Ed, Ecd.
      rewrite (proj2 (Z.leb_le 0 (Z.of_nat v))) by lia.
      rewrite (proj2 (Z.leb_le 0 (Z.of_nat h))) by lia. reflexivity. }
    simpl custom_match_while. rewrite Hm.
    replace (Z.of_nat v + 1) with (Z.of_nat (S v)) by lia.
    replace (Z.of_nat h + 1) with (Z.of_nat (S h)) by lia.
    rewrite (IH fuel (S v) (S h) (offset + 1) Hn) by lia.
    f_equal. lia.
Qed.

Lemma custom_kernel_padded fuel a pattern_seq text_seq pd k offset :
  sentinel_padded a pattern_seq text_seq pd ->
  (forall v h, match_funct a v h = example_match pattern_seq text_seq v h) ->
  0 <= WAVEFRONT_V k offset <= pattern_length a ->
  0 <= WAVEFRONT_H k offset <= text_length a ->
  text_length a - WAVEFRONT_H k offset <= Z.of_nat fuel ->
  custom_kernel fuel a k offset = Some (naive_extend pattern_seq text_seq k offset).
Proof.
  intros Hpad Hm Hv Hh Hf.
  unfold custom_kernel, naive_extend. cbv zeta.
  replace (match_funct a) with (example_match pattern_seq text_seq)
    by (apply functional_extensionality; intros v;
        apply functional_extensionality; intros h; symmetry; apply Hm).
  rewrite <- (Z2Nat.id (WAVEFRONT_V k offset)) at 1 by lia.
  rewrite <- (Z2Nat.id (WAVEFRONT_H k offset)) at 1 by lia.
  apply custom_match_while_symbols; [reflexivity|].
  destruct Hpad as (_ & _ & _ & Htl & _).
  destruct (equal_symbols_le
              (skipn (Z.to_nat (WAVEFRONT_V k offset)) pattern_seq)
              (skipn (Z.to_nat (WAVEFRONT_H k offset)) text_seq)) as [_ H2].
  rewrite length_skipn in H2. lia.
Qed.

(** X3: with the equality of the symbols inside the sequences as match
    function, and fuel for the rest of the text, the custom kernel gives on
    a sentinel-padded pair the offset the packed kernel gives. *)
Theorem custom_kernel_agrees_with_packed (fuel : nat)
    (wf_aligner : wavefront_aligner_t)
    (pattern_seq text_seq : list byte) (pd : padding_t)
    (k : Z) (offset : wf_offset_t) :
  sentinel_padded wf_aligner pattern_seq text_seq pd ->
  (forall v h, match_funct wf_aligner v h = example_match pattern_seq text_seq v h) ->
  0 <= WAVEFRONT_V k offset <= pattern_length wf_aligner ->
  0 <= WAVEFRONT_H k offset <= text_length wf_aligner ->
  text_length wf_aligner - WAVEFRONT_H k offset <= Z.of_nat fuel ->
  custom_kernel fuel wf_aligner k offset
  = wavefront_extend_matches_packed_kernel wf_aligner k offset /\
  custom_kernel fuel wf_aligner k offset
  = Some (naive_extend pattern_seq text_seq k offset).
Proof.
  intros Hpad Hm Hv Hh Hf.
  rewrite (packed_kernel_padded _ _ _ _ _ _ Hpad Hv Hh).
  pose proof (custom_kernel_padded fuel _ _ _ _ _ _ Hpad Hm Hv Hh Hf) as Hc.
  split; [exact Hc|exact Hc].
Qed.

Lemma ptr_add_add p a b : ptr_add (ptr_add p a) b = ptr_add p (a + b).
Proof. unfold ptr_add. simpl. f_equal. lia. Qed.

Lemma ptr_add_next p (m : nat) :
  ptr_add (ptr_add p (8 * Z.of_nat m)) 8 = ptr_add p (8 * Z.of_nat (S m)).
Proof. rewrite ptr_add_add. f_equal. lia. Qed.

(** A run of the loop that gives a result, from block [m] on: it went over
    the blocks up to [q], which were all equal, and stopped on block [q]. *)
Lemma packed_kernel_while_trace pp tp : forall fuel (m : nat) cmp offset cmp' offset',
  packed_kernel_while fuel (ptr_add pp (8 * Z.of_nat m)) (ptr_add tp (8 * Z.of_nat m))
    cmp offset = Some (cmp', offset') ->
  exists q : nat,
    (m <= q)%nat /\ offset' = offset + 8 * (Z.of_nat q - Z.of_nat m) /\ cmp' <> 0 /\
    (q = m -> cmp' = cmp) /\
    ((m < q)%nat ->
     cmp = 0 /\
     (forall i : nat, (m < i < q)%nat ->
        exists p t, load_uint64 (ptr_add pp (8 * Z.of_nat i)) = Some p /\
                    load_uint64 (ptr_add tp (8 * Z.of_nat i)) = Some t /\
                    Z.lxor p t = 0) /\
     exists p t, load_uint64 (ptr_add pp (8 * Z.of_nat q)) = Some p /\
                 load_uint64 (ptr_add tp (8 * Z.of_nat q)) = Some t /\
                 cmp' = Z.lxor p t).
Proof.
  assert (Hstop : forall fuel (m : nat) cmp offset cmp' offset',
            cmp <> 0 ->
            packed_kernel_while fuel (ptr_add pp (8 * Z.of_nat m))
              (ptr_add tp (8 * Z.of_nat m)) cmp offset = Some (cmp', offset') ->
            exists q : nat,
              (m <= q)%nat /\ offset' = offset + 8 * (Z.of_nat q - Z.of_nat m) /\
              cmp' <> 0 /\ (q = m -> cmp' = cmp) /\
              ((m < q)%nat ->
               cmp = 0 /\
               (forall i : nat, (m < i < q)%nat ->
                  exists p t, load_uint64 (ptr_add pp (8 * Z.of_nat i)) = Some p /\
                              load_uint64 (ptr_add tp (8 * Z.of_nat i)) = Some t /\
                              Z.lxor p t = 0) /\
               exists p t, load_uint64 (ptr_add pp (8 * Z.of_nat q)) = Some p /\
                           load_uint64 (ptr_add tp (8 * Z.of_nat q)) = Some t /\
                           cmp' = Z.lxor p t)).
  { intros fuel m cmp offset cmp' offset' Hnz.
    rewrite packed_kernel_while_nonzero by exact Hnz.
    intros [= <- <-]. exists m. split; [lia|]. split; [lia|]. split; [exact Hnz|].
    split; [reflexivity|]. intros H. lia. }
  induction fuel as [|fuel IH]; intros m cmp offset cmp' offset';
    destruct (Z.eq_dec cmp 0) as [Hz|Hnz]; try (apply Hstop; exact Hnz).
  - subst cmp. simpl packed_kernel_while. intros H; discriminate H.
  - subst cmp. rewrite packed_kernel_while_zero, !ptr_add_next.
    assert (Hz : 0 = 0) by reflexivity.
    destruct (load_uint64 (ptr_add pp (8 * Z.of_nat (S m)))) as [p1|] eqn:Ep;
      cbv beta iota delta [bind]; [|intros H; discriminate H].
    destruct (load_uint64 (ptr_add tp (8 * Z.of_nat (S m)))) as [t1|] eqn:Et;
      cbv beta iota delta [bind]; [|intros H; discriminate H].
    intros H. apply IH in H. destruct H as (q & Hq & Ho & Hnz & Hsame & Hmore).
    exists q. split; [lia|]. split; [lia|]. split; [exact Hnz|].
    split; [intros ->; lia|]. intros _. split; [exact Hz|].
    destruct (Nat.eq_dec q (S m)) as [->|Hne].
    + split; [intros i Hi; lia|]. exists p1, t1. rewrite (Hsame eq_refl). auto.
    + destruct Hmore as (Hc & Heq & Hlast); [lia|].
      split; [|exact Hlast]. intros i Hi.
      destruct (Nat.eq_dec i (S m)) as [->|Hi']; [exists p1, t1; auto|].
      apply Heq. lia.
Qed.

(** The converse: the loop goes over equal blocks and stops on the first
    block that differs, when it has rounds for them. *)
Lemma packed_kernel_while_run pp tp : forall fuel (m q : nat) cmp offset p t,
  (m <= q)%nat -> (q - m <= fuel)%nat ->
  load_uint64 (ptr_add pp (8 * Z.of_nat q)) = Some p ->
  load_uint64 (ptr_add tp (8 * Z.of_nat q)) = Some t ->
  Z.lxor p t <> 0 ->
  (q = m -> cmp = Z.lxor p t) ->
  ((m < q)%nat ->
   cmp = 0 /\
   forall i : nat, (m < i < q)%nat ->
     exists p t, load_uint64 (ptr_add pp (8 * Z.of_nat i)) = Some p /\
                 load_uint64 (ptr_add tp (8 * Z.of_nat i)) = Some t /\
                 Z.lxor p t = 0) ->
  packed_kernel_while fuel (ptr_add pp (8 * Z.of_nat m)) (ptr_add tp (8 * Z.of_nat m))
    cmp offset = Some (Z.lxor p t, offset + 8 * (Z.of_nat q - Z.of_nat m)).
Proof.
  induction fuel as [|fuel IH]; intros m q cmp offset p t Hmq Hf Hp Ht Hnz Hsame Hmore.
  - assert (q = m) by lia. subst q. rewrite (Hsame eq_refl).
    rewrite packed_kernel_while_nonzero by exact Hnz. f_equal. f_equal. lia.
  - destruct (Nat.eq_dec q m) as [->|Hne].
    + rewrite (Hsame eq_refl).
      rewrite packed_kernel_while_nonzero by exact Hnz. f_equal. f_equal. lia.
    + destruct Hmore as [-> Heq]; [lia|].
      rewrite packed_kernel_while_zero, !ptr_add_next.
      destruct (Nat.eq_dec q (S m)) as [->|Hne'].
      * rewrite Hp, Ht. cbv beta iota delta [bind].
        rewrite (IH (S m) (S m) (Z.lxor p t) (offset + 8) p t);
          [f_equal; f_equal; lia|lia|lia|exact Hp|exact Ht|exact Hnz
          |reflexivity|intros H; lia].
      * destruct (Heq (S m)) as (p1 & t1 & Hp1 & Ht1 & Hx); [lia|].
        rewrite Hp1, Ht1. cbv beta iota delta [bind]. rewrite Hx.
        rewrite (IH (S m) q 0 (offset + 8) p t);
          [f_equal; f_equal; lia|lia|lia|exact Hp|exact Ht|exact Hnz
          |intros ->; lia|].
        intros _. split; [reflexivity|]. intros i Hi. apply Heq. lia.
Qed.

(** A run of the loop that gives no result stopped on a read outside a
    buffer, after blocks that were all equal: the rounds do not run out. *)
Lemma packed_kernel_while_none_trace pp tp : forall fuel (m : nat) cmp offset,
  0 <= pos pp + 8 * Z.of_nat m ->
  Z.of_nat (length (buffer pp)) - (pos pp + 8 * Z.of_nat m) < 8 * (Z.of_nat fuel + 1) ->
  packed_kernel_while fuel (ptr_add pp (8 * Z.of_nat m)) (ptr_add tp (8 * Z.of_nat m))
    cmp offset = None ->
  cmp = 0 /\
  exists n : nat,
    (m < n)%nat /\
    (forall i : nat, (m < i < n)%nat ->
       exists p t, load_uint64 (ptr_add pp (8 * Z.of_nat i)) = Some p /\
                   load_uint64 (ptr_add tp (8 * Z.of_nat i)) = Some t /\
                   Z.lxor p t = 0) /\
    (load_uint64 (ptr_add pp (8 * Z.of_nat n)) = None \/
     load_uint64 (ptr_add tp (8 * Z.of_nat n)) = None).
Proof.
  induction fuel as [|fuel IH]; intros m cmp offset Hpos Hlen;
    (destruct (Z.eq_dec cmp 0) as [Hz|Hnz];
     [subst cmp; assert (Hz : 0 = 0) by reflexivity
     |rewrite packed_kernel_while_nonzero by exact Hnz; discriminate]).
  - intros _. split; [exact Hz|]. exists (S m). split; [lia|].
    split; [intros i Hi; lia|]. left. unfold load_uint64, ptr_add. cbn [pos buffer].
    destruct (Z.leb_spec (pos pp + 8 * Z.of_nat (S m) + 8) (Z.of_nat (length (buffer pp))));
      [lia|]. rewrite andb_false_r. reflexivity.
  - rewrite packed_kernel_while_zero, !ptr_add_next.
    destruct (load_uint64 (ptr_add pp (8 * Z.of_nat (S m)))) as [p1|] eqn:Ep;
      cbv beta iota delta [bind].
    2:{ intros _. split; [exact Hz|]. exists (S m). split; [lia|].
        split; [intros i Hi; lia|]. left. exact Ep. }
    destruct (load_uint64 (ptr_add tp (8 * Z.of_nat (S m)))) as [t1|] eqn:Et;
      cbv beta iota delta [bind].
    2:{ intros _. split; [exact Hz|]. exists (S m). split; [lia|].
        split; [intros i Hi; lia|]. right. exact Et. }
    intros H. apply IH in H; [| lia | lia].
    destruct H as (Hx & n & Hn & Heq & Hfail).
    split; [exact Hz|]. exists n. split; [lia|]. split; [|exact Hfail].
    intros i Hi. destruct (Nat.eq_dec i (S m)) as [->|Hi']; [exists p1, t1; auto|].
    apply Heq. lia.
Qed.

(** The converse: equal blocks up to a read outside a buffer give no
    result, whatever the rounds. *)
Lemma packed_kernel_while_fail pp tp : forall fuel (m n : nat) offset,
  (m < n)%nat ->
  (forall i : nat, (m < i < n)%nat ->
     exists p t, load_uint64 (ptr_add pp (8 * Z.of_nat i)) = Some p /\
                 load_uint64 (ptr_add tp (8 * Z.of_nat i)) = Some t /\
                 Z.lxor p t = 0) ->
  (load_uint64 (ptr_add pp (8 * Z.of_nat n)) = None \/
   load_uint64 (ptr_add tp (8 * Z.of_nat n)) = None) ->
  packed_kernel_while fuel (ptr_add pp (8 * Z.of_nat m)) (ptr_add tp (8 * Z.of_nat m))
    0 offset = None.
Proof.
  induction fuel as [|fuel IH]; intros m n offset Hmn Heq Hfail; [reflexivity|].
  rewrite packed_kernel_while_zero, !ptr_add_next.
  destruct (Nat.eq_dec n (S m)) as [->|Hne].
  - destruct Hfail as [-> | Ht]; [reflexivity|].
    destruct (load_uint64 (ptr_add pp _)); cbv beta iota delta [bind]; [|reflexivity].
    rewrite Ht. reflexivity.
  - destruct (Heq (S m)) as (p1 & t1 & Hp1 & Ht1 & Hx); [lia|].
    rewrite Hp1, Ht1. cbv beta iota delta [bind]. rewrite Hx.
    apply (IH (S m) n); [lia| |exact Hfail]. intros i Hi. apply Heq. lia.
Qed.

Lemma ptr_add_zero (a : char_ptr) v :
  ptr_add a v = ptr_add (ptr_add a v) (8 * Z.of_nat 0).
Proof. unfold ptr_add. simpl. f_equal. lia. Qed.

Lemma load_uint64_pos p x : load_uint64 p = Some x ->
  0 <= pos p /\ pos p + 8 <= Z.of_nat (length (buffer p)).
Proof.
  unfold load_uint64. destruct (Z.leb_spec 0 (pos p)); simpl; [|discriminate].
  destruct (Z.leb_spec (pos p + 8) (Z.of_nat (length (buffer p)))); [|discriminate].
  intros _. lia.
Qed.

(** X4: the packed kernel gives no result exactly when, after some number
    of blocks that it read inside the buffers and found equal, the next
    block lies outside the pattern or the text buffer: the rounds of the loop
    never run out, and a failure is a read the loop performs. *)
Theorem packed_kernel_fails_out_of_bounds (wf_aligner : wavefront_aligner_t)
    (k : Z) (offset : wf_offset_t) :
  let pattern_blocks := ptr_add (pattern wf_aligner) (WAVEFRONT_V k offset) in
  let text_blocks := ptr_add (text wf_aligner) (WAVEFRONT_H k offset) in
  wavefront_extend_matches_packed_kernel wf_aligner k offset = None <->
  exists n : nat,
    equal_blocks pattern_blocks text_blocks n /\
    (pos pattern_blocks + 8 * Z.of_nat n < 0 \/
     Z.of_nat (length (buffer pattern_blocks)) < pos pattern_blocks + 8 * Z.of_nat n + 8 \/
     pos text_blocks + 8 * Z.of_nat n < 0 \/
     Z.of_nat (length (buffer text_blocks)) < pos text_blocks + 8 * Z.of_nat n + 8).
Proof.
  cbv zeta. unfold wavefront_extend_matches_packed_kernel. cbv zeta.
  set (pp := ptr_add (pattern wf_aligner) (WAVEFRONT_V k offset)).
  set (tp := ptr_add (text wf_aligner) (WAVEFRONT_H k offset)).
  assert (H0 : forall x, load_uint64 (ptr_add x (8 * Z.of_nat 0)) = load_uint64 x).
  { intros x. unfold load_uint64, ptr_add. simpl. rewrite Z.add_0_r. reflexivity. }
  assert (Epp : pp = ptr_add pp (8 * Z.of_nat 0)) by apply ptr_add_zero.
  assert (Etp : tp = ptr_add tp (8 * Z.of_nat 0)) by apply ptr_add_zero.
  assert (Hload : forall (x : char_ptr) (n : nat),
            load_uint64 (ptr_add x (8 * Z.of_nat n)) = None <->
            (pos x + 8 * Z.of_nat n < 0 \/
             Z.of_nat (length (buffer x)) < pos x + 8 * Z.of_nat n + 8)).
  { intros x n. unfold load_uint64, ptr_add. cbn [pos buffer].
    destruct (Z.leb_spec 0 (pos x + 8 * Z.of_nat n)) as [A|A];
      destruct (Z.leb_spec (pos x + 8 * Z.of_nat n + 8) (Z.of_nat (length (buffer x))))
        as [B|B];
      cbn [andb]; split; intros Hx; try discriminate Hx; try reflexivity; lia. }
  assert (Hfail : forall n : nat,
            (load_uint64 (ptr_add pp (8 * Z.of_nat n)) = None \/
             load_uint64 (ptr_add tp (8 * Z.of_nat n)) = None) <->
            (pos pp + 8 * Z.of_nat n < 0 \/
             Z.of_nat (length (buffer pp)) < pos pp + 8 * Z.of_nat n + 8 \/
             pos tp + 8 * Z.of_nat n < 0 \/
             Z.of_nat (length (buffer tp)) < pos tp + 8 * Z.of_nat n + 8)).
  { intros n. rewrite !Hload. split.
    - intros [[A|A]|[A|A]]; auto.
    - intros [A|[A|[A|A]]]; auto. }
  split.
  - intros H.
    destruct (load_uint64 pp) as [p0|] eqn:Ep; cbv beta iota delta [bind] in H.
    2:{ exists 0%nat. split; [intros i Hi; lia|]. apply Hfail. left.
        rewrite H0. exact Ep. }
    destruct (load_uint64 tp) as [t0|] eqn:Et; cbv beta iota delta [bind] in H.
    2:{ exists 0%nat. split; [intros i Hi; lia|]. apply Hfail. right.
        rewrite H0. exact Et. }
    destruct (packed_kernel_while _ pp tp _ _) as [[cmp o]|] eqn:Ew;
      simpl bind in H; [discriminate|].
    rewrite Epp, Etp in Ew at 1.
    apply packed_kernel_while_none_trace in Ew.
    + destruct Ew as (Hx & n & Hn & Heq & Hf). exists n. split; [|apply Hfail; exact Hf].
      intros i Hi. destruct (Nat.eq_dec i 0) as [->|Hi0].
      * exists p0, t0. rewrite !H0. auto.
      * apply Heq. lia.
    + apply load_uint64_pos in Ep. lia.
    + apply load_uint64_pos in Ep. unfold pp, ptr_add in Ep |- *.
      cbn [pos buffer] in Ep |- *. lia.
  - intros (n & Heq & Hf). apply Hfail in Hf.
    destruct (Nat.eq_dec n 0) as [->|Hn].
    + rewrite !H0 in Hf. destruct Hf as [-> | Ht]; [reflexivity|].
      destruct (load_uint64 pp); simpl bind; [|reflexivity]. rewrite Ht. reflexivity.
    + destruct (Heq 0%nat) as (p0 & t0 & Hp0 & Ht0 & Hx); [lia|].
      rewrite !H0 in Hp0, Ht0. rewrite Hp0, Ht0. simpl bind. rewrite Hx.
      rewrite Epp, Etp at 1.
      rewrite (packed_kernel_while_fail pp tp _ 0 n); [reflexivity|lia| |exact Hf].
      intros i Hi. apply Heq. lia.
Qed.

(** * Further properties of the termination detectors *)


(** X6: with both allowances zero and a position inside the sequences, the
    ends-free check answers true exactly on the alignment diagonal at the
    alignment offset, that is, where both sequences are fully consumed. *)
Theorem endsfree_zero_allowance_alignment_only (wf_aligner : wavefront_aligner_t)
    (mwavefront : wavefront_t) (offset : wf_offset_t) (k : Z) :
  pattern_end_free (alignment_form wf_aligner) = 0 ->
  text_end_free (alignment_form wf_aligner) = 0 ->
  0 <= WAVEFRONT_V k offset <= pattern_length wf_aligner ->
  0 <= WAVEFRONT_H k offset <= text_length wf_aligner ->
  (fst (wavefront_extend_endsfree_check_termination
          wf_aligner mwavefront offset k) = true <->
   k = WAVEFRONT_DIAGONAL (text_length wf_aligner) (pattern_length wf_aligner) /\
   offset = WAVEFRONT_OFFSET (text_length wf_aligner) (pattern_length wf_aligner)).
Proof.
  intros Hp Ht Hv Hh. rewrite endsfree_check_termination_eq.
  unfold endsfree_terminal. rewrite Hp, Ht.
  unfold WAVEFRONT_OFFSET, WAVEFRONT_DIAGONAL, WAVEFRONT_H, WAVEFRONT_V in *.
  destruct (_ || _) eqn:E; simpl fst.
  - split; [intros _|reflexivity].
    apply orb_true_iff in E.
    destruct E as [E|E]; apply andb_true_iff in E; destruct E; lia.
  - split; [discriminate|]. intros [-> ->]. exfalso.
    apply orb_false_iff in E. destruct E as [E _].
    apply andb_false_iff in E. destruct E as [E|E]; lia.
Qed.

(** * Further properties of the drivers *)

Lemma extend_for_monotone ext ef :
  (forall k o o', ext k o = Some o' -> o <= o') ->
  forall n a w k r, extend_for ext ef n a w k = Some r ->
  forall j, offsets w j <= offsets (snd r) j.
Proof.
  intros Hext. induction n as [|n IH]; intros a w k r; simpl extend_for.
  - intros [= <-] j. simpl. lia.
  - destruct (offsets w k =? WAVEFRONT_OFFSET_NULL); [apply IH|].
    destruct (ext k (offsets w k)) as [o|] eqn:Eo; simpl bind; [|discriminate].
    apply Hext in Eo.
    assert (Hset : forall j, offsets w j <= offsets (set_offset w k o) j).
    { intros j. simpl. destruct (j =? k) eqn:E; [|lia].
      apply Z.eqb_eq in E. subst j. exact Eo. }
    destruct (ef && endsfree_terminal a o k).
    + intros [= <-] j. simpl snd. apply Hset.
    + intros H j. apply IH with (j := j) in H. specialize (Hset j). lia.
Qed.

Lemma custom_kernel_monotone fuel a k o o' :
  custom_kernel fuel a k o = Some o' -> o <= o'.
Proof.
  unfold custom_kernel. intros H. apply custom_match_while_spec in H.
  destruct H as (n & -> & _). lia.
Qed.

(** X7: no driver moves an offset backwards: whatever the sequences, the
    match function and the range, every offset of the wavefront a driver
    returns is at least the offset it had. *)
Theorem drivers_never_decrease (fuel : nat) (wf_aligner : wavefront_aligner_t)
    (mwavefront : wavefront_t) (score k_lo k_hi : Z) (endsfree : bool) :
  (forall w',
     wavefront_extend_matches_packed_end2end wf_aligner mwavefront score k_lo k_hi
       = Some w' ->
     forall k, offsets mwavefront k <= offsets w' k) /\
  (forall r,
     wavefront_extend_matches_packed_endsfree wf_aligner mwavefront score k_lo k_hi
       = Some r ->
     forall k, offsets mwavefront k <= offsets (snd r) k) /\
  (forall r,
     wavefront_extend_matches_custom fuel wf_aligner mwavefront score k_lo k_hi
       endsfree = Some r ->
     forall k, offsets mwavefront k <= offsets (snd r) k).
Proof.
  split; [|split].
  - intros w' H k. unfold wavefront_extend_matches_packed_end2end in H.
    pose proof (packed_end2end_for_eq (range_size k_lo k_hi) wf_aligner
                  mwavefront k_lo) as E.
    rewrite H in E. simpl in E.
    apply (extend_for_monotone _ _ (packed_kernel_monotone wf_aligner)
             _ _ _ _ _ E k).
  - intros r H k. unfold wavefront_extend_matches_packed_endsfree in H.
    rewrite packed_endsfree_for_eq in H.
    apply (extend_for_monotone _ _ (packed_kernel_monotone wf_aligner)
             _ _ _ _ _ H k).
  - intros r H k. unfold wavefront_extend_matches_custom in H.
    rewrite custom_for_eq in H.
    apply (extend_for_monotone _ _ (custom_kernel_monotone fuel wf_aligner)
             _ _ _ _ _ H k).
Qed.

(** X8: the packed ends-free driver stops at the first terminal diagonal of
    its range.  When it answers true, [k_alignment_end] is a diagonal of the
    range that is terminal, the diagonals before it are extended and not
    terminal, and the diagonals after it are as they were.  When it answers
    false, every diagonal of the range is extended, none is terminal, and
    [k_alignment_end] is as it was. *)
Theorem packed_endsfree_driver_spec (wf_aligner : wavefront_aligner_t)
    (mwavefront : wavefront_t) (score k_lo k_hi : Z) :
  defined_on (wavefront_extend_matches_packed_kernel wf_aligner)
    mwavefront k_lo k_hi ->
  exists reached mwavefront',
    wavefront_extend_matches_packed_endsfree wf_aligner mwavefront score k_lo k_hi
      = Some (reached, mwavefront') /\
    lo mwavefront' = lo mwavefront /\ hi mwavefront' = hi mwavefront /\
    (forall k, k < k_lo \/ k_hi < k -> offsets mwavefront' k = offsets mwavefront k) /\
    (reached = false ->
       k_alignment_end mwavefront' = k_alignment_end mwavefront /\
       forall k, k_lo <= k <= k_hi ->
         extended_at (wavefront_extend_matches_packed_kernel wf_aligner) true
           wf_aligner mwavefront mwavefront' k) /\
    (reached = true ->
       k_lo <= k_alignment_end mwavefront' <= k_hi /\
       terminal_at (wavefront_extend_matches_packed_kernel wf_aligner)
         wf_aligner mwavefront (k_alignment_end mwavefront') /\
       wavefront_extend_matches_packed_kernel wf_aligner
         (k_alignment_end mwavefront')
         (offsets mwavefront (k_alignment_end mwavefront'))
         = Some (offsets mwavefront' (k_alignment_end mwavefront')) /\
       (forall k, k_lo <= k < k_alignment_end mwavefront' ->
          extended_at (wavefront_extend_matches_packed_kernel wf_aligner) true
            wf_aligner mwavefront mwavefront' k) /\
       (forall k, k_alignment_end mwavefront' < k ->
          offsets mwavefront' k = offsets mwavefront k)).
Proof.
  intros Hd. unfold wavefront_extend_matches_packed_endsfree.
  rewrite packed_endsfree_for_eq.
  pose proof (range_size_spec k_lo k_hi) as Hn.
  destruct (extend_for_defined (wavefront_extend_matches_packed_kernel wf_aligner)
              true (range_size k_lo k_hi) wf_aligner mwavefront k_lo)
    as [[b w'] Hr].
  { intros j Hj. apply Hd. lia. }
  exists b, w'. split; [exact Hr|].
  pose proof (extend_for_frame _ _ _ _ _ _ _ _ Hr) as (H1 & H2 & H3 & H4).
  split; [exact H1|]. split; [exact H2|]. split; [|split].
  - intros k Hk. apply H3. lia.
  - intros ->. split; [apply H4; reflexivity|].
    intros k Hk. apply (extend_for_false _ _ _ _ _ _ _ Hr). lia.
  - intros ->.
    destruct (extend_for_true _ _ _ _ _ _ _ Hr)
      as (_ & j & Hj & Ht & Hx & Hk & Hb & Ha).
    rewrite Hk. split; [lia|]. split; [exact Ht|]. split; [exact Hx|].
    split; [exact Hb|exact Ha].
Qed.

(** X9: with a match function that fails from the end of the text on, and
    fuel for the rest of the text, the custom driver without the ends-free
    check goes through its whole range and answers false; on every diagonal
    that holds an offset it advances the offset over the positions where
    the match function holds, up to the first position where it fails, and
    it leaves the other diagonals and [k_alignment_end] as they were. *)
Theorem custom_driver_extends_while_match (fuel : nat)
    (wf_aligner : wavefront_aligner_t) (mwavefront : wavefront_t)
    (score k_lo k_hi : Z) :
  (forall v h, match_funct wf_aligner v h = true -> h < text_length wf_aligner) ->
  (forall k, k_lo <= k <= k_hi -> offsets mwavefront k <> WAVEFRONT_OFFSET_NULL ->
     text_length wf_aligner - WAVEFRONT_H k (offsets mwavefront k)
       <= Z.of_nat fuel) ->
  exists mwavefront',
    wavefront_extend_matches_custom fuel wf_aligner mwavefront score k_lo k_hi false
      = Some (false, mwavefront') /\
    (forall k, k_lo <= k <= k_hi ->
       offsets mwavefront k <> WAVEFRONT_OFFSET_NULL ->
       exists n : nat,
         offsets mwavefront' k = offsets mwavefront k + Z.of_nat n /\
         (forall i, 0 <= i < Z.of_nat n ->
            match_funct wf_aligner
              (WAVEFRONT_V k (offsets mwavefront k) + i)
              (WAVEFRONT_H k (offsets mwavefront k) + i) = true) /\
         match_funct wf_aligner
           (WAVEFRONT_V k (offsets mwavefront k) + Z.of_nat n)
           (WAVEFRONT_H k (offsets mwavefront k) + Z.of_nat n) = false) /\
    (forall k, k_lo <= k <= k_hi ->
       offsets mwavefront k = WAVEFRONT_OFFSET_NULL ->
       offsets mwavefront' k = WAVEFRONT_OFFSET_NULL) /\
    (forall k, k < k_lo \/ k_hi < k -> offsets mwavefront' k = offsets mwavefront k) /\
    k_alignment_end mwavefront' = k_alignment_end mwavefront.
Proof.
  intros Hm Hf. unfold wavefront_extend_matches_custom. rewrite custom_for_eq.
  pose proof (range_size_spec k_lo k_hi) as Hn.
  pose proof (custom_kernel_defined_on fuel wf_aligner mwavefront k_lo k_hi Hm Hf)
    as Hd.
  destruct (extend_for_defined (custom_kernel fuel wf_aligner) false
              (range_size k_lo k_hi) wf_aligner mwavefront k_lo) as [[b w'] Hr].
  { intros j Hj. apply Hd. lia. }
  pose proof (extend_for_nocheck_false _ _ _ _ _ _ Hr) as Hb. simpl in Hb. subst b.
  exists w'. split; [exact Hr|].
  pose proof (extend_for_frame _ _ _ _ _ _ _ _ Hr) as (_ & _ & H3 & H4).
  pose proof (extend_for_false _ _ _ _ _ _ _ Hr) as Hx.
  split; [|split].
  - intros k Hk Hnn. assert (Hk' : k_lo <= k < k_lo + Z.of_nat (range_size k_lo k_hi))
      by lia.
    specialize (Hx k Hk'). unfold extended_at in Hx.
    apply Z.eqb_neq in Hnn. rewrite Hnn in Hx. destruct Hx as [Hx _].
    unfold custom_kernel in Hx. apply custom_match_while_spec in Hx. exact Hx.
  - intros k Hk Hnn. assert (Hk' : k_lo <= k < k_lo + Z.of_nat (range_size k_lo k_hi))
      by lia.
    specialize (Hx k Hk'). unfold extended_at in Hx.
    rewrite Hnn in Hx. rewrite Z.eqb_refl in Hx. congruence.
  - split; [|apply H4; reflexivity]. intros k Hk. apply H3. lia.
Qed.

(** X10: on a sentinel-padded pair and a wavefront whose offsets lie inside
    the sequences, the end-to-end driver is idempotent: it gives a wavefront
    that a second run over the same range gives back unchanged. *)
Theorem packed_end2end_driver_idempotent (wf_aligner : wavefront_aligner_t)
    (pattern_seq text_seq : list byte) (pd : padding_t)
    (mwavefront : wavefront_t) (score k_lo k_hi : Z) :
  sentinel_padded wf_aligner pattern_seq text_seq pd ->
  (forall k, k_lo <= k <= k_hi -> offsets mwavefront k <> WAVEFRONT_OFFSET_NULL ->
     0 <= WAVEFRONT_V k (offsets mwavefront k) <= pattern_length wf_aligner /\
     0 <= WAVEFRONT_H k (offsets mwavefront k) <= text_length wf_aligner) ->
  exists mwavefront',
    wavefront_extend_matches_packed_end2end wf_aligner mwavefront score k_lo k_hi
      = Some mwavefront' /\
    wavefront_extend_matches_packed_end2end wf_aligner mwavefront' score k_lo k_hi
      = Some mwavefront'.
Proof.
  intros Hpad Hpos. unfold wavefront_extend_matches_packed_end2end.
  pose proof (range_size_spec k_lo k_hi) as Hn.
  set (n := range_size k_lo k_hi) in *.
  set (ext := wavefront_extend_matches_packed_kernel wf_aligner).
  assert (Hin : forall j, k_lo <= j < k_lo + Z.of_nat n <-> k_lo <= j <= k_hi) by lia.
  destruct (extend_for_defined ext false n wf_aligner mwavefront k_lo)
    as [[b w1] Hr1].
  { intros j Hj Hnn. apply (packed_kernel_defined_on _ _ _ _ _ _ _ Hpad Hpos j);
      [lia|exact Hnn]. }
  pose proof (extend_for_nocheck_false _ _ _ _ _ _ Hr1) as Hb. simpl in Hb. subst b.
  pose proof (extend_for_false _ _ _ _ _ _ _ Hr1) as Hx1.
  assert (Hdef2 : defined_on ext w1 k_lo (k_lo + Z.of_nat n - 1)).
  { intros j Hj Hnn.
    assert (Hj' : k_lo <= j < k_lo + Z.of_nat n) by lia.
    specialize (Hx1 j Hj'). unfold extended_at in Hx1.
    destruct (offsets mwavefront j =? WAVEFRONT_OFFSET_NULL) eqn:En;
      [apply Z.eqb_eq in En; congruence|].
    apply Z.eqb_neq in En. destruct Hx1 as [Hx1 _].
    destruct (Hpos j (proj1 (Hin j) Hj') En) as [Hv Hh].
    pose proof (packed_kernel_padded _ _ _ _ j _ Hpad Hv Hh) as Ho1.
    pose proof (packed_kernel_padded_again _ _ _ _ j _ Hpad Hv Hh) as Ho2.
    unfold ext in *. rewrite Ho1 in Hx1. injection Hx1 as <-.
    rewrite Ho2. discriminate. }
  destruct (extend_for_defined ext false n wf_aligner w1 k_lo Hdef2)
    as [[b w2] Hr2].
  pose proof (extend_for_nocheck_false _ _ _ _ _ _ Hr2) as Hb. simpl in Hb. subst b.
  assert (Heq : w2 = w1).
  { pose proof (extend_for_frame _ _ _ _ _ _ _ _ Hr2) as (H1 & H2 & H3 & H4).
    pose proof (extend_for_false _ _ _ _ _ _ _ Hr2) as Hx2.
    destruct w1 as [l1 h1 o1 e1], w2 as [l2 h2 o2 e2]. simpl in *.
    rewrite H1, H2, (H4 eq_refl). f_equal.
    apply functional_extensionality. intros j.
    destruct (Z_lt_ge_dec j k_lo) as [Hlt|Hge]; [apply H3; lia|].
    destruct (Z_le_gt_dec (k_lo + Z.of_nat n) j) as [Hle|Hgt]; [apply H3; lia|].
    assert (Hj' : k_lo <= j < k_lo + Z.of_nat n) by lia.
    specialize (Hx2 j Hj'). unfold extended_at in Hx2. simpl in Hx2.
    destruct (o1 j =? WAVEFRONT_OFFSET_NULL) eqn:En1; [exact Hx2|].
    destruct Hx2 as [Hx2 _].
    specialize (Hx1 j Hj'). unfold extended_at in Hx1. simpl in Hx1.
    destruct (offsets mwavefront j =? WAVEFRONT_OFFSET_NULL) eqn:En.
    { rewrite Hx1 in En1. congruence. }
    apply Z.eqb_neq in En. destruct Hx1 as [Hx1 _].
    destruct (Hpos j (proj1 (Hin j) Hj') En) as [Hv Hh].
    pose proof (packed_kernel_padded _ _ _ _ j _ Hpad Hv Hh) as Ho1.
    pose proof (packed_kernel_padded_again _ _ _ _ j _ Hpad Hv Hh) as Ho2.
    unfold ext in *. rewrite Ho1 in Hx1. injection Hx1 as Hx1.
    rewrite <- Hx1 in Hx2. rewrite Ho2 in Hx2. congruence. }
  subst w2.
  pose proof (packed_end2end_for_eq n wf_aligner mwavefront k_lo) as E1.
  pose proof (packed_end2end_for_eq n wf_aligner w1 k_lo) as E2.
  fold ext in E1, E2. rewrite Hr1 in E1. rewrite Hr2 in E2.
  exists w1.
  destruct (packed_end2end_for n wf_aligner mwavefront k_lo) as [x1|];
    simpl in E1; [|discriminate].
  destruct (packed_end2end_for n wf_aligner w1 k_lo) as [x2|];
    simpl in E2; [|discriminate].
  split; congruence.
Qed.

(** * Further properties of the orchestrators *)

Lemma covers_runs a w : covers a w -> dispatches a w = true.
Proof.
  unfold covers, dispatches. cbv zeta. intros [->|(-> & _)]; [reflexivity|].
  apply orb_true_r.
Qed.

Lemma epilogue_none_strategy a s r :
  strategy a = wf_heuristic_none ->
  epilogue a s r =
  Some (fst r,
        if fst r
        then set_status (store_mwavefront a s (snd r)) WF_STATUS_SUCCESSFUL
        else store_mwavefront a s (snd r)).
Proof.
  intros Hs. unfold epilogue. cbv zeta.
  change (strategy (store_mwavefront a s (snd r))) with (strategy a). rewrite Hs.
  destruct (fst r); reflexivity.
Qed.

Lemma same_outside_slot_store a s w :
  same_outside_slot a (store_mwavefront a s w) s.
Proof.
  unfold same_outside_slot. simpl.
  repeat (split; [reflexivity|]).
  intros s' Hs. destruct (Z.eqb_spec s' s); [contradiction|reflexivity].
Qed.

Lemma same_outside_slot_status a a' s st :
  same_outside_slot a a' s -> same_outside_slot a (set_status a' st) s.
Proof. intros H. exact H. Qed.

Lemma orchestrate_frame phase a score r :
  strategy a = wf_heuristic_none ->
  orchestrate phase a score = Some r ->
  same_outside_slot a (snd r) (modular_score a score) /\
  (fst r = true -> status (snd r) = WF_STATUS_SUCCESSFUL) /\
  (fst r = false -> status (snd r) = status a).
Proof.
  intros Hs. unfold orchestrate. cbv zeta.
  destruct (mwavefronts _ _) as [w|].
  - destruct (phase a w) as [r0|]; simpl bind; [|discriminate].
    rewrite (epilogue_none_strategy _ _ _ Hs). intros [= <-]. simpl fst. simpl snd.
    destruct (fst r0).
    + split; [apply same_outside_slot_status, same_outside_slot_store|].
      split; [reflexivity|discriminate].
    + split; [apply same_outside_slot_store|].
      split; [discriminate|reflexivity].
  - intros [= <-]. simpl. split; [|split; [discriminate|reflexivity]].
    unfold same_outside_slot. repeat (split; [reflexivity|]). reflexivity.
Qed.

(** X11: without a heuristic strategy, a call of an orchestrator changes
    nothing of the aligner but its status and the wavefront of the reduced
    score; the status is "successful" when the call answers true, and as it
    was when the call answers false. *)
Theorem orchestrators_frame_without_heuristic (fuel : nat)
    (wf_aligner : wavefront_aligner_t) (score : Z) :
  strategy wf_aligner = wf_heuristic_none ->
  forall r,
    wavefront_extend_end2end wf_aligner score = Some r \/
    wavefront_extend_endsfree wf_aligner score = Some r \/
    wavefront_extend_custom fuel wf_aligner score = Some r ->
    same_outside_slot wf_aligner (snd r) (modular_score wf_aligner score) /\
    (fst r = true -> status (snd r) = WF_STATUS_SUCCESSFUL) /\
    (fst r = false -> status (snd r) = status wf_aligner).
Proof.
  intros Hs r.
  rewrite wavefront_extend_end2end_eq, wavefront_extend_endsfree_eq,
    wavefront_extend_custom_eq.
  intros [H|[H|H]]; exact (orchestrate_frame _ _ _ _ Hs H).
Qed.

Lemma orchestrate_true_status phase a score a' :
  orchestrate phase a score = Some (true, a') ->
  status a' = WF_STATUS_SUCCESSFUL \/
  (strategy a <> wf_heuristic_none /\ status a' = WF_STATUS_HEURISTICALY_DROPPED).
Proof.
  unfold orchestrate. cbv zeta.
  destruct (mwavefronts _ _) as [w|]; [|discriminate].
  destruct (phase a w) as [r0|]; simpl bind; [|discriminate].
  unfold epilogue. cbv zeta.
  change (strategy (store_mwavefront a (modular_score a score) (snd r0)))
    with (strategy a).
  destruct (fst r0).
  - intros [= <-]. left. reflexivity.
  - destruct (strategy a) eqn:Es; simpl negb; cbv iota.
    + discriminate.
    + destruct (fst (wavefront_heuristic_cufoff _ _)); [|discriminate].
      intros [= <-]. right. split; [discriminate|reflexivity].
Qed.

(** X12: an orchestrator that answers true has set the status: to
    "successful", or, with a heuristic strategy set, to "heuristically
    dropped". *)
Theorem true_verdict_sets_status (fuel : nat) (wf_aligner : wavefront_aligner_t)
    (score : Z) (wf_aligner' : wavefront_aligner_t) :
  wavefront_extend_end2end wf_aligner score = Some (true, wf_aligner') \/
  wavefront_extend_endsfree wf_aligner score = Some (true, wf_aligner') \/
  wavefront_extend_custom fuel wf_aligner score = Some (true, wf_aligner') ->
  status wf_aligner' = WF_STATUS_SUCCESSFUL \/
  (strategy wf_aligner <> wf_heuristic_none /\
   status wf_aligner' = WF_STATUS_HEURISTICALY_DROPPED).
Proof.
  rewrite wavefront_extend_end2end_eq, wavefront_extend_endsfree_eq,
    wavefront_extend_custom_eq.
  intros [H|[H|H]]; exact (orchestrate_true_status _ _ _ _ H).
Qed.

(** X13: in a build without [WFA_PARALLEL], a call for which the number of
    workers is not one extends nothing: the end-to-end and the ends-free
    orchestrator go on to the cut-off with the verdict false and the
    wavefront as it was, without checking for termination, and the custom
    orchestrator runs the end-to-end check on the wavefront as it was when
    the form is not ends-free. *)
Theorem sequential_build_skips_extension (fuel : nat)
    (wf_aligner : wavefront_aligner_t) (score : Z) (mwavefront : wavefront_t) :
  WFA_PARALLEL = false ->
  wavefront_compute_num_threads wf_aligner (lo mwavefront) (hi mwavefront) <> 1 ->
  mwavefronts (wf_components wf_aligner) (modular_score wf_aligner score)
    = Some mwavefront ->
  wavefront_extend_end2end wf_aligner score
    = epilogue wf_aligner (modular_score wf_aligner score) (false, mwavefront) /\
  wavefront_extend_endsfree wf_aligner score
    = epilogue wf_aligner (modular_score wf_aligner score) (false, mwavefront) /\
  wavefront_extend_custom fuel wf_aligner score
    = epilogue wf_aligner (modular_score wf_aligner score)
        (if alignment_span_eqb (span (alignment_form wf_aligner)) alignment_endsfree
         then (false, mwavefront)
         else wavefront_extend_end2end_check_termination wf_aligner mwavefront) /\
  (strategy wf_aligner = wf_heuristic_none ->
   wavefront_extend_end2end wf_aligner score
     = Some (false,
             store_mwavefront wf_aligner (modular_score wf_aligner score)
               mwavefront)).
Proof.
  intros Hpar Hn Hw. apply Z.eqb_neq in Hn.
  rewrite wavefront_extend_end2end_eq, wavefront_extend_endsfree_eq,
    wavefront_extend_custom_eq.
  unfold orchestrate. cbv zeta. rewrite Hw.
  unfold end2end_phase, endsfree_phase, custom_phase, dispatch, dispatches.
  cbv zeta. rewrite Hn, Hpar. simpl bind. simpl orb. cbv iota. simpl snd.
  split; [reflexivity|]. split; [reflexivity|]. split.
  - destruct (alignment_span_eqb _ _); reflexivity.
  - intros Hs. rewrite (epilogue_none_strategy _ _ _ Hs). reflexivity.
Qed.

(** X14: on a sentinel-padded sequence aligned with itself, the
    end-to-end orchestrator answers true with the status "successful" as
    soon as the wavefront of the score holds an offset on diagonal 0: the
    extension takes diagonal 0 to the end of both sequences. *)
Theorem end2end_identical_sequences_succeed (wf_aligner : wavefront_aligner_t)
    (seq : list byte) (pd : padding_t) (score : Z) (mwavefront : wavefront_t) :
  sentinel_padded wf_aligner seq seq pd ->
  mwavefronts (wf_components wf_aligner) (modular_score wf_aligner score)
    = Some mwavefront ->
  covers wf_aligner mwavefront ->
  lo mwavefront <= 0 <= hi mwavefront ->
  offsets mwavefront 0 <> WAVEFRONT_OFFSET_NULL ->
  (forall k, lo mwavefront <= k <= hi mwavefront ->
     offsets mwavefront k <> WAVEFRONT_OFFSET_NULL ->
     0 <= WAVEFRONT_V k (offsets mwavefront k) <= pattern_length wf_aligner /\
     0 <= WAVEFRONT_H k (offsets mwavefront k) <= text_length wf_aligner) ->
  exists mwavefront',
    wavefront_extend_end2end wf_aligner score
      = Some (true,
              set_status
                (store_mwavefront wf_aligner (modular_score wf_aligner score)
                   mwavefront')
                WF_STATUS_SUCCESSFUL) /\
    k_alignment_end mwavefront' = 0 /\
    offsets mwavefront' 0 = text_length wf_aligner.
Proof.
  intros Hpad Hw Hc H0 Hn0 Hpos.
  pose proof (packed_kernel_defined_on _ _ _ _ _ _ _ Hpad Hpos) as Hd.
  destruct (dispatch_defined _ false _ _ Hc Hd) as [[b w'] Hr].
  pose proof (dispatch_nocheck_false _ _ _ _ Hr) as Hb. simpl in Hb. subst b.
  destruct (dispatch_spec _ _ _ _ _ _ Hc Hr) as (H1 & H2 & _ & H4 & _).
  destruct (H4 eq_refl) as [_ Hx]. specialize (Hx 0 H0).
  unfold extended_at in Hx. apply Z.eqb_neq in Hn0. rewrite Hn0 in Hx.
  apply Z.eqb_neq in Hn0. destruct Hx as [Hx _].
  destruct (Hpos 0 H0 Hn0) as [Hv Hh].
  rewrite (packed_kernel_padded _ _ _ _ _ _ Hpad Hv Hh) in Hx.
  injection Hx as Hx.
  destruct Hpad as (_ & _ & Hpl & Htl & _).
  assert (Hend : offsets w' 0 = text_length wf_aligner).
  { rewrite <- Hx. unfold naive_extend. cbv zeta.
    unfold WAVEFRONT_V, WAVEFRONT_H in *. rewrite Z.sub_0_r.
    rewrite equal_symbols_refl, length_skipn. rewrite Z.sub_0_r in Hv. lia. }
  exists (set_k_alignment_end w' 0).
  split; [|split; [reflexivity|exact Hend]].
  rewrite wavefront_extend_end2end_eq. unfold orchestrate. cbv zeta. rewrite Hw.
  unfold end2end_phase. rewrite Hr. simpl bind. rewrite (covers_runs _ _ Hc).
  simpl snd. unfold wavefront_extend_end2end_check_termination. cbv zeta.
  unfold WAVEFRONT_DIAGONAL, WAVEFRONT_OFFSET.
  replace (text_length wf_aligner - pattern_length wf_aligner) with 0 by lia.
  rewrite H1, H2.
  assert (Hlo : (lo mwavefront >? 0) = false)
    by (rewrite Z.gtb_ltb; apply Z.ltb_ge; lia).
  assert (Hhi : (0 >? hi mwavefront) = false)
    by (rewrite Z.gtb_ltb; apply Z.ltb_ge; lia).
  rewrite Hlo, Hhi.
  simpl orb. cbv iota. rewrite Hend, Z.ltb_irrefl.
  simpl bind. reflexivity.
Qed.

(** X15: the ends-free orchestrator, when every diagonal of the wavefront
    is dispatched and the kernel reads inside its buffers: if some diagonal
    of the wavefront is terminal the call answers true with the status
    "successful", whatever the heuristic strategy, and the diagonal it
    records is terminal; if none is, the call goes on to the cut-off with
    every diagonal extended. *)
Theorem endsfree_orchestrator_outcome (wf_aligner : wavefront_aligner_t)
    (score : Z) (mwavefront : wavefront_t) :
  mwavefronts (wf_components wf_aligner) (modular_score wf_aligner score)
    = Some mwavefront ->
  covers wf_aligner mwavefront ->
  defined_on (wavefront_extend_matches_packed_kernel wf_aligner) mwavefront
    (lo mwavefront) (hi mwavefront) ->
  ((exists k, lo mwavefront <= k <= hi mwavefront /\
      terminal_at (wavefront_extend_matches_packed_kernel wf_aligner)
        wf_aligner mwavefront k) ->
   exists mwavefront',
     wavefront_extend_endsfree wf_aligner score
       = Some (true,
               set_status
                 (store_mwavefront wf_aligner (modular_score wf_aligner score)
                    mwavefront')
                 WF_STATUS_SUCCESSFUL) /\
     lo mwavefront <= k_alignment_end mwavefront' <= hi mwavefront /\
     terminal_at (wavefront_extend_matches_packed_kernel wf_aligner)
       wf_aligner mwavefront (k_alignment_end mwavefront')) /\
  ((forall k, lo mwavefront <= k <= hi mwavefront ->
      ~ terminal_at (wavefront_extend_matches_packed_kernel wf_aligner)
          wf_aligner mwavefront k) ->
   wavefront_extend_endsfree wf_aligner score
     = epilogue wf_aligner (modular_score wf_aligner score)
         (false,
          {| lo := lo mwavefront; hi := hi mwavefront;
             offsets :=
               extend_offsets (wavefront_extend_matches_packed_kernel wf_aligner)
                 mwavefront (lo mwavefront) (hi mwavefront);
             k_alignment_end := k_alignment_end mwavefront |})).
Proof.
  intros Hw Hc Hd.
  rewrite wavefront_extend_endsfree_eq. unfold orchestrate. cbv zeta. rewrite Hw.
  unfold endsfree_phase.
  destruct (dispatch_defined _ true _ _ Hc Hd) as [[b w'] Hr].
  rewrite Hr. simpl bind.
  destruct (dispatch_spec _ _ _ _ _ _ Hc Hr) as (H1 & H2 & H3 & H4 & H5).
  split.
  - intros (j & Hj & Ht). destruct b.
    + exists w'. destruct (H5 eq_refl) as (_ & Hk & Hterm).
      split; [reflexivity|]. split; [exact Hk|exact Hterm].
    + exfalso. destruct (H4 eq_refl) as [_ Hx].
      exact (extended_not_terminal _ _ _ _ _ (Hx j Hj) Ht).
  - intros Hno. destruct b.
    + exfalso. destruct (H5 eq_refl) as (_ & Hk & Hterm). exact (Hno _ Hk Hterm).
    + rewrite (dispatch_false_canonical _ _ _ _ _ Hc Hr). reflexivity.
Qed.

(** X16: the end-to-end orchestrator in closed form, when every diagonal
    of the wavefront is dispatched and the kernel reads inside its buffers:
    the call is the end-to-end check, then the cut-off, on the wavefront
    whose diagonals are all extended. *)
Theorem end2end_orchestrator_closed_form (wf_aligner : wavefront_aligner_t)
    (score : Z) (mwavefront : wavefront_t) :
  mwavefronts (wf_components wf_aligner) (modular_score wf_aligner score)
    = Some mwavefront ->
  covers wf_aligner mwavefront ->
  defined_on (wavefront_extend_matches_packed_kernel wf_aligner) mwavefront
    (lo mwavefront) (hi mwavefront) ->
  wavefront_extend_end2end wf_aligner score
  = epilogue wf_aligner (modular_score wf_aligner score)
      (wavefront_extend_end2end_check_termination wf_aligner
         {| lo := lo mwavefront; hi := hi mwavefront;
            offsets :=
              extend_offsets (wavefront_extend_matches_packed_kernel wf_aligner)
                mwavefront (lo mwavefront) (hi mwavefront);
            k_alignment_end := k_alignment_end mwavefront |}).
Proof.
  intros Hw Hc Hd.
  rewrite wavefront_extend_end2end_eq. unfold orchestrate. cbv zeta. rewrite Hw.
  unfold end2end_phase.
  destruct (dispatch_defined _ false _ _ Hc Hd) as [[b w'] Hr].
  pose proof (dispatch_nocheck_false _ _ _ _ Hr) as Hb. simpl in Hb. subst b.
  rewrite Hr. simpl bind. rewrite (covers_runs _ _ Hc). simpl snd.
  rewrite (dispatch_false_canonical _ _ _ _ _ Hc Hr). reflexivity.
Qed.

(** * The kernels and the drivers compared *)

Lemma extend_for_agree ext1 ext2 ef : forall n a w k,
  (forall j, k <= j < k + Z.of_nat n -> offsets w j <> WAVEFRONT_OFFSET_NULL ->
     ext1 j (offsets w j) = ext2 j (offsets w j)) ->
  extend_for ext1 ef n a w k = extend_for ext2 ef n a w k.
Proof.
  induction n as [|n IH]; intros a w k H; simpl extend_for; [reflexivity|].
  destruct (offsets w k =? WAVEFRONT_OFFSET_NULL) eqn:En.
  - apply IH. intros j Hj. apply H. lia.
  - apply Z.eqb_neq in En.
    assert (Hk : k <= k < k + Z.of_nat (S n)) by lia.
    rewrite <- (H k Hk En).
    destruct (ext1 k (offsets w k)) as [o|]; simpl bind; [|reflexivity].
    destruct (ef && endsfree_terminal a o k); [reflexivity|].
    apply IH. intros j Hj. rewrite set_offset_other by lia. apply H. lia.
Qed.

Lemma omp_parallel_agree ext1 ext2 ef a rng : forall schedule b0 w,
  NoDup schedule ->
  (forall t1 t2 j, In t1 schedule -> In t2 schedule ->
     fst (rng t1) <= j <= snd (rng t1) -> fst (rng t2) <= j <= snd (rng t2) ->
     t1 = t2) ->
  (forall t j, In t schedule -> fst (rng t) <= j <= snd (rng t) ->
     offsets w j <> WAVEFRONT_OFFSET_NULL ->
     ext1 j (offsets w j) = ext2 j (offsets w j)) ->
  omp_parallel (worker ext1 ef a rng) schedule b0 w
  = omp_parallel (worker ext2 ef a rng) schedule b0 w.
Proof.
  induction schedule as [|t rest IH]; intros b0 w Hnd Hdis Hag; simpl omp_parallel;
    [reflexivity|].
  assert (Hw : worker ext1 ef a rng t w = worker ext2 ef a rng t w).
  { unfold worker, extend_range.
    pose proof (Hag t) as Ht. destruct (rng t) as [t_lo t_hi].
    simpl fst in Ht. simpl snd in Ht.
    apply extend_for_agree. intros j Hj. apply Ht; [left; reflexivity|].
    pose proof (range_size_spec t_lo t_hi). lia. }
  rewrite <- Hw.
  destruct (worker ext1 ef a rng t w) as [[r w1]|] eqn:E1; simpl bind; [|reflexivity].
  inversion Hnd as [|? ? Hnotin Hnd']; subst.
  apply IH; [exact Hnd'| |].
  - intros t1 t2 j H1 H2. apply Hdis; right; assumption.
  - intros t' j Ht' Hj.
    destruct (worker_spec _ _ _ _ _ _ _ _ E1) as (_ & _ & Hout & _).
    rewrite Hout.
    + apply (Hag t' j); [right; exact Ht'|exact Hj].
    + intros Hjt.
      assert (t = t')
        by (apply (Hdis t t' j);
            [left; reflexivity|right; exact Ht'|exact Hjt|exact Hj]).
      subst. contradiction.
Qed.

Lemma dispatch_agree ext1 ext2 ef a w :
  covers a w ->
  (forall j, lo w <= j <= hi w -> offsets w j <> WAVEFRONT_OFFSET_NULL ->
     ext1 j (offsets w j) = ext2 j (offsets w j)) ->
  dispatch ext1 ef a w = dispatch ext2 ef a w.
Proof.
  unfold covers, dispatch. cbv zeta.
  set (n := wavefront_compute_num_threads a (lo w) (hi w)).
  intros Hc Hag.
  assert (Hone : extend_range ext1 ef a w (lo w) (hi w)
                 = extend_range ext2 ef a w (lo w) (hi w)).
  { unfold extend_range. apply extend_for_agree. intros j Hj. apply Hag.
    pose proof (range_size_spec (lo w) (hi w)). lia. }
  destruct (n =? 1) eqn:En; [exact Hone|].
  destruct Hc as [Hc|(Hpar & (P1 & P2 & P3) & Hperm)];
    [apply Z.eqb_neq in En; contradiction|].
  rewrite Hpar.
  change (omp_parallel
            (worker ext1 ef a
               (fun t => wavefront_compute_thread_limits t n (lo w) (hi w)))
            (omp_schedule n) false w
          = omp_parallel
              (worker ext2 ef a
                 (fun t => wavefront_compute_thread_limits t n (lo w) (hi w)))
              (omp_schedule n) false w).
  assert (Hin : forall t, In t (omp_schedule n) <-> 0 <= t < n).
  { intros t. rewrite <- thread_nums_in. split; apply Permutation_in;
      [exact Hperm|apply Permutation_sym; exact Hperm]. }
  apply omp_parallel_agree.
  - apply (Permutation_NoDup (Permutation_sym Hperm)). apply thread_nums_nodup.
  - intros t1 t2 j Ht1 Ht2. apply P3; apply Hin; assumption.
  - intros t j Ht Hj. apply Hag. apply (P1 t j); [apply Hin; exact Ht|exact Hj].
Qed.

(** X17: with the equality of the symbols inside the sequences as match
    function, and fuel for the text, the custom orchestrator is the packed
    orchestrator of the alignment form on a sentinel-padded pair: the
    ends-free one when the form is ends-free, the end-to-end one
    otherwise. *)
Theorem custom_orchestrator_agrees_with_packed (fuel : nat)
    (wf_aligner : wavefront_aligner_t)
    (pattern_seq text_seq : list byte) (pd : padding_t)
    (score : Z) (mwavefront : wavefront_t) :
  sentinel_padded wf_aligner pattern_seq text_seq pd ->
  (forall v h, match_funct wf_aligner v h = example_match pattern_seq text_seq v h) ->
  mwavefronts (wf_components wf_aligner) (modular_score wf_aligner score)
    = Some mwavefront ->
  covers wf_aligner mwavefront ->
  (forall k, lo mwavefront <= k <= hi mwavefront ->
     offsets mwavefront k <> WAVEFRONT_OFFSET_NULL ->
     0 <= WAVEFRONT_V k (offsets mwavefront k) <= pattern_length wf_aligner /\
     0 <= WAVEFRONT_H k (offsets mwavefront k) <= text_length wf_aligner) ->
  text_length wf_aligner <= Z.of_nat fuel ->
  wavefront_extend_custom fuel wf_aligner score
  = if alignment_span_eqb (span (alignment_form wf_aligner)) alignment_endsfree
    then wavefront_extend_endsfree wf_aligner score
    else wavefront_extend_end2end wf_aligner score.
Proof.
  intros Hpad Hm Hw Hc Hpos Hf.
  assert (Hag : forall j, lo mwavefront <= j <= hi mwavefront ->
            offsets mwavefront j <> WAVEFRONT_OFFSET_NULL ->
            custom_kernel fuel wf_aligner j (offsets mwavefront j)
            = wavefront_extend_matches_packed_kernel wf_aligner j
                (offsets mwavefront j)).
  { intros j Hj Hn. destruct (Hpos j Hj Hn) as [Hv Hh].
    rewrite (packed_kernel_padded _ _ _ _ _ _ Hpad Hv Hh).
    apply (custom_kernel_padded fuel _ _ _ _ _ _ Hpad Hm Hv Hh).
    unfold WAVEFRONT_H in *. lia. }
  rewrite wavefront_extend_custom_eq, wavefront_extend_endsfree_eq,
    wavefront_extend_end2end_eq.
  unfold orchestrate. cbv zeta. rewrite Hw.
  unfold custom_phase, end2end_phase, endsfree_phase. cbv zeta.
  rewrite (dispatch_agree _ _ _ _ _ Hc Hag).
  destruct (alignment_span_eqb _ _); simpl negb; cbv iota.
  - destruct (dispatch _ true wf_aligner mwavefront) as [r|]; reflexivity.
  - rewrite (covers_runs _ _ Hc). reflexivity.
Qed.

Lemma custom_match_while_fails (m : Z -> Z -> bool) : forall (n fuel : nat) v h offset,
  m (v + Z.of_nat n) (h + Z.of_nat n) = false -> (n <= fuel)%nat ->
  exists o, custom_match_while fuel m v h offset = Some o.
Proof.
  induction n as [|n IH]; intros fuel v h offset Hn Hf.
  - rewrite !Z.add_0_r in Hn. destruct fuel; simpl; rewrite Hn; eauto.
  - destruct fuel as [|fuel]; [lia|]. simpl.
    destruct (m v h); [|eauto]. apply IH; [|lia].
    rewrite <- Hn. f_equal; lia.
Qed.

Lemma custom_match_while_fuel (m : Z -> Z -> bool) : forall (fuel fuel' : nat) v h offset o,
  custom_match_while fuel m v h offset = Some o -> (fuel <= fuel')%nat ->
  custom_match_while fuel' m v h offset = Some o.
Proof.
  induction fuel as [|fuel IH]; intros fuel' v h offset o; simpl.
  - destruct (m v h) eqn:E; [discriminate|]. intros H _.
    destruct fuel'; simpl; rewrite E; exact H.
  - destruct (m v h) eqn:E.
    + intros H Hf. destruct fuel' as [|fuel']; [lia|]. simpl. rewrite E.
      apply IH; [exact H|lia].
    + intros H _. destruct fuel'; simpl; rewrite E; exact H.
Qed.

(** X18: the loop of the custom kernel ends exactly when the match
    function fails somewhere down the diagonal: some number of rounds gives
    a result if and only if the match function is false at some distance
    from the position; a result does not depend on the rounds allowed
    beyond those it took.  With a match function that never fails the loop
    gives no result, however many rounds it is allowed. *)
Theorem custom_kernel_ends_iff_match_fails (wf_aligner : wavefront_aligner_t)
    (k : Z) (offset : wf_offset_t) :
  ((exists fuel o, custom_kernel fuel wf_aligner k offset = Some o) <->
   (exists n : nat,
      match_funct wf_aligner (WAVEFRONT_V k offset + Z.of_nat n)
        (WAVEFRONT_H k offset + Z.of_nat n) = false)) /\
  (forall (fuel fuel' : nat) o,
     custom_kernel fuel wf_aligner k offset = Some o -> (fuel <= fuel')%nat ->
     custom_kernel fuel' wf_aligner k offset = Some o) /\
  ((forall n : nat,
      match_funct wf_aligner (WAVEFRONT_V k offset + Z.of_nat n)
        (WAVEFRONT_H k offset + Z.of_nat n) = true) ->
   forall fuel, custom_kernel fuel wf_aligner k offset = None).
Proof.
  unfold custom_kernel. split; [split|split].
  - intros (fuel & o & H). apply custom_match_while_spec in H.
    destruct H as (n & _ & _ & Hn). exists n. exact Hn.
  - intros (n & Hn). exists n.
    apply (custom_match_while_fails _ n n _ _ offset Hn). lia.
  - intros fuel fuel' o. apply custom_match_while_fuel.
  - intros Hall fuel.
    destruct (custom_match_while fuel (match_funct wf_aligner) _ _ offset)
      as [o|] eqn:E; [|reflexivity].
    apply custom_match_while_spec in E. destruct E as (n & _ & _ & Hn).
    rewrite Hall in Hn. discriminate.
Qed.

Lemma list_first_difference : forall (a b : list byte),
  length a = length b ->
  a = b \/
  exists (r : nat) (c d : byte),
    (r < length a)%nat /\
    (forall i, (i < r)%nat -> nth_error a i = nth_error b i) /\
    nth_error a r = Some c /\ nth_error b r = Some d /\ c <> d.
Proof.
  induction a as [|x a IH]; intros [|y b] Hl; try discriminate.
  - left. reflexivity.
  - simpl in Hl. injection Hl as Hl.
    destruct (Byte.byte_eq_dec x y) as [->|Hxy].
    + destruct (IH b Hl) as [->|(r & c & d & Hr & Heq & Hc & Hd & Hcd)].
      * left. reflexivity.
      * right. exists (S r), c, d. simpl. split; [lia|].
        split; [|auto]. intros [|i] Hi; [reflexivity|]. simpl. apply Heq. lia.
    + right. exists 0%nat, x, y. simpl. split; [lia|].
      split; [intros i Hi; lia|auto].
Qed.

(** X19: the comparison of one block of each buffer.  The exclusive-or of
    the two blocks is zero exactly when the eight bytes of the blocks are
    equal; when it is not, the count of its trailing zeros, divided by
    eight, is the index of the first byte on which the blocks differ. *)
Theorem block_xor_first_difference (bp bt : list byte) (ip it : nat) :
  (ip + 8 <= length bp)%nat -> (it + 8 <= length bt)%nat ->
  let cmp := Z.lxor (block bp ip) (block bt it) in
  (cmp = 0 <-> firstn 8 (skipn ip bp) = firstn 8 (skipn it bt)) /\
  (cmp <> 0 ->
   exists r : nat,
     (r < 8)%nat /\ DIV_FLOOR (__builtin_ctzl cmp) 8 = Z.of_nat r /\
     first_mismatch bp ip bt it r).
Proof.
  intros Hp Ht. cbv zeta. unfold block.
  pose proof (block_length bp ip Hp) as Lp.
  pose proof (block_length bt it Ht) as Lt.
  destruct (list_first_difference (firstn 8 (skipn ip bp)) (firstn 8 (skipn it bt)))
    as [Heq|(r & c & d & Hr & Hlow & Hc & Hd & Hcd)];
    [rewrite Lp, Lt; reflexivity| |].
  - rewrite Heq, Z.lxor_nilpotent. split; [split; reflexivity|].
    intros H. contradiction.
  - rewrite Lp in Hr.
    destruct (block_mismatch _ _ r c d Hr Hlow Hc Hd Hcd) as [Hnz Hctz].
    split.
    + split; [intros H; contradiction|].
      intros Heq. rewrite Heq, Hd in Hc. injection Hc as Hc.
      symmetry in Hc. contradiction.
    + intros _. exists r. split; [exact Hr|]. split; [exact Hctz|].
      split.
      * intros i Hi. specialize (Hlow i Hi).
        rewrite !block_nth_error in Hlow by lia.
        destruct (nth_error bp (ip + i)) as [x|] eqn:Ex.
        -- exists x. split; [reflexivity|]. symmetry. exact Hlow.
        -- apply nth_error_None in Ex. lia.
      * exists c, d. rewrite block_nth_error in Hc, Hd by lia. auto.
Qed.

(** X20: on any two buffers, padded or not: when the bytes from the two
    positions on agree over [n] bytes and differ on the next, and the blocks
    up to the one that holds this byte lie in the buffers, the packed kernel
    advances the offset by [n]. *)
Theorem packed_kernel_advances_to_first_mismatch (wf_aligner : wavefront_aligner_t)
    (k : Z) (offset : wf_offset_t) (n : nat) :
  0 <= pos (pattern wf_aligner) + WAVEFRONT_V k offset ->
  0 <= pos (text wf_aligner) + WAVEFRONT_H k offset ->
  first_mismatch
    (buffer (pattern wf_aligner))
    (Z.to_nat (pos (pattern wf_aligner) + WAVEFRONT_V k offset))
    (buffer (text wf_aligner))
    (Z.to_nat (pos (text wf_aligner) + WAVEFRONT_H k offset)) n ->
  pos (pattern wf_aligner) + WAVEFRONT_V k offset + Z.of_nat n + 8
    <= Z.of_nat (length (buffer (pattern wf_aligner))) ->
  pos (text wf_aligner) + WAVEFRONT_H k offset + Z.of_nat n + 8
    <= Z.of_nat (length (buffer (text wf_aligner))) ->
  wavefront_extend_matches_packed_kernel wf_aligner k offset
  = Some (offset + Z.of_nat n).
Proof.
  intros Hp Ht Hm Hbp Hbt.
  apply (packed_kernel_first_mismatch wf_aligner k offset
           (Z.to_nat (pos (pattern wf_aligner) + WAVEFRONT_V k offset))
           (Z.to_nat (pos (text wf_aligner) + WAVEFRONT_H k offset)) n).
  - unfold ptr_add. f_equal. rewrite Z2Nat.id by lia. reflexivity.
  - unfold ptr_add. f_equal. rewrite Z2Nat.id by lia. reflexivity.
  - exact Hm.
  - lia.
  - lia.
Qed.

Lemma extend_for_check_false ext : forall n a w k w',
  extend_for ext true n a w k = Some (false, w') ->
  extend_for ext false n a w k = Some (false, w').
Proof.
  induction n as [|n IH]; intros a w k w'; simpl extend_for; [auto|].
  destruct (offsets w k =? WAVEFRONT_OFFSET_NULL); [apply IH|].
  destruct (ext k (offsets w k)) as [o|]; simpl bind; [|discriminate].
  simpl andb. destruct (endsfree_terminal a o k); [discriminate|apply IH].
Qed.

(** X21: a driver with the ends-free check that answers false did what
    the driver without the check does: the packed ends-free driver returns
    the wavefront the packed end-to-end driver returns, and the custom
    driver returns the same wavefront with and without the check. *)
Theorem endsfree_driver_false_is_end2end (fuel : nat)
    (wf_aligner : wavefront_aligner_t) (mwavefront : wavefront_t)
    (score k_lo k_hi : Z) (mwavefront' : wavefront_t) :
  (wavefront_extend_matches_packed_endsfree wf_aligner mwavefront score k_lo k_hi
     = Some (false, mwavefront') ->
   wavefront_extend_matches_packed_end2end wf_aligner mwavefront score k_lo k_hi
     = Some mwavefront') /\
  (wavefront_extend_matches_custom fuel wf_aligner mwavefront score k_lo k_hi true
     = Some (false, mwavefront') ->
   wavefront_extend_matches_custom fuel wf_aligner mwavefront score k_lo k_hi false
     = Some (false, mwavefront')).
Proof.
  split.
  - unfold wavefront_extend_matches_packed_endsfree,
      wavefront_extend_matches_packed_end2end.
    rewrite packed_endsfree_for_eq. intros H. apply extend_for_check_false in H.
    rewrite packed_end2end_for_eq in H.
    destruct (packed_end2end_for _ _ _ _) as [x|]; simpl in H; congruence.
  - unfold wavefront_extend_matches_custom. rewrite !custom_for_eq.
    apply extend_for_check_false.
Qed.



(** * Further properties: ends-free custom path, ranges, blocks *)

(** X23: the custom driver with the ends-free check stops at the first
    terminal diagonal of its range, as the packed ends-free driver does.
    When it answers true, [k_alignment_end] is a diagonal of the range that
    is terminal, the diagonals before it are extended and not terminal, and
    the diagonals after it are as they were.  When it answers false, every
    diagonal of the range is extended, none is terminal, and
    [k_alignment_end] is as it was. *)
Theorem custom_endsfree_driver_spec (fuel : nat) (wf_aligner : wavefront_aligner_t)
    (mwavefront : wavefront_t) (score k_lo k_hi : Z) :
  defined_on (custom_kernel fuel wf_aligner) mwavefront k_lo k_hi ->
  exists reached mwavefront',
    wavefront_extend_matches_custom fuel wf_aligner mwavefront score k_lo k_hi true
      = Some (reached, mwavefront') /\
    lo mwavefront' = lo mwavefront /\ hi mwavefront' = hi mwavefront /\
    (forall k, k < k_lo \/ k_hi < k -> offsets mwavefront' k = offsets mwavefront k) /\
    (reached = false ->
       k_alignment_end mwavefront' = k_alignment_end mwavefront /\
       forall k, k_lo <= k <= k_hi ->
         extended_at (custom_kernel fuel wf_aligner) true
           wf_aligner mwavefront mwavefront' k) /\
    (reached = true ->
       k_lo <= k_alignment_end mwavefront' <= k_hi /\
       terminal_at (custom_kernel fuel wf_aligner)
         wf_aligner mwavefront (k_alignment_end mwavefront') /\
       custom_kernel fuel wf_aligner
         (k_alignment_end mwavefront')
         (offsets mwavefront (k_alignment_end mwavefront'))
         = Some (offsets mwavefront' (k_alignment_end mwavefront')) /\
       (forall k, k_lo <= k < k_alignment_end mwavefront' ->
          extended_at (custom_kernel fuel wf_aligner) true
            wf_aligner mwavefront mwavefront' k) /\
       (forall k, k_alignment_end mwavefront' < k ->
          offsets mwavefront' k = offsets mwavefront k)).
Proof.
  intros Hd. unfold wavefront_extend_matches_custom.
  rewrite custom_for_eq.
  pose proof (range_size_spec k_lo k_hi) as Hn.
  destruct (extend_for_defined (custom_kernel fuel wf_aligner)
              true (range_size k_lo k_hi) wf_aligner mwavefront k_lo)
    as [[b w'] Hr].
  { intros j Hj. apply Hd. lia. }
  exists b, w'. split; [exact Hr|].
  pose proof (extend_for_frame _ _ _ _ _ _ _ _ Hr) as (H1 & H2 & H3 & H4).
  split; [exact H1|]. split; [exact H2|]. split; [|split].
  - intros k Hk. apply H3. lia.
  - intros ->. split; [apply H4; reflexivity|].
    intros k Hk. apply (extend_for_false _ _ _ _ _ _ _ Hr). lia.
  - intros ->.
    destruct (extend_for_true _ _ _ _ _ _ _ Hr)
      as (_ & j & Hj & Ht & Hx & Hk & Hb & Ha).
    rewrite Hk. split; [lia|]. split; [exact Ht|]. split; [exact Hx|].
    split; [exact Hb|exact Ha].
Qed.

(** X24: the custom orchestrator in the ends-free form, when every
    diagonal of the wavefront is dispatched and the match function fails
    within the rounds allowed: if some diagonal of the wavefront is terminal
    the call answers true with the status "successful", whatever the
    heuristic strategy, and the diagonal it records is terminal; if none
    is, the call goes on to the cut-off with every diagonal extended. *)
Theorem custom_endsfree_orchestrator_outcome (fuel : nat)
    (wf_aligner : wavefront_aligner_t) (score : Z) (mwavefront : wavefront_t) :
  span (alignment_form wf_aligner) = alignment_endsfree ->
  mwavefronts (wf_components wf_aligner) (modular_score wf_aligner score)
    = Some mwavefront ->
  covers wf_aligner mwavefront ->
  defined_on (custom_kernel fuel wf_aligner) mwavefront
    (lo mwavefront) (hi mwavefront) ->
  ((exists k, lo mwavefront <= k <= hi mwavefront /\
      terminal_at (custom_kernel fuel wf_aligner) wf_aligner mwavefront k) ->
   exists mwavefront',
     wavefront_extend_custom fuel wf_aligner score
       = Some (true,
               set_status
                 (store_mwavefront wf_aligner (modular_score wf_aligner score)
                    mwavefront')
                 WF_STATUS_SUCCESSFUL) /\
     lo mwavefront <= k_alignment_end mwavefront' <= hi mwavefront /\
     terminal_at (custom_kernel fuel wf_aligner)
       wf_aligner mwavefront (k_alignment_end mwavefront')) /\
  ((forall k, lo mwavefront <= k <= hi mwavefront ->
      ~ terminal_at (custom_kernel fuel wf_aligner) wf_aligner mwavefront k) ->
   wavefront_extend_custom fuel wf_aligner score
     = epilogue wf_aligner (modular_score wf_aligner score)
         (false,
          {| lo := lo mwavefront; hi := hi mwavefront;
             offsets :=
               extend_offsets (custom_kernel fuel wf_aligner)
                 mwavefront (lo mwavefront) (hi mwavefront);
             k_alignment_end := k_alignment_end mwavefront |})).
Proof.
  intros Hs Hw Hc Hd.
  rewrite wavefront_extend_custom_eq. unfold orchestrate. cbv zeta. rewrite Hw.
  unfold custom_phase. cbv zeta. rewrite Hs. simpl alignment_span_eqb.
  simpl negb. cbv iota.
  destruct (dispatch_defined _ true _ _ Hc Hd) as [[b w'] Hr].
  rewrite Hr. simpl bind.
  destruct (dispatch_spec _ _ _ _ _ _ Hc Hr) as (H1 & H2 & H3 & H4 & H5).
  split.
  - intros (j & Hj & Ht). destruct b.
    + exists w'. destruct (H5 eq_refl) as (_ & Hk & Hterm).
      split; [reflexivity|]. split; [exact Hk|exact Hterm].
    + exfalso. destruct (H4 eq_refl) as [_ Hx].
      exact (extended_not_terminal _ _ _ _ _ (Hx j Hj) Ht).
  - intros Hno. destruct b.
    + exfalso. destruct (H5 eq_refl) as (_ & Hk & Hterm). exact (Hno _ Hk Hterm).
    + rewrite (dispatch_false_canonical _ _ _ _ _ Hc Hr). reflexivity.
Qed.

Lemma grows_refl w : grows w w.
Proof. unfold grows. repeat split; auto. intros k. lia. Qed.

Lemma grows_trans w1 w2 w3 : grows w1 w2 -> grows w2 w3 -> grows w1 w3.
Proof.
  unfold grows. intros (A1 & A2 & A3) (B1 & B2 & B3).
  split; [congruence|]. split; [congruence|].
  intros k. specialize (A3 k). specialize (B3 k). lia.
Qed.

Lemma omp_parallel_grows body :
  (forall t w r, body t w = Some r -> grows w (snd r)) ->
  forall schedule b w r, omp_parallel body schedule b w = Some r -> grows w (snd r).
Proof.
  intros Hbody. induction schedule as [|t rest IH]; intros b w r; simpl.
  - intros [= <-]. apply grows_refl.
  - destruct (body t w) as [[b1 w1]|] eqn:E; simpl bind; [|discriminate].
    intros H. apply IH in H. apply Hbody in E. simpl in E.
    exact (grows_trans _ _ _ E H).
Qed.

Lemma extend_for_grows ext ef n a w k r :
  (forall j o o', ext j o = Some o' -> o <= o') ->
  extend_for ext ef n a w k = Some r -> grows w (snd r).
Proof.
  intros Hext H. pose proof (extend_for_monotone _ _ Hext _ _ _ _ _ H) as Hm.
  destruct r as [b w']. apply extend_for_frame in H.
  destruct H as (H1 & H2 & _). unfold grows. auto.
Qed.

Lemma dispatch_grows ext ef a w r :
  (forall j o o', ext j o = Some o' -> o <= o') ->
  dispatch ext ef a w = Some r -> grows w (snd r).
Proof.
  intros Hext. unfold dispatch. cbv zeta. destruct (_ =? 1).
  - apply extend_for_grows. exact Hext.
  - destruct WFA_PARALLEL.
    + apply omp_parallel_grows. intros t w1 r1.
      destruct (wavefront_compute_thread_limits _ _ _ _).
      apply extend_for_grows. exact Hext.
    + intros [= <-]. apply grows_refl.
Qed.

Lemma end2end_check_grows a w :
  grows w (snd (wavefront_extend_end2end_check_termination a w)).
Proof.
  unfold wavefront_extend_end2end_check_termination. cbv zeta.
  destruct (_ || _); [apply grows_refl|].
  destruct (_ <? _); [apply grows_refl|].
  unfold grows. simpl. repeat split; auto. intros k. lia.
Qed.

Lemma orchestrate_grows phase a score w r :
  (forall r0, phase a w = Some r0 -> grows w (snd r0)) ->
  mwavefronts (wf_components a) (modular_score a score) = Some w ->
  strategy a = wf_heuristic_none ->
  orchestrate phase a score = Some r ->
  exists w', mwavefronts (wf_components (snd r)) (modular_score a score) = Some w' /\
             grows w w'.
Proof.
  intros Hp Hw Hs. unfold orchestrate. cbv zeta. rewrite Hw.
  destruct (phase a w) as [r0|] eqn:E; simpl bind; [|discriminate].
  rewrite (epilogue_none_strategy _ _ _ Hs). intros [= <-].
  exists (snd r0). split; [|apply Hp; reflexivity].
  simpl snd. destruct (fst r0); simpl; rewrite Z.eqb_refl; reflexivity.
Qed.

(** X25: without a heuristic strategy, a call of an orchestrator leaves
    at the index of the score a wavefront with the range it had and with
    no offset smaller than it was: whatever the number of workers, the
    ranges they get and their order, no diagonal is added or dropped and no
    offset moves backwards. *)
Theorem orchestrators_keep_range_and_never_decrease (fuel : nat)
    (wf_aligner : wavefront_aligner_t) (score : Z) (mwavefront : wavefront_t) :
  mwavefronts (wf_components wf_aligner) (modular_score wf_aligner score)
    = Some mwavefront ->
  strategy wf_aligner = wf_heuristic_none ->
  forall r,
    wavefront_extend_end2end wf_aligner score = Some r \/
    wavefront_extend_endsfree wf_aligner score = Some r \/
    wavefront_extend_custom fuel wf_aligner score = Some r ->
    exists mwavefront',
      mwavefronts (wf_components (snd r)) (modular_score wf_aligner score)
        = Some mwavefront' /\
      lo mwavefront' = lo mwavefront /\ hi mwavefront' = hi mwavefront /\
      forall k, offsets mwavefront k <= offsets mwavefront' k.
Proof.
  intros Hw Hs r.
  rewrite wavefront_extend_end2end_eq, wavefront_extend_endsfree_eq,
    wavefront_extend_custom_eq.
  intros [H|[H|H]];
    (eapply orchestrate_grows in H; [exact H| |exact Hw|exact Hs]).
  - intros r0. unfold end2end_phase.
    destruct (dispatch _ false wf_aligner mwavefront) as [r1|] eqn:E; simpl bind;
      [|discriminate].
    apply dispatch_grows in E; [|apply packed_kernel_monotone].
    destruct (dispatches _ _); intros [= <-]; [|exact E].
    exact (grows_trans _ _ _ E (end2end_check_grows _ _)).
  - intros r0. unfold endsfree_phase. apply dispatch_grows.
    apply packed_kernel_monotone.
  - intros r0. unfold custom_phase. cbv zeta.
    destruct (dispatch _ _ wf_aligner mwavefront) as [r1|] eqn:E; simpl bind;
      [|discriminate].
    apply dispatch_grows in E; [|apply custom_kernel_monotone].
    destruct (negb _); intros [= <-]; [|exact E].
    exact (grows_trans _ _ _ E (end2end_check_grows _ _)).
Qed.

Lemma load_uint64_high p x :
  load_uint64 p = Some x -> forall j, 64 <= j -> Z.testbit x j = false.
Proof.
  unfold load_uint64.
  set (bs := firstn 8 (skipn (Z.to_nat (pos p)) (buffer p))).
  assert (Hl : (length bs <= 8)%nat) by apply firstn_le_length.
  clearbody bs.
  destruct (_ && _); [|discriminate]. intros [= <-] j Hj.
  rewrite le_combine_testbit by lia.
  destruct (nth_error bs (Z.to_nat (j / 8))) eqn:E; [|reflexivity].
  assert (Hs : nth_error bs (Z.to_nat (j / 8)) <> None) by (rewrite E; discriminate).
  apply nth_error_Some in Hs.
  assert (8 <= j / 8) by (apply Z.div_le_lower_bound; lia). lia.
Qed.

Lemma lxor_loads_high pp tp p t :
  load_uint64 pp = Some p -> load_uint64 tp = Some t ->
  forall j, 64 <= j -> Z.testbit (Z.lxor p t) j = false.
Proof.
  intros Hp Ht j Hj. rewrite Z.lxor_spec.
  rewrite (load_uint64_high _ _ Hp j Hj), (load_uint64_high _ _ Ht j Hj).
  reflexivity.
Qed.

Lemma ctz_block_range cmp :
  cmp <> 0 -> (forall j, 64 <= j -> Z.testbit cmp j = false) ->
  0 <= DIV_FLOOR (__builtin_ctzl cmp) 8 < 8.
Proof.
  intros Hnz Hhigh. unfold DIV_FLOOR, __builtin_ctzl.
  destruct (ctz_from_spec 64 0 cmp) as (Hr & Hlow & _).
  assert (Hlt : ctz_from 64 0 cmp < 64).
  { destruct (Z_lt_ge_dec (ctz_from 64 0 cmp) 64) as [Hlt|Hge]; [exact Hlt|].
    exfalso. apply Hnz. apply Z.bits_inj_0. intros j.
    destruct (Z_lt_ge_dec j 0) as [Hneg|Hpos]; [apply Z.testbit_neg_r; exact Hneg|].
    destruct (Z_lt_ge_dec j 64) as [Hj|Hj]; [apply Hlow; lia|apply Hhigh; lia]. }
  split; [apply Z.div_pos; lia|apply Z.div_lt_upper_bound; lia].
Qed.

Lemma packed_kernel_while_result : forall fuel pp tp cmp offset cmp' offset',
  (forall j, 64 <= j -> Z.testbit cmp j = false) ->
  packed_kernel_while fuel pp tp cmp offset = Some (cmp', offset') ->
  cmp' <> 0 /\ (forall j, 64 <= j -> Z.testbit cmp' j = false) /\
  exists q : nat, offset' = offset + 8 * Z.of_nat q.
Proof.
  induction fuel as [|fuel IH]; intros pp tp cmp offset cmp' offset' Hhigh;
    simpl packed_kernel_while; destruct (Z.eqb_spec cmp 0) as [Hz|Hnz];
    try discriminate.
  - intros [= <- <-]. split; [exact Hnz|]. split; [exact Hhigh|].
    exists 0%nat. lia.
  - destruct (load_uint64 (ptr_add pp 8)) as [p|] eqn:Ep; simpl bind; [|discriminate].
    destruct (load_uint64 (ptr_add tp 8)) as [t|] eqn:Et; simpl bind; [|discriminate].
    intros H. apply IH in H; [|exact (lxor_loads_high _ _ _ _ Ep Et)].
    destruct H as (H1 & H2 & q & Hq).
    split; [exact H1|]. split; [exact H2|]. exists (S q). lia.
  - intros [= <- <-]. split; [exact Hnz|]. split; [exact Hhigh|].
    exists 0%nat. lia.
Qed.

(** X26: the count of trailing zeros is never taken of zero, where the
    builtin is undefined: the loop of the kernel ends on a comparison word
    that is not zero.  The kernel returns an offset exactly when, after [q]
    blocks read inside the buffers and found equal, block [q] is read inside
    the buffers and differs; the offset is then the offset it got plus eight
    times [q] plus the count of trailing zeros of the comparison word of
    block [q] divided by eight, which is between zero and seven. *)
Theorem packed_kernel_ctz_defined (wf_aligner : wavefront_aligner_t)
    (k : Z) (offset offset' : wf_offset_t) :
  let pattern_blocks := ptr_add (pattern wf_aligner) (WAVEFRONT_V k offset) in
  let text_blocks := ptr_add (text wf_aligner) (WAVEFRONT_H k offset) in
  (forall fuel pp tp p t cmp o,
     load_uint64 pp = Some p -> load_uint64 tp = Some t ->
     packed_kernel_while fuel pp tp (Z.lxor p t) offset = Some (cmp, o) ->
     cmp <> 0 /\ 0 <= DIV_FLOOR (__builtin_ctzl cmp) 8 < 8) /\
  (wavefront_extend_matches_packed_kernel wf_aligner k offset = Some offset' <->
   exists (q : nat) (p t : Z),
     equal_blocks pattern_blocks text_blocks q /\
     load_uint64 (ptr_add pattern_blocks (8 * Z.of_nat q)) = Some p /\
     load_uint64 (ptr_add text_blocks (8 * Z.of_nat q)) = Some t /\
     Z.lxor p t <> 0 /\
     0 <= DIV_FLOOR (__builtin_ctzl (Z.lxor p t)) 8 < 8 /\
     offset' = offset + 8 * Z.of_nat q + DIV_FLOOR (__builtin_ctzl (Z.lxor p t)) 8).
Proof.
  cbv zeta. split.
  - intros fuel pp tp p t cmp o Hp Ht H.
    apply packed_kernel_while_result in H; [|exact (lxor_loads_high _ _ _ _ Hp Ht)].
    destruct H as (Hnz & Hhigh & _).
    split; [exact Hnz|apply ctz_block_range; assumption].
  - unfold wavefront_extend_matches_packed_kernel. cbv zeta.
    set (pp := ptr_add (pattern wf_aligner) (WAVEFRONT_V k offset)).
    set (tp := ptr_add (text wf_aligner) (WAVEFRONT_H k offset)).
    assert (H0 : forall x, load_uint64 (ptr_add x (8 * Z.of_nat 0)) = load_uint64 x).
    { intros x. unfold load_uint64, ptr_add. simpl. rewrite Z.add_0_r. reflexivity. }
    assert (Epp : pp = ptr_add pp (8 * Z.of_nat 0)) by apply ptr_add_zero.
    assert (Etp : tp = ptr_add tp (8 * Z.of_nat 0)) by apply ptr_add_zero.
    split.
    + destruct (load_uint64 pp) as [p0|] eqn:Ep; simpl bind; [|discriminate].
      destruct (load_uint64 tp) as [t0|] eqn:Et; simpl bind; [|discriminate].
      destruct (packed_kernel_while _ pp tp _ _) as [[cmp o]|] eqn:Ew;
        simpl bind; [|discriminate].
      intros [= <-]. rewrite Epp, Etp in Ew at 1.
      apply packed_kernel_while_trace in Ew.
      destruct Ew as (q & _ & Ho & Hnz & Hsame & Hmore).
      destruct (Nat.eq_dec q 0) as [->|Hq].
      * exists 0%nat, p0, t0. rewrite (Hsame eq_refl) in Hnz |- *. rewrite !H0.
        split; [intros i Hi; lia|]. split; [exact Ep|]. split; [exact Et|].
        split; [exact Hnz|].
        split; [apply ctz_block_range;
                [exact Hnz|exact (lxor_loads_high _ _ _ _ Ep Et)]|].
        rewrite Ho. lia.
      * destruct Hmore as (Hc & Heq & p & t & Hp & Ht & ->); [lia|].
        exists q, p, t.
        split.
        { intros i Hi. destruct (Nat.eq_dec i 0) as [->|Hi0].
          - exists p0, t0. rewrite !H0. auto.
          - apply Heq. lia. }
        split; [exact Hp|]. split; [exact Ht|]. split; [exact Hnz|].
        split; [apply ctz_block_range;
                [exact Hnz|exact (lxor_loads_high _ _ _ _ Hp Ht)]|].
        rewrite Ho. lia.
    + intros (q & p & t & Heq & Hp & Ht & Hnz & _ & ->).
      assert (Hfirst : exists p0 t0, load_uint64 pp = Some p0 /\
                load_uint64 tp = Some t0 /\
                (q = 0%nat -> Z.lxor p0 t0 = Z.lxor p t) /\
                ((0 < q)%nat -> Z.lxor p0 t0 = 0)).
      { destruct (Nat.eq_dec q 0) as [->|Hq].
        - exists p, t. rewrite !H0 in Hp, Ht. repeat split; auto. lia.
        - destruct (Heq 0%nat) as (p0 & t0 & Hp0 & Ht0 & Hx); [lia|].
          rewrite !H0 in Hp0, Ht0. exists p0, t0. repeat split; auto. lia. }
      destruct Hfirst as (p0 & t0 & Hp0 & Ht0 & Hq0 & Hq1).
      rewrite Hp0, Ht0. cbv beta iota delta [bind].
      rewrite Epp, Etp at 1.
      rewrite (packed_kernel_while_run pp tp _ 0 q _ _ p t); try assumption.
      * cbv beta iota delta [bind]. f_equal.
        set (c := DIV_FLOOR _ _). lia.
      * lia.
      * apply load_uint64_pos in Hp. apply load_uint64_pos in Hp0.
        unfold pp, ptr_add in Hp, Hp0. cbn [pos buffer] in Hp, Hp0. lia.
      * intros Hlt. split; [apply Hq1; exact Hlt|]. intros i Hi. apply Heq. lia.
Qed.

(** X27: an end-to-end success is an ends-free success.  On a wavefront
    whose diagonals are all dispatched, with the kernel reading inside its
    buffers, allowances that are not negative and a NULL offset below the
    length of the text: when the end-to-end orchestrator answers true with
    the status "successful", so does the ends-free orchestrator. *)
Theorem end2end_success_implies_endsfree_success (wf_aligner : wavefront_aligner_t)
    (score : Z) (mwavefront : wavefront_t) :
  mwavefronts (wf_components wf_aligner) (modular_score wf_aligner score)
    = Some mwavefront ->
  covers wf_aligner mwavefront ->
  defined_on (wavefront_extend_matches_packed_kernel wf_aligner) mwavefront
    (lo mwavefront) (hi mwavefront) ->
  0 <= pattern_end_free (alignment_form wf_aligner) ->
  0 <= text_end_free (alignment_form wf_aligner) ->
  WAVEFRONT_OFFSET_NULL < text_length wf_aligner ->
  final_verdict (wavefront_extend_end2end wf_aligner score)
    = Some (true, WF_STATUS_SUCCESSFUL) ->
  final_verdict (wavefront_extend_endsfree wf_aligner score)
    = Some (true, WF_STATUS_SUCCESSFUL).
Proof.
  intros Hw Hc Hd Hp Ht Hnull.
  set (ext := wavefront_extend_matches_packed_kernel wf_aligner) in *.
  rewrite wavefront_extend_end2end_eq, wavefront_extend_endsfree_eq.
  unfold orchestrate. cbv zeta. rewrite Hw.
  unfold end2end_phase, endsfree_phase. fold ext.
  destruct (dispatch_defined ext false _ _ Hc Hd) as [[b1 w1] Hr1].
  pose proof (dispatch_nocheck_false _ _ _ _ Hr1) as Hb. simpl in Hb. subst b1.
  rewrite Hr1. simpl bind. rewrite (covers_runs _ _ Hc). simpl snd.
  destruct (dispatch_spec _ _ _ _ _ _ Hc Hr1) as (L1 & L2 & _ & L4 & _).
  destruct (L4 eq_refl) as [_ Hx1].
  set (ak := WAVEFRONT_DIAGONAL (text_length wf_aligner) (pattern_length wf_aligner)).
  assert (Hterm : fst (wavefront_extend_end2end_check_termination wf_aligner w1) = true
                  -> terminal_at ext wf_aligner mwavefront ak /\
                     lo mwavefront <= ak <= hi mwavefront).
  { unfold wavefront_extend_end2end_check_termination. cbv zeta. fold ak.
    rewrite L1, L2.
    destruct (Z.gtb_spec (lo mwavefront) ak); simpl orb; [discriminate|].
    destruct (Z.gtb_spec ak (hi mwavefront)); simpl orb; [discriminate|].
    destruct (Z.ltb_spec (offsets w1 ak)
                (WAVEFRONT_OFFSET (text_length wf_aligner) (pattern_length wf_aligner)))
      as [Hlt|Hge]; [discriminate|]. intros _.
    assert (Hak : lo mwavefront <= ak <= hi mwavefront) by lia.
    split; [|exact Hak].
    specialize (Hx1 ak Hak). unfold extended_at in Hx1.
    unfold WAVEFRONT_OFFSET in Hge.
    destruct (Z.eqb_spec (offsets mwavefront ak) WAVEFRONT_OFFSET_NULL) as [En|En].
    - exfalso. rewrite Hx1, En in Hge. lia.
    - destruct Hx1 as [Hx1 _]. split; [exact En|].
      exists (offsets w1 ak). split; [exact Hx1|].
      unfold endsfree_terminal, WAVEFRONT_H, WAVEFRONT_V.
      apply orb_true_iff. left. apply andb_true_iff. split.
      + apply Z.geb_le. lia.
      + apply Z.leb_le.
        assert (Hakv : ak = text_length wf_aligner - pattern_length wf_aligner)
          by reflexivity.
        lia. }
  destruct (wavefront_extend_end2end_check_termination wf_aligner w1) as [b2 w2].
  simpl fst in Hterm. simpl bind.
  intros Hv.
  assert (Hb2 : b2 = true).
  { destruct b2; [reflexivity|]. exfalso. revert Hv.
    unfold epilogue. simpl fst. simpl snd. cbv zeta. cbv iota.
    destruct (negb _); [|discriminate].
    destruct (fst _); discriminate. }
  destruct (Hterm Hb2) as [Hta Hak].
  destruct (dispatch_defined ext true _ _ Hc Hd) as [[b3 w3] Hr3].
  rewrite Hr3. simpl bind.
  destruct (dispatch_spec _ _ _ _ _ _ Hc Hr3) as (_ & _ & _ & M4 & _).
  destruct b3; [reflexivity|].
  exfalso. destruct (M4 eq_refl) as [_ Hx3].
  exact (extended_not_terminal _ _ _ _ _ (Hx3 ak Hak) Hta).
Qed.

(** * The diagonals a checking dispatcher extends *)

Lemma extended_at_weaken ext ef a w w' j :
  extended_at ext ef a w w' j -> extended_at ext false a w w' j.
Proof.
  unfold extended_at. destruct (_ =? _); [auto|].
  intros [H _]. split; [exact H|discriminate].
Qed.

Lemma extended_at_unique ext a w w1 w2 j :
  extended_at ext false a w w1 j -> extended_at ext false a w w2 j ->
  offsets w2 j = offsets w1 j.
Proof.
  unfold extended_at. destruct (_ =? _); [congruence|].
  intros [H1 _] [H2 _]. congruence.
Qed.

Lemma extended_at_source ext ef a w w0 w' j :
  offsets w0 j = offsets w j ->
  extended_at ext ef a w0 w' j -> extended_at ext ef a w w' j.
Proof. unfold extended_at. intros ->. auto. Qed.

Lemma extended_at_result ext ef a w w1 w' j :
  offsets w' j = offsets w1 j ->
  extended_at ext ef a w w1 j -> extended_at ext ef a w w' j.
Proof. unfold extended_at. intros ->. auto. Qed.

Lemma terminal_at_source ext a w w0 j :
  offsets w0 j = offsets w j -> terminal_at ext a w j -> terminal_at ext a w0 j.
Proof. unfold terminal_at. intros ->. auto. Qed.

Lemma terminal_extended ext a w w' j :
  terminal_at ext a w j -> ext j (offsets w j) = Some (offsets w' j) ->
  extended_at ext false a w w' j.
Proof.
  intros [Hn _] Hx. unfold extended_at. apply Z.eqb_neq in Hn. rewrite Hn.
  split; [exact Hx|discriminate].
Qed.

(** What one worker extends: every diagonal of its sub-range that has no
    terminal diagonal of the sub-range before it; whatever it touches, it
    extends; when it answers true, the diagonal it records is the first
    terminal one of its sub-range and the later ones are as they were. *)
Lemma worker_trace ext ef a rng t w r w1 :
  worker ext ef a rng t w = Some (r, w1) ->
  (forall j, fst (rng t) <= j <= snd (rng t) ->
     (forall i, fst (rng t) <= i < j -> ~ terminal_at ext a w i) ->
     extended_at ext false a w w1 j) /\
  (forall j, offsets w1 j = offsets w j \/ extended_at ext false a w w1 j) /\
  (r = true ->
     (forall i, fst (rng t) <= i < k_alignment_end w1 -> ~ terminal_at ext a w i) /\
     (forall j, k_alignment_end w1 < j -> offsets w1 j = offsets w j)).
Proof.
  unfold worker, extend_range. destruct (rng t) as [t_lo t_hi]. simpl fst. simpl snd.
  intros H. pose proof (range_size_spec t_lo t_hi) as Hn.
  pose proof (extend_for_frame _ _ _ _ _ _ _ _ H) as (_ & _ & Hout & _).
  destruct r.
  - destruct (extend_for_true _ _ _ _ _ _ _ H)
      as (He & j0 & Hj0 & Ht & Hx & Hk & Hb & Ha).
    subst ef. rewrite Hk.
    split; [|split].
    + intros j Hj Hno.
      destruct (Z_lt_le_dec j0 j) as [Hlt|Hle];
        [exfalso; apply (Hno j0); [lia|exact Ht]|].
      destruct (Z.eq_dec j j0) as [->|Hne];
        [exact (terminal_extended _ _ _ _ _ Ht Hx)|].
      apply (extended_at_weaken _ true). apply Hb. lia.
    + intros j. destruct (Z_lt_le_dec j t_lo) as [H1|H1]; [left; apply Hout; lia|].
      destruct (Z_lt_le_dec j0 j) as [H2|H2]; [left; apply Ha; exact H2|].
      right. destruct (Z.eq_dec j j0) as [->|Hne];
        [exact (terminal_extended _ _ _ _ _ Ht Hx)|].
      apply (extended_at_weaken _ true). apply Hb. lia.
    + intros _. split; [|exact Ha].
      intros i Hi. apply (extended_not_terminal _ _ _ w1). apply Hb. lia.
  - pose proof (extend_for_false _ _ _ _ _ _ _ H) as Hx.
    split; [|split; [|discriminate]].
    + intros j Hj _. apply (extended_at_weaken _ ef). apply Hx. lia.
    + intros j. destruct (Z_lt_le_dec j t_lo) as [H1|H1]; [left; apply Hout; lia|].
      destruct (Z_lt_le_dec t_hi j) as [H2|H2]; [left; apply Hout; lia|].
      right. apply (extended_at_weaken _ ef). apply Hx. lia.
Qed.

(** The same for the team: a diagonal with no terminal diagonal of its
    sub-range before it is extended, in whatever order the workers run. *)
Lemma omp_parallel_trace ext ef a rng : forall schedule b0 w b w',
  NoDup schedule ->
  (forall t1 t2 j, In t1 schedule -> In t2 schedule ->
     fst (rng t1) <= j <= snd (rng t1) -> fst (rng t2) <= j <= snd (rng t2) ->
     t1 = t2) ->
  omp_parallel (worker ext ef a rng) schedule b0 w = Some (b, w') ->
  (forall t j, In t schedule -> fst (rng t) <= j <= snd (rng t) ->
     (forall i, fst (rng t) <= i < j -> ~ terminal_at ext a w i) ->
     extended_at ext false a w w' j) /\
  (forall j, offsets w' j = offsets w j \/ extended_at ext false a w w' j).
Proof.
  induction schedule as [|t rest IH]; intros b0 w b w' Hnd Hdis; simpl omp_parallel.
  - intros [= <- <-]. split; [intros t j []|]. intros j. left. reflexivity.
  - destruct (worker ext ef a rng t w) as [[r w1]|] eqn:Ew;
      cbv beta iota delta [bind]; [|discriminate].
    intros H.
    inversion Hnd as [|? ? Hnotin Hnd']; subst.
    assert (Hdis' : forall t1 t2 j, In t1 rest -> In t2 rest ->
              fst (rng t1) <= j <= snd (rng t1) -> fst (rng t2) <= j <= snd (rng t2) ->
              t1 = t2).
    { intros t1 t2 j H1 H2. apply Hdis; right; assumption. }
    destruct (IH _ _ _ _ Hnd' Hdis' H) as [A B].
    destruct (omp_parallel_workers _ _ _ _ _ _ _ _ _ Hnd' Hdis' H)
      as (_ & _ & F2 & _).
    destruct (worker_spec _ _ _ _ _ _ _ _ Ew) as (_ & _ & F1 & _).
    destruct (worker_trace _ _ _ _ _ _ _ _ Ew) as (T1 & T2 & _).
    assert (Hother : forall t' j, In t' rest ->
              fst (rng t') <= j <= snd (rng t') ->
              ~ (fst (rng t) <= j <= snd (rng t))).
    { intros t' j Ht' Hj Hjt.
      assert (t = t')
        by (apply (Hdis t t' j);
            [left; reflexivity|right; exact Ht'|exact Hjt|exact Hj]).
      subst. contradiction. }
    assert (Hkeep : forall j, fst (rng t) <= j <= snd (rng t) ->
              offsets w' j = offsets w1 j).
    { intros j Hj. apply F2. intros t' Ht' Hjt'. exact (Hother t' j Ht' Hjt' Hj). }
    split.
    + intros t0 j [<-|Ht0] Hj Hno.
      * apply (extended_at_result _ _ _ _ w1); [apply Hkeep; exact Hj|].
        apply T1; assumption.
      * apply (extended_at_source _ _ _ _ w1); [apply F1; exact (Hother _ _ Ht0 Hj)|].
        apply (A t0 j Ht0 Hj). intros i Hi Hti. apply (Hno i Hi).
        assert (Hi' : fst (rng t0) <= i <= snd (rng t0)) by lia.
        destruct Hti as [Hn (o & Ho & Hto)].
        rewrite (F1 i (Hother _ _ Ht0 Hi')) in Hn, Ho.
        split; [exact Hn|]. exists o. auto.
    + intros j.
      destruct (Z_le_dec (fst (rng t)) j) as [H1|H1];
        [destruct (Z_le_dec j (snd (rng t))) as [H2|H2]|].
      * rewrite (Hkeep j (conj H1 H2)).
        destruct (T2 j) as [E|E]; [left; exact E|right].
        apply (extended_at_result _ _ _ _ w1); [apply Hkeep; auto|exact E].
      * assert (E1 : offsets w1 j = offsets w j) by (apply F1; lia).
        destruct (B j) as [E|E]; [left; congruence|right].
        apply (extended_at_source _ _ _ _ w1); assumption.
      * assert (E1 : offsets w1 j = offsets w j) by (apply F1; lia).
        destruct (B j) as [E|E]; [left; congruence|right].
        apply (extended_at_source _ _ _ _ w1); assumption.
Qed.

(** The same for a dispatcher that covers the range: every diagonal up to
    and including the first terminal one is extended. *)
Lemma dispatch_trace ext ef a w b w' :
  covers a w ->
  dispatch ext ef a w = Some (b, w') ->
  (forall j, lo w <= j <= hi w ->
     (forall i, lo w <= i < j -> ~ terminal_at ext a w i) ->
     extended_at ext false a w w' j) /\
  (forall j, offsets w' j = offsets w j \/ extended_at ext false a w w' j).
Proof.
  unfold covers, dispatch. cbv zeta.
  set (n := wavefront_compute_num_threads a (lo w) (hi w)).
  intros Hc.
  assert (Hone : extend_range ext ef a w (lo w) (hi w) = Some (b, w') ->
            (forall j, lo w <= j <= hi w ->
               (forall i, lo w <= i < j -> ~ terminal_at ext a w i) ->
               extended_at ext false a w w' j) /\
            (forall j, offsets w' j = offsets w j \/ extended_at ext false a w w' j)).
  { change (extend_range ext ef a w (lo w) (hi w))
      with (worker ext ef a (fun _ => (lo w, hi w)) 0 w).
    intros H. destruct (worker_trace _ _ _ _ _ _ _ _ H) as (T1 & T2 & _).
    split; [exact T1|exact T2]. }
  destruct (n =? 1) eqn:En; [exact Hone|].
  destruct Hc as [Hc|(Hpar & (P1 & P2 & P3) & Hperm)];
    [apply Z.eqb_neq in En; contradiction|].
  rewrite Hpar. intros H.
  change (omp_parallel
            (worker ext ef a
               (fun t => wavefront_compute_thread_limits t n (lo w) (hi w)))
            (omp_schedule n) false w = Some (b, w')) in H.
  assert (Hin : forall t, In t (omp_schedule n) <-> 0 <= t < n).
  { intros t. rewrite <- thread_nums_in. split; apply Permutation_in;
      [exact Hperm|apply Permutation_sym; exact Hperm]. }
  apply omp_parallel_trace in H.
  - destruct H as [A B]. split; [|exact B].
    intros j Hj Hno. destruct (P2 j Hj) as (t & Ht & Hjt).
    apply (A t j); [apply Hin; exact Ht|exact Hjt|].
    intros i Hi. apply Hno.
    assert (lo w <= i <= hi w) by (apply (P1 t i Ht); lia). lia.
  - apply (Permutation_NoDup (Permutation_sym Hperm)). apply thread_nums_nodup.
  - intros t1 t2 j Ht1 Ht2. apply P3; apply Hin; assumption.
Qed.

(** One worker that stops has recorded the first terminal diagonal of the
    range and left the later diagonals as they were. *)
Lemma dispatch_one_worker_first ext ef a w w' :
  wavefront_compute_num_threads a (lo w) (hi w) = 1 ->
  dispatch ext ef a w = Some (true, w') ->
  (forall i, lo w <= i < k_alignment_end w' -> ~ terminal_at ext a w i) /\
  (forall j, k_alignment_end w' < j -> offsets w' j = offsets w j).
Proof.
  unfold dispatch. cbv zeta. intros ->. simpl (1 =? 1).
  change (extend_range ext ef a w (lo w) (hi w))
    with (worker ext ef a (fun _ => (lo w, hi w)) 0 w).
  intros H. destruct (worker_trace _ _ _ _ _ _ _ _ H) as (_ & _ & T3).
  exact (T3 eq_refl).
Qed.

(** Two dispatchers that cover the range, the first with one worker, on a
    wavefront with a terminal diagonal. *)
Lemma dispatch_agree_to_first_terminal ext a w w1 w2 :
  wavefront_compute_num_threads a (lo w) (hi w) = 1 ->
  dispatch ext true a w = Some (true, w1) ->
  (lo w2 = lo w /\ hi w2 = hi w /\
   (forall j, j < lo w \/ hi w < j -> offsets w2 j = offsets w j) /\
   lo w <= k_alignment_end w2 <= hi w /\
   terminal_at ext a w (k_alignment_end w2)) ->
  ((forall j, lo w <= j <= hi w ->
      (forall i, lo w <= i < j -> ~ terminal_at ext a w i) ->
      extended_at ext false a w w2 j) /\
   (forall j, offsets w2 j = offsets w j \/ extended_at ext false a w w2 j)) ->
  agree_to_first_terminal ext a w w1 w2.
Proof.
  intros Hone H1 (L2 & U2 & O2 & K2 & T2) (A2 & B2).
  assert (C1 : covers a w) by (left; exact Hone).
  destruct (dispatch_spec _ _ _ _ _ _ C1 H1) as (L1 & U1 & O1 & _ & S1).
  destruct (S1 eq_refl) as (_ & K1 & T1).
  destruct (dispatch_trace _ _ _ _ _ _ C1 H1) as (A1 & _).
  destruct (dispatch_one_worker_first _ _ _ _ _ Hone H1) as (F1 & R1).
  unfold agree_to_first_terminal.
  split; [exact L1|]. split; [exact U1|]. split; [exact L2|]. split; [exact U2|].
  split; [exact K1|]. split; [exact T1|]. split; [exact F1|].
  assert (Hle : k_alignment_end w1 <= k_alignment_end w2).
  { destruct (Z_le_gt_dec (k_alignment_end w1) (k_alignment_end w2)) as [H|H];
      [exact H|].
    exfalso. apply (F1 (k_alignment_end w2)); [lia|exact T2]. }
  split; [lia|]. split; [exact T2|].
  assert (Hup : forall j, lo w <= j <= k_alignment_end w1 ->
            forall i, lo w <= i < j -> ~ terminal_at ext a w i).
  { intros j Hj i Hi. apply F1. lia. }
  split; [|split; [|split]].
  - intros j Hj. destruct (Z_lt_le_dec j (lo w)) as [Hlt|Hge].
    + rewrite O1, O2 by lia. reflexivity.
    + assert (Hj' : lo w <= j <= k_alignment_end w1) by lia.
      apply (extended_at_unique ext a w).
      * apply A1; [lia|exact (Hup j Hj')].
      * apply A2; [lia|exact (Hup j Hj')].
  - intros j Hj. apply A1; [lia|exact (Hup j Hj)].
  - intros j [Hj|Hj]; [apply O1; lia|apply R1; exact Hj].
  - intros j _. apply B2.
Qed.


(** * The wavefront an orchestrator fetches and stores back *)

Lemma end2end_phase_grows a w :
  forall r, end2end_phase a w = Some r -> grows w (snd r).
Proof.
  intros r. unfold end2end_phase.
  destruct (dispatch _ false a w) as [r1|] eqn:E; cbv beta iota delta [bind];
    [|discriminate].
  apply dispatch_grows in E; [|apply packed_kernel_monotone].
  destruct (dispatches _ _); intros [= <-]; [|exact E].
  exact (grows_trans _ _ _ E (end2end_check_grows _ _)).
Qed.

Lemma endsfree_phase_grows a w :
  forall r, endsfree_phase a w = Some r -> grows w (snd r).
Proof.
  intros r. unfold endsfree_phase. apply dispatch_grows.
  apply packed_kernel_monotone.
Qed.

Lemma custom_phase_grows fuel a w :
  forall r, custom_phase fuel a w = Some r -> grows w (snd r).
Proof.
  intros r. unfold custom_phase. cbv zeta.
  destruct (dispatch _ _ a w) as [r1|] eqn:E; cbv beta iota delta [bind];
    [|discriminate].
  apply dispatch_grows in E; [|apply custom_kernel_monotone].
  destruct (negb _); intros [= <-]; [|exact E].
  exact (grows_trans _ _ _ E (end2end_check_grows _ _)).
Qed.

(** A call that finds a wavefront at the reduced index and ends with the
    status "successful", or without heuristic strategy, has stored the
    wavefront of its phase at the reduced index. *)
Lemma orchestrate_stored phase a score w res :
  (forall r0, phase a w = Some r0 -> grows w (snd r0)) ->
  mwavefronts (wf_components a) (modular_score a score) = Some w ->
  orchestrate phase a score = Some res ->
  (fst res = true /\ status (snd res) = WF_STATUS_SUCCESSFUL) \/
  strategy a = wf_heuristic_none ->
  exists w',
    mwavefronts (wf_components (snd res)) (modular_score a score) = Some w' /\
    grows w w' /\
    same_outside_slot a (snd res) (modular_score a score).
Proof.
  intros Hp Hw. unfold orchestrate. cbv zeta. rewrite Hw.
  destruct (phase a w) as [r0|] eqn:E; cbv beta iota delta [bind]; [|discriminate].
  specialize (Hp _ eq_refl). unfold epilogue. cbv zeta.
  change (strategy (store_mwavefront a (modular_score a score) (snd r0)))
    with (strategy a).
  assert (Hslot : mwavefronts
                    (wf_components (store_mwavefront a (modular_score a score) (snd r0)))
                    (modular_score a score) = Some (snd r0)).
  { simpl. rewrite Z.eqb_refl. reflexivity. }
  destruct (fst r0).
  - intros [= <-] _. exists (snd r0). split; [exact Hslot|]. split; [exact Hp|].
    apply same_outside_slot_status, same_outside_slot_store.
  - destruct (strategy a) eqn:Es; simpl negb; cbv iota.
    + intros [= <-] _. exists (snd r0). split; [exact Hslot|]. split; [exact Hp|].
      apply same_outside_slot_store.
    + destruct (fst (wavefront_heuristic_cufoff _ _)).
      * intros [= <-] [[_ Hst]|Hn]; [simpl in Hst|]; discriminate.
      * intros [= <-] [[Hf _]|Hn]; [simpl in Hf|]; discriminate.
Qed.

(** C8: each orchestrator takes the score modulo [max_score_scope] when
    the wavefronts are stored modularly (and as it is otherwise), looks the
    wavefront up at that index, and answers "not done" with the aligner as
    it was when there is none.  The call depends on the score through the
    reduced index only; with scope M, the call at score M+2 is the call at
    score 2.  When there is a wavefront at the reduced index, it is the one
    the call extends, and the call stores it back at the reduced index: the
    call is the extension phase on that wavefront followed by the epilogue
    at the reduced index, and, when it ends with the status "successful" or
    without heuristic strategy, the aligner it returns holds at the reduced
    index a wavefront with the range of the one fetched and no smaller
    offset, and is otherwise the aligner it got but for the status. *)
Theorem orchestrators_modular_score (fuel : nat) (wf_aligner : wavefront_aligner_t)
    (score : Z) :
  let index :=
    if memory_modular (wf_components wf_aligner)
    then Z.rem score (max_score_scope (wf_components wf_aligner))
    else score in
  (mwavefronts (wf_components wf_aligner) index = None ->
     wavefront_extend_end2end wf_aligner score = Some (false, wf_aligner) /\
     wavefront_extend_endsfree wf_aligner score = Some (false, wf_aligner) /\
     wavefront_extend_custom fuel wf_aligner score = Some (false, wf_aligner)) /\
  (wavefront_extend_end2end wf_aligner score
     = wavefront_extend_end2end wf_aligner index /\
   wavefront_extend_endsfree wf_aligner score
     = wavefront_extend_endsfree wf_aligner index /\
   wavefront_extend_custom fuel wf_aligner score
     = wavefront_extend_custom fuel wf_aligner index) /\
  (memory_modular (wf_components wf_aligner) = true ->
   0 < max_score_scope (wf_components wf_aligner) ->
   let M := max_score_scope (wf_components wf_aligner) in
   Z.rem (M + 2) M = Z.rem 2 M /\
   wavefront_extend_end2end wf_aligner (M + 2)
     = wavefront_extend_end2end wf_aligner 2 /\
   wavefront_extend_endsfree wf_aligner (M + 2)
     = wavefront_extend_endsfree wf_aligner 2 /\
   wavefront_extend_custom fuel wf_aligner (M + 2)
     = wavefront_extend_custom fuel wf_aligner 2) /\
  (forall mwavefront,
     mwavefronts (wf_components wf_aligner) index = Some mwavefront ->
     (wavefront_extend_end2end wf_aligner score
        = (r <- end2end_phase wf_aligner mwavefront ;;
           epilogue wf_aligner index r) /\
      wavefront_extend_endsfree wf_aligner score
        = (r <- endsfree_phase wf_aligner mwavefront ;;
           epilogue wf_aligner index r) /\
      wavefront_extend_custom fuel wf_aligner score
        = (r <- custom_phase fuel wf_aligner mwavefront ;;
           epilogue wf_aligner index r)) /\
     forall res,
       wavefront_extend_end2end wf_aligner score = Some res \/
       wavefront_extend_endsfree wf_aligner score = Some res \/
       wavefront_extend_custom fuel wf_aligner score = Some res ->
       (fst res = true /\ status (snd res) = WF_STATUS_SUCCESSFUL) \/
       strategy wf_aligner = wf_heuristic_none ->
       exists mwavefront',
         mwavefronts (wf_components (snd res)) index = Some mwavefront' /\
         grows mwavefront mwavefront' /\
         same_outside_slot wf_aligner (snd res) index).
Proof.
  cbv zeta. fold (modular_score wf_aligner score).
  rewrite !wavefront_extend_end2end_eq, !wavefront_extend_endsfree_eq,
    !wavefront_extend_custom_eq.
  split; [|split; [|split]].
  - intros H. rewrite !orchestrate_absent by exact H. auto.
  - rewrite !orchestrate_modular. auto.
  - intros Hm HM.
    assert (Hrem : Z.rem (max_score_scope (wf_components wf_aligner) + 2)
                     (max_score_scope (wf_components wf_aligner))
                   = Z.rem 2 (max_score_scope (wf_components wf_aligner))).
    { rewrite Z.add_comm.
      rewrite <- (Z.mul_1_l (max_score_scope (wf_components wf_aligner))) at 1.
      apply Z.rem_add; lia. }
    split; [exact Hrem|].
    assert (Hs : modular_score wf_aligner
                   (max_score_scope (wf_components wf_aligner) + 2)
                 = modular_score wf_aligner 2).
    { unfold modular_score. rewrite Hm. exact Hrem. }
    unfold orchestrate. cbv zeta. rewrite !Hs. auto.
  - intros w Hw. split.
    + unfold orchestrate. cbv zeta. rewrite Hw. auto.
    + intros res [H|[H|H]] Hc.
      * exact (orchestrate_stored _ _ _ _ _ (end2end_phase_grows _ _) Hw H Hc).
      * exact (orchestrate_stored _ _ _ _ _ (endsfree_phase_grows _ _) Hw H Hc).
      * exact (orchestrate_stored _ _ _ _ _ (custom_phase_grows _ _ _) Hw H Hc).
Qed.

End Extend.

(** * One worker and several workers *)

Section Workers.

Variable WAVEFRONT_OFFSET_NULL : wf_offset_t.
Variable wavefront_compute_thread_limits : Z -> Z -> Z -> Z -> Z * Z.
Variable wavefront_heuristic_cufoff :
  wavefront_aligner_t -> Z -> bool * wavefront_aligner_t.
Variable omp_schedule : Z -> list Z.

(** Two builds and worker-count policies. *)
Variables parallel1 parallel2 : bool.
Variables num_threads1 num_threads2 : wavefront_aligner_t -> Z -> Z -> Z.

Local Notation dispatch1 :=
  (dispatch WAVEFRONT_OFFSET_NULL parallel1 num_threads1
     wavefront_compute_thread_limits omp_schedule).
Local Notation dispatch2 :=
  (dispatch WAVEFRONT_OFFSET_NULL parallel2 num_threads2
     wavefront_compute_thread_limits omp_schedule).
Local Notation covers1 :=
  (covers parallel1 num_threads1 wavefront_compute_thread_limits omp_schedule).
Local Notation covers2 :=
  (covers parallel2 num_threads2 wavefront_compute_thread_limits omp_schedule).

(** Without the per-diagonal check the two dispatchers leave the same
    wavefront. *)
Lemma dispatch_workers_nocheck ext a w :
  covers1 a w -> covers2 a w ->
  defined_on WAVEFRONT_OFFSET_NULL ext w (lo w) (hi w) ->
  exists w', dispatch1 ext false a w = Some (false, w') /\
             dispatch2 ext false a w = Some (false, w').
Proof.
  intros C1 C2 Hd.
  destruct (dispatch_defined WAVEFRONT_OFFSET_NULL _ _ _ _ ext false a w C1 Hd)
    as [[b1 w1] H1].
  destruct (dispatch_defined WAVEFRONT_OFFSET_NULL _ _ _ _ ext false a w C2 Hd)
    as [[b2 w2] H2].
  pose proof (dispatch_nocheck_false _ _ _ _ _ _ _ _ _ H1) as E1.
  pose proof (dispatch_nocheck_false _ _ _ _ _ _ _ _ _ H2) as E2.
  simpl in E1, E2. subst b1 b2.
  pose proof (dispatch_false_canonical _ _ _ _ _ _ _ _ _ _ C1 H1) as K1.
  pose proof (dispatch_false_canonical _ _ _ _ _ _ _ _ _ _ C2 H2) as K2.
  exists w1. split; [exact H1|]. rewrite H2. rewrite K1, K2. reflexivity.
Qed.

(** With the per-diagonal check the two dispatchers give the same verdict:
    true when a diagonal of the range is terminal, and false, with the same
    wavefront, when none is. *)
Lemma dispatch_workers_check ext a w :
  covers1 a w -> covers2 a w ->
  defined_on WAVEFRONT_OFFSET_NULL ext w (lo w) (hi w) ->
  exists b w1 w2,
    dispatch1 ext true a w = Some (b, w1) /\
    dispatch2 ext true a w = Some (b, w2) /\
    (b = false -> w1 = w2) /\
    (b = true ->
       (lo w <= k_alignment_end w1 <= hi w /\
        terminal_at WAVEFRONT_OFFSET_NULL ext a w (k_alignment_end w1)) /\
       (lo w <= k_alignment_end w2 <= hi w /\
        terminal_at WAVEFRONT_OFFSET_NULL ext a w (k_alignment_end w2))).
Proof.
  intros C1 C2 Hd.
  destruct (dispatch_defined WAVEFRONT_OFFSET_NULL _ _ _ _ ext true a w C1 Hd)
    as [[b1 w1] H1].
  destruct (dispatch_defined WAVEFRONT_OFFSET_NULL _ _ _ _ ext true a w C2 Hd)
    as [[b2 w2] H2].
  destruct (dispatch_spec _ _ _ _ _ _ _ _ _ _ _ C1 H1) as (_ & _ & _ & F1 & T1).
  destruct (dispatch_spec _ _ _ _ _ _ _ _ _ _ _ C2 H2) as (_ & _ & _ & F2 & T2).
  assert (Hclash : forall w' w'' : wavefront_t,
            (forall j, lo w <= j <= hi w ->
               extended_at WAVEFRONT_OFFSET_NULL ext true a w w' j) ->
            lo w <= k_alignment_end w'' <= hi w ->
            terminal_at WAVEFRONT_OFFSET_NULL ext a w (k_alignment_end w'') ->
            False).
  { intros w' w'' Hx Hk Ht.
    apply (extended_not_terminal _ _ _ _ _ _ (Hx _ Hk)). exact Ht. }
  destruct b1, b2.
  - exists true, w1, w2. split; [exact H1|]. split; [exact H2|].
    split; [discriminate|]. intros _.
    destruct (T1 eq_refl) as (_ & Hk1 & Ht1).
    destruct (T2 eq_refl) as (_ & Hk2 & Ht2). auto.
  - exfalso. destruct (T1 eq_refl) as (_ & Hk & Ht).
    destruct (F2 eq_refl) as [_ Hx]. exact (Hclash _ _ Hx Hk Ht).
  - exfalso. destruct (T2 eq_refl) as (_ & Hk & Ht).
    destruct (F1 eq_refl) as [_ Hx]. exact (Hclash _ _ Hx Hk Ht).
  - exists false, w1, w2. split; [exact H1|]. split; [exact H2|].
    split; [|discriminate]. intros _.
    rewrite (dispatch_false_canonical _ _ _ _ _ _ _ _ _ _ C1 H1).
    rewrite (dispatch_false_canonical _ _ _ _ _ _ _ _ _ _ C2 H2). reflexivity.
Qed.

Local Notation end2end1 :=
  (wavefront_extend_end2end WAVEFRONT_OFFSET_NULL parallel1 num_threads1
     wavefront_compute_thread_limits wavefront_heuristic_cufoff omp_schedule).
Local Notation end2end2 :=
  (wavefront_extend_end2end WAVEFRONT_OFFSET_NULL parallel2 num_threads2
     wavefront_compute_thread_limits wavefront_heuristic_cufoff omp_schedule).
Local Notation endsfree1 :=
  (wavefront_extend_endsfree WAVEFRONT_OFFSET_NULL parallel1 num_threads1
     wavefront_compute_thread_limits wavefront_heuristic_cufoff omp_schedule).
Local Notation endsfree2 :=
  (wavefront_extend_endsfree WAVEFRONT_OFFSET_NULL parallel2 num_threads2
     wavefront_compute_thread_limits wavefront_heuristic_cufoff omp_schedule).
Local Notation custom1 :=
  (wavefront_extend_custom WAVEFRONT_OFFSET_NULL parallel1 num_threads1
     wavefront_compute_thread_limits wavefront_heuristic_cufoff omp_schedule).
Local Notation custom2 :=
  (wavefront_extend_custom WAVEFRONT_OFFSET_NULL parallel2 num_threads2
     wavefront_compute_thread_limits wavefront_heuristic_cufoff omp_schedule).

Lemma covers_dispatches par nt a w :
  covers par nt wavefront_compute_thread_limits omp_schedule a w ->
  dispatches par nt a w = true.
Proof.
  unfold covers, dispatches. cbv zeta. intros [->|(-> & _)]; [reflexivity|].
  apply orb_true_r.
Qed.

Lemma epilogue_defined a s r :
  epilogue wavefront_heuristic_cufoff a s r <> None.
Proof.
  unfold epilogue. destruct (fst r); [discriminate|].
  destruct (negb _); [|discriminate]. destruct (fst _); discriminate.
Qed.

Lemma end2end_workers a score w :
  mwavefronts (wf_components a) (modular_score a score) = Some w ->
  covers1 a w -> covers2 a w ->
  defined_on WAVEFRONT_OFFSET_NULL (wavefront_extend_matches_packed_kernel a) w
    (lo w) (hi w) ->
  end2end2 a score = end2end1 a score /\ end2end1 a score <> None.
Proof.
  intros Hw C1 C2 Hd. rewrite !wavefront_extend_end2end_eq.
  unfold orchestrate. cbv zeta. rewrite Hw. unfold end2end_phase.
  destruct (dispatch_workers_nocheck _ a w C1 C2 Hd) as (w' & H1 & H2).
  rewrite H1, H2, !covers_dispatches by assumption. simpl bind.
  split; [reflexivity|]. apply epilogue_defined.
Qed.


Lemma endsfree_workers a score w :
  mwavefronts (wf_components a) (modular_score a score) = Some w ->
  covers1 a w -> covers2 a w ->
  defined_on WAVEFRONT_OFFSET_NULL (wavefront_extend_matches_packed_kernel a) w
    (lo w) (hi w) ->
  option_map fst (endsfree2 a score) = option_map fst (endsfree1 a score) /\
  endsfree1 a score <> None /\
  ((forall j, lo w <= j <= hi w ->
      ~ terminal_at WAVEFRONT_OFFSET_NULL
          (wavefront_extend_matches_packed_kernel a) a w j) ->
   endsfree2 a score = endsfree1 a score) /\
  records_terminal WAVEFRONT_OFFSET_NULL (wavefront_extend_matches_packed_kernel a)
    a w score (endsfree1 a score) /\
  records_terminal WAVEFRONT_OFFSET_NULL (wavefront_extend_matches_packed_kernel a)
    a w score (endsfree2 a score).
Proof.
  intros Hw C1 C2 Hd. rewrite !wavefront_extend_endsfree_eq.
  unfold orchestrate. cbv zeta. rewrite Hw. unfold endsfree_phase.
  destruct (dispatch_workers_check _ a w C1 C2 Hd)
    as (b & w1 & w2 & H1 & H2 & Hf & Ht).
  rewrite H1, H2. simpl bind.
  split; [|split; [|split; [|split]]].
  - destruct b; [reflexivity|]. rewrite (Hf eq_refl). reflexivity.
  - apply epilogue_defined.
  - intros Hno. destruct b.
    + exfalso. destruct (Ht eq_refl) as [[Hj Hterm] _]. exact (Hno _ Hj Hterm).
    + rewrite (Hf eq_refl). reflexivity.
  - apply epilogue_records_terminal. intros Hb. apply (Ht Hb).
  - apply epilogue_records_terminal. intros Hb. apply (Ht Hb).
Qed.

Lemma custom_workers fuel a score w :
  mwavefronts (wf_components a) (modular_score a score) = Some w ->
  covers1 a w -> covers2 a w ->
  defined_on WAVEFRONT_OFFSET_NULL (custom_kernel fuel a) w (lo w) (hi w) ->
  option_map fst (custom2 fuel a score) = option_map fst (custom1 fuel a score) /\
  custom1 fuel a score <> None /\
  (span (alignment_form a) <> alignment_endsfree ->
   custom2 fuel a score = custom1 fuel a score) /\
  ((forall j, lo w <= j <= hi w ->
      ~ terminal_at WAVEFRONT_OFFSET_NULL (custom_kernel fuel a) a w j) ->
   custom2 fuel a score = custom1 fuel a score) /\
  (span (alignment_form a) = alignment_endsfree ->
   records_terminal WAVEFRONT_OFFSET_NULL (custom_kernel fuel a)
     a w score (custom1 fuel a score) /\
   records_terminal WAVEFRONT_OFFSET_NULL (custom_kernel fuel a)
     a w score (custom2 fuel a score)).
Proof.
  intros Hw C1 C2 Hd. rewrite !wavefront_extend_custom_eq.
  unfold orchestrate. cbv zeta. rewrite Hw. unfold custom_phase. cbv zeta.
  destruct (span (alignment_form a)); simpl alignment_span_eqb; simpl negb;
    cbv iota.
  - destruct (dispatch_workers_nocheck _ a w C1 C2 Hd) as (w' & H1 & H2).
    rewrite H1, H2. simpl bind.
    split; [reflexivity|]. split; [apply epilogue_defined|].
    split; [reflexivity|]. split; [reflexivity|]. discriminate.
  - destruct (dispatch_workers_check _ a w C1 C2 Hd)
      as (b & w1 & w2 & H1 & H2 & Hf & Ht).
    rewrite H1, H2. simpl bind.
    split; [|split; [|split; [|split]]].
    + destruct b; [reflexivity|]. rewrite (Hf eq_refl). reflexivity.
    + apply epilogue_defined.
    + intros Hne. contradiction.
    + intros Hno. destruct b.
      * exfalso. destruct (Ht eq_refl) as [[Hj Hterm] _]. exact (Hno _ Hj Hterm).
      * rewrite (Hf eq_refl). reflexivity.
    + intros _. split; apply epilogue_records_terminal; intros Hb; apply (Ht Hb).
Qed.

(** With a terminal diagonal in the range, a dispatcher with one worker and
    one that covers the range both answer true, and their wavefronts agree
    up to the first terminal diagonal. *)
Lemma dispatch_workers_terminal ext a w :
  num_threads1 a (lo w) (hi w) = 1 -> covers2 a w ->
  defined_on WAVEFRONT_OFFSET_NULL ext w (lo w) (hi w) ->
  (exists j, lo w <= j <= hi w /\ terminal_at WAVEFRONT_OFFSET_NULL ext a w j) ->
  exists w1 w2,
    dispatch1 ext true a w = Some (true, w1) /\
    dispatch2 ext true a w = Some (true, w2) /\
    agree_to_first_terminal WAVEFRONT_OFFSET_NULL ext a w w1 w2.
Proof.
  intros Hone C2 Hd (j & Hj & Ht).
  assert (C1 : covers1 a w) by (left; exact Hone).
  destruct (dispatch_workers_check ext a w C1 C2 Hd)
    as (b & w1 & w2 & H1 & H2 & _ & _).
  destruct b.
  2:{ exfalso.
      destruct (dispatch_spec _ _ _ _ _ _ _ _ _ _ _ C1 H1) as (_ & _ & _ & F & _).
      destruct (F eq_refl) as [_ Hx].
      exact (extended_not_terminal _ _ _ _ _ _ (Hx j Hj) Ht). }
  exists w1, w2. split; [exact H1|]. split; [exact H2|].
  destruct (dispatch_spec _ _ _ _ _ _ _ _ _ _ _ C2 H2) as (L2 & U2 & O2 & _ & S2).
  destruct (S2 eq_refl) as (_ & K2 & T2).
  eapply dispatch_agree_to_first_terminal.
  - exact Hone.
  - exact H1.
  - auto 6.
  - exact (dispatch_trace _ _ _ _ _ _ _ _ _ _ _ C2 H2).
Qed.

Lemma endsfree_workers_terminal a score w :
  mwavefronts (wf_components a) (modular_score a score) = Some w ->
  num_threads1 a (lo w) (hi w) = 1 -> covers2 a w ->
  defined_on WAVEFRONT_OFFSET_NULL (wavefront_extend_matches_packed_kernel a) w
    (lo w) (hi w) ->
  (exists j, lo w <= j <= hi w /\
     terminal_at WAVEFRONT_OFFSET_NULL (wavefront_extend_matches_packed_kernel a)
       a w j) ->
  exists w1 w2,
    endsfree1 a score
      = Some (true, set_status (store_mwavefront a (modular_score a score) w1)
                      WF_STATUS_SUCCESSFUL) /\
    endsfree2 a score
      = Some (true, set_status (store_mwavefront a (modular_score a score) w2)
                      WF_STATUS_SUCCESSFUL) /\
    agree_to_first_terminal WAVEFRONT_OFFSET_NULL
      (wavefront_extend_matches_packed_kernel a) a w w1 w2.
Proof.
  intros Hw Hone C2 Hd Hex. rewrite !wavefront_extend_endsfree_eq.
  unfold orchestrate. cbv zeta. rewrite Hw. unfold endsfree_phase.
  destruct (dispatch_workers_terminal _ a w Hone C2 Hd Hex)
    as (w1 & w2 & H1 & H2 & Ha).
  rewrite H1, H2. exists w1, w2.
  split; [reflexivity|]. split; [reflexivity|exact Ha].
Qed.

Lemma custom_workers_terminal fuel a score w :
  span (alignment_form a) = alignment_endsfree ->
  mwavefronts (wf_components a) (modular_score a score) = Some w ->
  num_threads1 a (lo w) (hi w) = 1 -> covers2 a w ->
  defined_on WAVEFRONT_OFFSET_NULL (custom_kernel fuel a) w (lo w) (hi w) ->
  (exists j, lo w <= j <= hi w /\
     terminal_at WAVEFRONT_OFFSET_NULL (custom_kernel fuel a) a w j) ->
  exists w1 w2,
    custom1 fuel a score
      = Some (true, set_status (store_mwavefront a (modular_score a score) w1)
                      WF_STATUS_SUCCESSFUL) /\
    custom2 fuel a score
      = Some (true, set_status (store_mwavefront a (modular_score a score) w2)
                      WF_STATUS_SUCCESSFUL) /\
    agree_to_first_terminal WAVEFRONT_OFFSET_NULL (custom_kernel fuel a) a w w1 w2.
Proof.
  intros Hs Hw Hone C2 Hd Hex. rewrite !wavefront_extend_custom_eq.
  unfold orchestrate. cbv zeta. rewrite Hw. unfold custom_phase. cbv zeta.
  rewrite Hs. simpl alignment_span_eqb. simpl negb. cbv iota.
  destruct (dispatch_workers_terminal _ a w Hone C2 Hd Hex)
    as (w1 & w2 & H1 & H2 & Ha).
  rewrite H1, H2. exists w1, w2.
  split; [reflexivity|]. split; [reflexivity|exact Ha].
Qed.

End Workers.

(** C4, as the code has it: with one worker and with N > 1 workers whose
    sub-ranges split [lo,hi], the end-to-end orchestrator, and the custom
    one when the form is not ends-free, give the same result (offsets,
    verdict, [k_alignment_end] and status); the ends-free orchestrator, and
    the custom one in ends-free form, give the same verdict, and the same
    result when no diagonal of the range is terminal.  When a diagonal is
    terminal both runs answer true with the status "successful" and differ
    in the wavefront of the score only: the single worker records the first
    terminal diagonal of the range, the N workers record a terminal
    diagonal that is not before it, the offsets of the two runs are
    identical on every diagonal up to and including the first terminal
    one, and past it the single worker leaves the offsets as they were
    while the N workers leave each as it was or extended. *)
Theorem workers_determinism
    (WAVEFRONT_OFFSET_NULL : wf_offset_t)
    (wavefront_compute_thread_limits : Z -> Z -> Z -> Z -> Z * Z)
    (wavefront_heuristic_cufoff :
       wavefront_aligner_t -> Z -> bool * wavefront_aligner_t)
    (omp_schedule : Z -> list Z)
    (parallel_build : bool)
    (one_worker many_workers : wavefront_aligner_t -> Z -> Z -> Z)
    (fuel : nat) (wf_aligner : wavefront_aligner_t) (score : Z)
    (mwavefront : wavefront_t) (N : Z) :
  mwavefronts (wf_components wf_aligner) (modular_score wf_aligner score)
    = Some mwavefront ->
  one_worker wf_aligner (lo mwavefront) (hi mwavefront) = 1 ->
  many_workers wf_aligner (lo mwavefront) (hi mwavefront) = N ->
  1 < N ->
  partitions wavefront_compute_thread_limits N (lo mwavefront) (hi mwavefront) ->
  Permutation (omp_schedule N) (thread_nums N) ->
  (defined_on WAVEFRONT_OFFSET_NULL
     (wavefront_extend_matches_packed_kernel wf_aligner) mwavefront
     (lo mwavefront) (hi mwavefront) ->
   (wavefront_extend_end2end WAVEFRONT_OFFSET_NULL true many_workers
      wavefront_compute_thread_limits wavefront_heuristic_cufoff omp_schedule
      wf_aligner score
    = wavefront_extend_end2end WAVEFRONT_OFFSET_NULL parallel_build one_worker
        wavefront_compute_thread_limits wavefront_heuristic_cufoff omp_schedule
        wf_aligner score /\
    wavefront_extend_end2end WAVEFRONT_OFFSET_NULL parallel_build one_worker
      wavefront_compute_thread_limits wavefront_heuristic_cufoff omp_schedule
      wf_aligner score <> None) /\
   (option_map fst
      (wavefront_extend_endsfree WAVEFRONT_OFFSET_NULL true many_workers
         wavefront_compute_thread_limits wavefront_heuristic_cufoff omp_schedule
         wf_aligner score)
    = option_map fst
        (wavefront_extend_endsfree WAVEFRONT_OFFSET_NULL parallel_build one_worker
           wavefront_compute_thread_limits wavefront_heuristic_cufoff omp_schedule
           wf_aligner score) /\
    wavefront_extend_endsfree WAVEFRONT_OFFSET_NULL parallel_build one_worker
      wavefront_compute_thread_limits wavefront_heuristic_cufoff omp_schedule
      wf_aligner score <> None /\
    ((forall j, lo mwavefront <= j <= hi mwavefront ->
        ~ terminal_at WAVEFRONT_OFFSET_NULL
            (wavefront_extend_matches_packed_kernel wf_aligner)
            wf_aligner mwavefront j) ->
     wavefront_extend_endsfree WAVEFRONT_OFFSET_NULL true many_workers
       wavefront_compute_thread_limits wavefront_heuristic_cufoff omp_schedule
       wf_aligner score
     = wavefront_extend_endsfree WAVEFRONT_OFFSET_NULL parallel_build one_worker
         wavefront_compute_thread_limits wavefront_heuristic_cufoff omp_schedule
         wf_aligner score) /\
    records_terminal WAVEFRONT_OFFSET_NULL
      (wavefront_extend_matches_packed_kernel wf_aligner) wf_aligner mwavefront score
      (wavefront_extend_endsfree WAVEFRONT_OFFSET_NULL parallel_build one_worker
         wavefront_compute_thread_limits wavefront_heuristic_cufoff omp_schedule
         wf_aligner score) /\
    records_terminal WAVEFRONT_OFFSET_NULL
      (wavefront_extend_matches_packed_kernel wf_aligner) wf_aligner mwavefront score
      (wavefront_extend_endsfree WAVEFRONT_OFFSET_NULL true many_workers
         wavefront_compute_thread_limits wavefront_heuristic_cufoff omp_schedule
         wf_aligner score) /\
    ((exists j, lo mwavefront <= j <= hi mwavefront /\
        terminal_at WAVEFRONT_OFFSET_NULL
          (wavefront_extend_matches_packed_kernel wf_aligner)
          wf_aligner mwavefront j) ->
     exists w1 wN,
       wavefront_extend_endsfree WAVEFRONT_OFFSET_NULL parallel_build one_worker
         wavefront_compute_thread_limits wavefront_heuristic_cufoff omp_schedule
         wf_aligner score
       = Some (true,
               set_status
                 (store_mwavefront wf_aligner (modular_score wf_aligner score) w1)
                 WF_STATUS_SUCCESSFUL) /\
       wavefront_extend_endsfree WAVEFRONT_OFFSET_NULL true many_workers
         wavefront_compute_thread_limits wavefront_heuristic_cufoff omp_schedule
         wf_aligner score
       = Some (true,
               set_status
                 (store_mwavefront wf_aligner (modular_score wf_aligner score) wN)
                 WF_STATUS_SUCCESSFUL) /\
       agree_to_first_terminal WAVEFRONT_OFFSET_NULL
         (wavefront_extend_matches_packed_kernel wf_aligner)
         wf_aligner mwavefront w1 wN))) /\
  (defined_on WAVEFRONT_OFFSET_NULL (custom_kernel fuel wf_aligner) mwavefront
     (lo mwavefront) (hi mwavefront) ->
   option_map fst
     (wavefront_extend_custom WAVEFRONT_OFFSET_NULL true many_workers
        wavefront_compute_thread_limits wavefront_heuristic_cufoff omp_schedule
        fuel wf_aligner score)
   = option_map fst
       (wavefront_extend_custom WAVEFRONT_OFFSET_NULL parallel_build one_worker
          wavefront_compute_thread_limits wavefront_heuristic_cufoff omp_schedule
          fuel wf_aligner score) /\
   wavefront_extend_custom WAVEFRONT_OFFSET_NULL parallel_build one_worker
     wavefront_compute_thread_limits wavefront_heuristic_cufoff omp_schedule
     fuel wf_aligner score <> None /\
   (span (alignment_form wf_aligner) <> alignment_endsfree ->
    wavefront_extend_custom WAVEFRONT_OFFSET_NULL true many_workers
      wavefront_compute_thread_limits wavefront_heuristic_cufoff omp_schedule
      fuel wf_aligner score
    = wavefront_extend_custom WAVEFRONT_OFFSET_NULL parallel_build one_worker
        wavefront_compute_thread_limits wavefront_heuristic_cufoff omp_schedule
        fuel wf_aligner score) /\
   ((forall j, lo mwavefront <= j <= hi mwavefront ->
       ~ terminal_at WAVEFRONT_OFFSET_NULL (custom_kernel fuel wf_aligner)
           wf_aligner mwavefront j) ->
    wavefront_extend_custom WAVEFRONT_OFFSET_NULL true many_workers
      wavefront_compute_thread_limits wavefront_heuristic_cufoff omp_schedule
      fuel wf_aligner score
    = wavefront_extend_custom WAVEFRONT_OFFSET_NULL parallel_build one_worker
        wavefront_compute_thread_limits wavefront_heuristic_cufoff omp_schedule
        fuel wf_aligner score) /\
   (span (alignment_form wf_aligner) = alignment_endsfree ->
    records_terminal WAVEFRONT_OFFSET_NULL (custom_kernel fuel wf_aligner)
      wf_aligner mwavefront score
      (wavefront_extend_custom WAVEFRONT_OFFSET_NULL parallel_build one_worker
         wavefront_compute_thread_limits wavefront_heuristic_cufoff omp_schedule
         fuel wf_aligner score) /\
    records_terminal WAVEFRONT_OFFSET_NULL (custom_kernel fuel wf_aligner)
      wf_aligner mwavefront score
      (wavefront_extend_custom WAVEFRONT_OFFSET_NULL true many_workers
         wavefront_compute_thread_limits wavefront_heuristic_cufoff omp_schedule
         fuel wf_aligner score)) /\
   (span (alignment_form wf_aligner) = alignment_endsfree ->
    (exists j, lo mwavefront <= j <= hi mwavefront /\
       terminal_at WAVEFRONT_OFFSET_NULL (custom_kernel fuel wf_aligner)
         wf_aligner mwavefront j) ->
    exists w1 wN,
      wavefront_extend_custom WAVEFRONT_OFFSET_NULL parallel_build one_worker
        wavefront_compute_thread_limits wavefront_heuristic_cufoff omp_schedule
        fuel wf_aligner score
      = Some (true,
              set_status
                (store_mwavefront wf_aligner (modular_score wf_aligner score) w1)
                WF_STATUS_SUCCESSFUL) /\
      wavefront_extend_custom WAVEFRONT_OFFSET_NULL true many_workers
        wavefront_compute_thread_limits wavefront_heuristic_cufoff omp_schedule
        fuel wf_aligner score
      = Some (true,
              set_status
                (store_mwavefront wf_aligner (modular_score wf_aligner score) wN)
                WF_STATUS_SUCCESSFUL) /\
      agree_to_first_terminal WAVEFRONT_OFFSET_NULL (custom_kernel fuel wf_aligner)
        wf_aligner mwavefront w1 wN)).
Proof.
  intros Hw H1 HN Hgt Hpart Hperm.
  assert (C1 : covers parallel_build one_worker wavefront_compute_thread_limits
                 omp_schedule wf_aligner mwavefront).
  { left. exact H1. }
  assert (C2 : covers true many_workers wavefront_compute_thread_limits
                 omp_schedule wf_aligner mwavefront).
  { right. unfold covers. rewrite HN. auto. }
  split.
  - intros Hd. split.
    + apply (end2end_workers _ _ _ _ _ _ _ _ _ _ _ Hw C1 C2 Hd).
    + destruct (endsfree_workers WAVEFRONT_OFFSET_NULL wavefront_compute_thread_limits
                  wavefront_heuristic_cufoff omp_schedule parallel_build true
                  one_worker many_workers
                  wf_aligner score mwavefront Hw C1 C2 Hd)
        as (E1 & E2 & E3 & E4 & E5).
      split; [exact E1|]. split; [exact E2|]. split; [exact E3|].
      split; [exact E4|]. split; [exact E5|].
      intros Hex.
      exact (endsfree_workers_terminal WAVEFRONT_OFFSET_NULL wavefront_compute_thread_limits
                  wavefront_heuristic_cufoff omp_schedule parallel_build true
                  one_worker many_workers
               wf_aligner score mwavefront Hw H1 C2 Hd Hex).
  - intros Hd.
    destruct (custom_workers WAVEFRONT_OFFSET_NULL wavefront_compute_thread_limits
                  wavefront_heuristic_cufoff omp_schedule parallel_build true
                  one_worker many_workers
                fuel wf_aligner score mwavefront Hw C1 C2 Hd)
      as (E1 & E2 & E3 & E4 & E5).
    split; [exact E1|]. split; [exact E2|]. split; [exact E3|].
    split; [exact E4|]. split; [exact E5|].
    intros Hs Hex.
    exact (custom_workers_terminal WAVEFRONT_OFFSET_NULL wavefront_compute_thread_limits
                  wavefront_heuristic_cufoff omp_schedule parallel_build true
                  one_worker many_workers
             fuel wf_aligner score mwavefront Hs Hw H1 C2 Hd Hex).
Qed.

(** * Examples

    The theorems above at concrete aligner states. *)

Lemma example_sentinel_padded (pattern_seq text_seq : list byte) form heuristic
    scope table :
  ~ In Byte.x21 pattern_seq -> ~ In Byte.x3f text_seq ->
  sentinel_padded
    (example_aligner pattern_seq text_seq form heuristic scope table)
    pattern_seq text_seq example_padding.
Proof.
  intros Hp Ht. unfold sentinel_padded. simpl.
  repeat split; try reflexivity; try lia; try assumption. discriminate.
Qed.

Lemma gattaca_sentinel_padded :
  sentinel_padded gattaca_aligner gattaca_pattern gattaca_text example_padding.
Proof.
  apply example_sentinel_padded; simpl; intuition discriminate.
Qed.

Lemma example_partitions : partitions example_thread_limits 2 0 3.
Proof.
  unfold partitions. split; [|split].
  - intros t j Ht.
    assert (t = 0 \/ t = 1) as [->| ->] by lia; vm_compute fst; vm_compute snd; lia.
  - intros j Hj.
    assert (j = 0 \/ j = 1 \/ j = 2 \/ j = 3) as [->|[->|[->| ->]]] by lia.
    + exists 0. vm_compute. intuition discriminate.
    + exists 0. vm_compute. intuition discriminate.
    + exists 1. vm_compute. intuition discriminate.
    + exists 1. vm_compute. intuition discriminate.
  - intros t1 t2 j Ht1 Ht2.
    assert (t1 = 0 \/ t1 = 1) as [->| ->] by lia;
      assert (t2 = 0 \/ t2 = 1) as [->| ->] by lia;
      vm_compute fst; vm_compute snd; lia.
Qed.

Lemma poly_a_defined_packed :
  defined_on example_offset_null
    (wavefront_extend_matches_packed_kernel poly_a_aligner) poly_a_wavefront 0 3.
Proof.
  intros j Hj.
  assert (j = 0 \/ j = 1 \/ j = 2 \/ j = 3) as [->|[->|[->| ->]]] by lia;
    vm_compute; congruence.
Qed.

Lemma poly_a_defined_custom :
  defined_on example_offset_null (custom_kernel 20 poly_a_aligner)
    poly_a_wavefront 0 3.
Proof.
  intros j Hj.
  assert (j = 0 \/ j = 1 \/ j = 2 \/ j = 3) as [->|[->|[->| ->]]] by lia;
    vm_compute; congruence.
Qed.

Lemma gattaca_defined_packed :
  defined_on example_offset_null
    (wavefront_extend_matches_packed_kernel gattaca_aligner) gattaca_wavefront (-1) 1.
Proof.
  intros j Hj.
  assert (j = -1 \/ j = 0 \/ j = 1) as [->|[->| ->]] by lia;
    vm_compute; congruence.
Qed.

Lemma identical_defined_custom :
  defined_on example_offset_null (custom_kernel 20 identical_aligner)
    gattaca_wavefront (-1) 1.
Proof.
  intros j Hj.
  assert (j = -1 \/ j = 0 \/ j = 1) as [->|[->| ->]] by lia;
    vm_compute; congruence.
Qed.

Lemma broken_defined_packed :
  defined_on example_offset_null
    (wavefront_extend_matches_packed_kernel (broken_aligner form_endsfree))
    broken_wavefront 0 3.
Proof.
  intros j Hj.
  assert (j = 0 \/ j = 1 \/ j = 2 \/ j = 3) as [->|[->|[->| ->]]] by lia;
    vm_compute; congruence.
Qed.

Lemma broken_not_terminal :
  forall j, 0 <= j <= 3 ->
    ~ terminal_at example_offset_null
        (wavefront_extend_matches_packed_kernel (broken_aligner form_endsfree))
        (broken_aligner form_endsfree) broken_wavefront j.
Proof.
  intros j Hj [Hn (o & Ho & Ht)].
  assert (j = 0 \/ j = 1 \/ j = 2 \/ j = 3) as [->|[->|[->| ->]]] by lia.
  - vm_compute in Ho. injection Ho as <-. vm_compute in Ht. discriminate.
  - vm_compute in Ho. injection Ho as <-. vm_compute in Ht. discriminate.
  - apply Hn. reflexivity.
  - apply Hn. reflexivity.
Qed.

Notation one_worker := (fun (_ : wavefront_aligner_t) (_ _ : Z) => 1).
Notation two_workers := (fun (_ : wavefront_aligner_t) (_ _ : Z) => 2).
Notation example_end2end nt hook :=
  (wavefront_extend_end2end example_offset_null true nt example_thread_limits
     hook example_schedule).
Notation example_endsfree nt hook :=
  (wavefront_extend_endsfree example_offset_null true nt example_thread_limits
     hook example_schedule).
Notation example_custom nt hook :=
  (wavefront_extend_custom example_offset_null true nt example_thread_limits
     hook example_schedule).

(** The end-to-end example of the spec, on identical sequences: the call at
    score 0 is terminal on diagonal 0. *)
Example end2end_identical_example :
  final_verdict (example_end2end one_worker example_cutoff_keep identical_aligner 0)
    = Some (true, WF_STATUS_SUCCESSFUL) /\
  final_k_alignment_end
    (example_end2end one_worker example_cutoff_keep identical_aligner 0) 0 = Some 0 /\
  final_offset
    (example_end2end one_worker example_cutoff_keep identical_aligner 0) 0 0 = Some 14.
Proof. vm_compute. auto. Qed.

(** The precondition on the sentinels is needed: when the pattern holds the
    sentinel symbol of the text, the kernel matches it against the padding
    of the text and advances past the end of the text. *)
Example sentinel_clash_example :
  text_length sentinel_clash_aligner = 1 /\
  wavefront_extend_matches_packed_kernel sentinel_clash_aligner 0 0 = Some 2 /\
  naive_extend [Byte.x41; Byte.x21] [Byte.x41] 0 0 = 1.
Proof. vm_compute. auto. Qed.


Lemma packed_kernel_refines_naive_witness :
  wavefront_extend_matches_packed_kernel gattaca_aligner 0 0 = Some 14.
Proof.
  assert (Hv : 0 <= WAVEFRONT_V 0 0 <= pattern_length gattaca_aligner)
    by (vm_compute; split; discriminate).
  assert (Hh : 0 <= WAVEFRONT_H 0 0 <= text_length gattaca_aligner)
    by (vm_compute; split; discriminate).
  destruct (packed_kernel_refines_naive gattaca_aligner gattaca_pattern
              gattaca_text example_padding 0 0 gattaca_sentinel_padded Hv Hh)
    as [H _].
  exact H.
Defined.

Lemma packed_kernel_boundary_witness :
  wavefront_extend_matches_packed_kernel gattaca_aligner 2 16 = Some 16.
Proof.
  assert (Hv : 0 <= WAVEFRONT_V 2 16 <= pattern_length gattaca_aligner)
    by (vm_compute; split; discriminate).
  assert (Hh : 0 <= WAVEFRONT_H 2 16 <= text_length gattaca_aligner)
    by (vm_compute; split; discriminate).
  destruct (packed_kernel_boundary_safe gattaca_aligner gattaca_pattern
              gattaca_text example_padding 2 16 gattaca_sentinel_padded Hv Hh)
    as [H _]; [left; reflexivity|].
  exact H.
Defined.

Lemma packed_end2end_driver_witness :
  exists w',
    wavefront_extend_matches_packed_end2end example_offset_null
      gattaca_aligner gattaca_wavefront 2 (-1) 1 = Some w' /\
    offsets w' 0 = 14 /\
    offsets w' 1 = example_offset_null /\
    k_alignment_end w' = k_alignment_end gattaca_wavefront.
Proof.
  destruct (packed_end2end_driver_spec example_offset_null gattaca_aligner
              gattaca_wavefront 2 (-1) 1 gattaca_defined_packed)
    as (w' & Hr & Hext & Hnull & _ & _ & _ & Hk).
  exists w'. split; [exact Hr|]. split; [|split; [|exact Hk]].
  - assert (H0 : -1 <= 0 <= 1) by lia.
    assert (Hn : offsets gattaca_wavefront 0 <> example_offset_null)
      by (vm_compute; discriminate).
    specialize (Hext 0 H0 Hn).
    assert (H14 : wavefront_extend_matches_packed_kernel gattaca_aligner 0
                    (offsets gattaca_wavefront 0) = Some 14)
      by (vm_compute; reflexivity).
    rewrite H14 in Hext. injection Hext as <-. reflexivity.
  - apply Hnull; [lia|reflexivity].
Defined.

Lemma end2end_check_termination_null_witness :
  wavefront_extend_end2end_check_termination gattaca_aligner
    (example_wavefront 0 3 [])
  = (false, example_wavefront 0 3 []).
Proof.
  apply (end2end_check_termination_null example_offset_null).
  - reflexivity.
  - vm_compute; discriminate.
  - vm_compute; discriminate.
  - reflexivity.
Defined.

Lemma orchestrators_modular_score_witness :
  example_end2end one_worker example_cutoff_drop gattaca_aligner (3 + 2)
    = example_end2end one_worker example_cutoff_drop gattaca_aligner 2 /\
  example_endsfree one_worker example_cutoff_drop gattaca_aligner 4
    = Some (false, gattaca_aligner) /\
  exists res mwavefront',
    example_end2end one_worker example_cutoff_keep identical_aligner 3 = Some res /\
    mwavefronts (wf_components (snd res)) 0 = Some mwavefront' /\
    grows gattaca_wavefront mwavefront' /\
    mwavefronts (wf_components (snd res)) 3 = None.
Proof.
  split; [|split].
  - destruct (orchestrators_modular_score example_offset_null true one_worker
                example_thread_limits example_cutoff_drop example_schedule
                20 gattaca_aligner 0) as (_ & _ & HM & _).
    destruct (HM eq_refl eq_refl) as (_ & H & _). exact H.
  - destruct (orchestrators_modular_score example_offset_null true one_worker
                example_thread_limits example_cutoff_drop example_schedule
                20 gattaca_aligner 4) as (Habs & _ & _).
    destruct (Habs eq_refl) as (_ & H & _). exact H.
  - destruct (example_end2end one_worker example_cutoff_keep identical_aligner 3)
      as [res|] eqn:Er; [|vm_compute in Er; discriminate].
    destruct (orchestrators_modular_score example_offset_null true one_worker
                example_thread_limits example_cutoff_keep example_schedule
                20 identical_aligner 3) as (_ & _ & _ & Hpresent).
    destruct (Hpresent gattaca_wavefront eq_refl) as [_ Hstored].
    destruct (Hstored res (or_introl Er) (or_intror eq_refl))
      as (w' & Hw' & Hg & Hsame).
    destruct Hsame as (_ & _ & _ & _ & _ & _ & _ & _ & _ & Hslots).
    exists res, w'. split; [reflexivity|]. split; [exact Hw'|].
    split; [exact Hg|]. rewrite Hslots; [reflexivity|discriminate].
Defined.

Lemma heuristic_cutoff_interplay_witness :
  exists a',
    example_end2end one_worker example_cutoff_drop gattaca_aligner 2
      = Some (true, a') /\
    status a' = WF_STATUS_HEURISTICALY_DROPPED /\
    final_k_alignment_end (Some (true, a')) 2
      = Some (k_alignment_end gattaca_wavefront).
Proof.
  destruct (heuristic_cutoff_interplay example_offset_null true one_worker
              example_thread_limits example_cutoff_drop example_schedule
              20 gattaca_aligner 2 gattaca_wavefront eq_refl) as (He2e & _ & _).
  remember (end2end_phase example_offset_null true one_worker
              example_thread_limits example_schedule gattaca_aligner
              gattaca_wavefront) as r eqn:Er.
  assert (Hv : option_map fst r = Some false) by (rewrite Er; vm_compute; reflexivity).
  destruct r as [[b w']|]; [|discriminate]. simpl in Hv. injection Hv as ->.
  destruct (He2e w' eq_refl) as (Hk & Hdrop & _).
  eexists. split; [apply Hdrop; [discriminate|reflexivity]|].
  split; [reflexivity|].
  simpl. rewrite Hk. reflexivity.
Defined.

Lemma custom_end2end_recheck_witness :
  final_verdict (example_custom one_worker example_cutoff_keep 20 identical_aligner 0)
    = Some (true, WF_STATUS_SUCCESSFUL).
Proof.
  destruct (custom_end2end_recheck example_offset_null true one_worker
              example_thread_limits example_cutoff_keep example_schedule
              20 identical_aligner 0 gattaca_wavefront eq_refl)
    as (_ & _ & w1 & Hdis & _ & _ & _ & Hsucc & _).
  - discriminate.
  - left. reflexivity.
  - exact identical_defined_custom.
  - vm_compute in Hdis. injection Hdis as <-.
    rewrite Hsucc; [reflexivity|]. vm_compute. reflexivity.
Defined.

Lemma workers_determinism_witness :
  example_end2end two_workers example_cutoff_keep poly_a_aligner 0
    = example_end2end one_worker example_cutoff_keep poly_a_aligner 0 /\
  option_map fst (example_endsfree two_workers example_cutoff_keep poly_a_aligner 0)
    = option_map fst
        (example_endsfree one_worker example_cutoff_keep poly_a_aligner 0) /\
  option_map fst (example_custom two_workers example_cutoff_keep 20 poly_a_aligner 0)
    = option_map fst
        (example_custom one_worker example_cutoff_keep 20 poly_a_aligner 0) /\
  example_endsfree two_workers example_cutoff_keep (broken_aligner form_endsfree) 0
    = example_endsfree one_worker example_cutoff_keep
        (broken_aligner form_endsfree) 0 /\
  exists w1 wN,
    example_endsfree one_worker example_cutoff_keep poly_a_aligner 0
      = Some (true,
              set_status
                (store_mwavefront poly_a_aligner (modular_score poly_a_aligner 0) w1)
                WF_STATUS_SUCCESSFUL) /\
    example_endsfree two_workers example_cutoff_keep poly_a_aligner 0
      = Some (true,
              set_status
                (store_mwavefront poly_a_aligner (modular_score poly_a_aligner 0) wN)
                WF_STATUS_SUCCESSFUL) /\
    agree_to_first_terminal example_offset_null
      (wavefront_extend_matches_packed_kernel poly_a_aligner)
      poly_a_aligner poly_a_wavefront w1 wN.
Proof.
  destruct (workers_determinism example_offset_null example_thread_limits
              example_cutoff_keep example_schedule true one_worker two_workers
              20 poly_a_aligner 0 poly_a_wavefront 2)
    as [Hpacked Hcustom];
    [reflexivity|reflexivity|reflexivity|lia|exact example_partitions
    |apply Permutation_refl|].
  destruct (workers_determinism example_offset_null example_thread_limits
              example_cutoff_keep example_schedule true one_worker two_workers
              20 (broken_aligner form_endsfree) 0 broken_wavefront 2)
    as [Hbroken _];
    [reflexivity|reflexivity|reflexivity|lia|exact example_partitions
    |apply Permutation_refl|].
  destruct (Hpacked poly_a_defined_packed)
    as [[He2e _] (Hef & _ & _ & _ & _ & Hterm)].
  destruct (Hcustom poly_a_defined_custom) as [Hcu _].
  destruct (Hbroken broken_defined_packed) as [_ (_ & _ & Hsame & _)].
  split; [exact He2e|]. split; [exact Hef|]. split; [exact Hcu|].
  split; [apply Hsame; exact broken_not_terminal|].
  apply Hterm. exists 0. split; [vm_compute; split; discriminate|].
  split; [vm_compute; discriminate|].
  exists 7. split; vm_compute; reflexivity.
Defined.

(** C4, as the claim states it, fails for the ends-free orchestrator: on the
    ends-free alignment of "AAAAAAA" against "AAAAAAAAAA", one worker stops
    at diagonal 0 and leaves diagonal 3 at offset 3, while with two workers
    (sub-ranges [0,1] and [2,3]) the second worker extends diagonal 3 to
    offset 10, in whatever order the workers run; when it runs last it also
    leaves its diagonal in [k_alignment_end]. *)
Lemma workers_offsets_differ :
  partitions example_thread_limits 2 (lo poly_a_wavefront) (hi poly_a_wavefront) /\
  final_verdict (example_endsfree one_worker example_cutoff_keep poly_a_aligner 0)
    = Some (true, WF_STATUS_SUCCESSFUL) /\
  final_verdict (example_endsfree two_workers example_cutoff_keep poly_a_aligner 0)
    = Some (true, WF_STATUS_SUCCESSFUL) /\
  final_offset (example_endsfree one_worker example_cutoff_keep poly_a_aligner 0) 0 3
    = Some 3 /\
  final_offset (example_endsfree two_workers example_cutoff_keep poly_a_aligner 0) 0 3
    = Some 10 /\
  final_offset
    (wavefront_extend_endsfree example_offset_null true two_workers
       example_thread_limits example_cutoff_keep example_schedule_rev
       poly_a_aligner 0) 0 3
    = Some 10 /\
  final_k_alignment_end
    (example_endsfree one_worker example_cutoff_keep poly_a_aligner 0) 0 = Some 0 /\
  final_k_alignment_end
    (example_endsfree two_workers example_cutoff_keep poly_a_aligner 0) 0 = Some 3 /\
  final_offset (example_endsfree one_worker example_cutoff_keep poly_a_aligner 0) 0 3
    <> final_offset
         (example_endsfree two_workers example_cutoff_keep poly_a_aligner 0) 0 3 /\
  final_k_alignment_end
    (example_endsfree one_worker example_cutoff_keep poly_a_aligner 0) 0
    <> final_k_alignment_end
         (example_endsfree two_workers example_cutoff_keep poly_a_aligner 0) 0.
Proof.
  split; [exact example_partitions|].
  vm_compute. repeat split; discriminate.
Qed.

(** ** The further properties at concrete aligner states *)

Lemma example_match_bound (pattern_seq text_seq : list byte) (v h : Z) :
  example_match pattern_seq text_seq v h = true ->
  h < Z.of_nat (length text_seq).
Proof.
  unfold example_match.
  destruct (0 <=? v); simpl; [|discriminate].
  destruct (Z.leb_spec 0 h); simpl; [|discriminate].
  destruct (nth_error pattern_seq (Z.to_nat v)); [|discriminate].
  destruct (nth_error text_seq (Z.to_nat h)) eqn:E; [|discriminate].
  intros _.
  assert (Hs : nth_error text_seq (Z.to_nat h) <> None) by (rewrite E; discriminate).
  apply nth_error_Some in Hs. lia.
Qed.

Lemma poly_a_sentinel_padded :
  sentinel_padded poly_a_aligner poly_a_pattern poly_a_text example_padding.
Proof.
  apply example_sentinel_padded; simpl; intuition discriminate.
Qed.

Lemma identical_sentinel_padded :
  sentinel_padded identical_aligner gattaca_pattern gattaca_pattern example_padding.
Proof.
  apply example_sentinel_padded; simpl; intuition discriminate.
Qed.

Lemma gattaca_positions (a : wavefront_aligner_t) :
  pattern_length a = 14 -> 14 <= text_length a ->
  forall k, -1 <= k <= 1 ->
    offsets gattaca_wavefront k <> example_offset_null ->
    0 <= WAVEFRONT_V k (offsets gattaca_wavefront k) <= pattern_length a /\
    0 <= WAVEFRONT_H k (offsets gattaca_wavefront k) <= text_length a.
Proof.
  intros Hp Ht k Hk Hn.
  assert (k = -1 \/ k = 0 \/ k = 1) as [->|[->| ->]] by lia.
  - exfalso. apply Hn. reflexivity.
  - unfold WAVEFRONT_V, WAVEFRONT_H. simpl offsets. lia.
  - exfalso. apply Hn. reflexivity.
Qed.

Lemma poly_a_positions :
  forall k, 0 <= k <= 3 ->
    offsets poly_a_wavefront k <> example_offset_null ->
    0 <= WAVEFRONT_V k (offsets poly_a_wavefront k) <= pattern_length poly_a_aligner /\
    0 <= WAVEFRONT_H k (offsets poly_a_wavefront k) <= text_length poly_a_aligner.
Proof.
  intros k Hk Hn.
  assert (k = 0 \/ k = 1 \/ k = 2 \/ k = 3) as [->|[->|[->| ->]]] by lia.
  - vm_compute. repeat split; discriminate.
  - exfalso. apply Hn. reflexivity.
  - exfalso. apply Hn. reflexivity.
  - vm_compute. repeat split; discriminate.
Qed.

Lemma packed_kernel_keeps_bounds_witness :
  exists offset',
    wavefront_extend_matches_packed_kernel gattaca_aligner 0 0 = Some offset' /\
    0 <= offset' /\
    0 <= WAVEFRONT_V 0 offset' <= pattern_length gattaca_aligner.
Proof.
  assert (Hv : 0 <= WAVEFRONT_V 0 0 <= pattern_length gattaca_aligner)
    by (vm_compute; split; discriminate).
  assert (Hh : 0 <= WAVEFRONT_H 0 0 <= text_length gattaca_aligner)
    by (vm_compute; split; discriminate).
  destruct (packed_kernel_keeps_bounds gattaca_aligner gattaca_pattern
              gattaca_text example_padding 0 0 gattaca_sentinel_padded Hv Hh)
    as (o & Ho & Hle & HV & _).
  exists o. split; [exact Ho|]. split; [exact Hle|exact HV].
Defined.

Lemma packed_kernel_idempotent_witness :
  exists offset',
    wavefront_extend_matches_packed_kernel gattaca_aligner 0 0 = Some offset' /\
    wavefront_extend_matches_packed_kernel gattaca_aligner 0 offset' = Some offset'.
Proof.
  assert (Hv : 0 <= WAVEFRONT_V 0 0 <= pattern_length gattaca_aligner)
    by (vm_compute; split; discriminate).
  assert (Hh : 0 <= WAVEFRONT_H 0 0 <= text_length gattaca_aligner)
    by (vm_compute; split; discriminate).
  exact (packed_kernel_idempotent gattaca_aligner gattaca_pattern
           gattaca_text example_padding 0 0 gattaca_sentinel_padded Hv Hh).
Defined.

Lemma custom_kernel_agrees_with_packed_witness :
  custom_kernel 20 gattaca_aligner 0 0
  = wavefront_extend_matches_packed_kernel gattaca_aligner 0 0.
Proof.
  assert (Hv : 0 <= WAVEFRONT_V 0 0 <= pattern_length gattaca_aligner)
    by (vm_compute; split; discriminate).
  assert (Hh : 0 <= WAVEFRONT_H 0 0 <= text_length gattaca_aligner)
    by (vm_compute; split; discriminate).
  assert (Hf : text_length gattaca_aligner - WAVEFRONT_H 0 0 <= Z.of_nat 20)
    by (vm_compute; discriminate).
  destruct (custom_kernel_agrees_with_packed 20 gattaca_aligner gattaca_pattern
              gattaca_text example_padding 0 0 gattaca_sentinel_padded
              (fun v h => eq_refl) Hv Hh Hf) as [H _].
  exact H.
Defined.

Lemma packed_kernel_fails_out_of_bounds_witness :
  wavefront_extend_matches_packed_kernel unpadded_aligner 0 0 = None /\
  wavefront_extend_matches_packed_kernel gattaca_aligner 0 100 = None.
Proof.
  split.
  - apply (proj2 (packed_kernel_fails_out_of_bounds unpadded_aligner 0 0)).
    exists 2%nat. split.
    + intros i Hi.
      destruct i as [|[|i]];
        [eexists; eexists; split; [reflexivity|]; split; reflexivity
        |eexists; eexists; split; [reflexivity|]; split; reflexivity
        |lia].
    + right. left. vm_compute. reflexivity.
  - apply (proj2 (packed_kernel_fails_out_of_bounds gattaca_aligner 0 100)).
    exists 0%nat. split; [intros i Hi; lia|].
    right. left. vm_compute. reflexivity.
Defined.


Lemma endsfree_zero_allowance_witness :
  fst (wavefront_extend_endsfree_check_termination
         gattaca_aligner gattaca_wavefront 16 2) = true.
Proof.
  assert (Hv : 0 <= WAVEFRONT_V 2 16 <= pattern_length gattaca_aligner)
    by (vm_compute; split; discriminate).
  assert (Hh : 0 <= WAVEFRONT_H 2 16 <= text_length gattaca_aligner)
    by (vm_compute; split; discriminate).
  destruct (endsfree_zero_allowance_alignment_only gattaca_aligner
              gattaca_wavefront 16 2 eq_refl eq_refl Hv Hh) as [_ H].
  apply H. split; reflexivity.
Defined.

Lemma packed_endsfree_driver_witness :
  exists reached mwavefront',
    wavefront_extend_matches_packed_endsfree example_offset_null
      poly_a_aligner poly_a_wavefront 0 0 3 = Some (reached, mwavefront') /\
    lo mwavefront' = lo poly_a_wavefront /\
    hi mwavefront' = hi poly_a_wavefront.
Proof.
  destruct (packed_endsfree_driver_spec example_offset_null poly_a_aligner
              poly_a_wavefront 0 0 3 poly_a_defined_packed)
    as (b & w' & Hr & H1 & H2 & _).
  exists b, w'. split; [exact Hr|]. split; [exact H1|exact H2].
Defined.

Lemma custom_driver_witness :
  exists mwavefront',
    wavefront_extend_matches_custom example_offset_null 20
      poly_a_aligner poly_a_wavefront 0 0 3 false = Some (false, mwavefront') /\
    k_alignment_end mwavefront' = k_alignment_end poly_a_wavefront.
Proof.
  assert (Hm : forall v h, match_funct poly_a_aligner v h = true ->
                           h < text_length poly_a_aligner)
    by (intros v h; apply example_match_bound).
  assert (Hf : forall k, 0 <= k <= 3 ->
            offsets poly_a_wavefront k <> example_offset_null ->
            text_length poly_a_aligner - WAVEFRONT_H k (offsets poly_a_wavefront k)
              <= Z.of_nat 20).
  { intros k Hk Hn. destruct (poly_a_positions k Hk Hn) as [_ Hh].
    change (text_length poly_a_aligner) with 10 in *. lia. }
  destruct (custom_driver_extends_while_match example_offset_null 20
              poly_a_aligner poly_a_wavefront 0 0 3 Hm Hf)
    as (w' & Hr & _ & _ & _ & Hk).
  exists w'. split; [exact Hr|exact Hk].
Defined.

Lemma packed_end2end_driver_idempotent_witness :
  exists mwavefront',
    wavefront_extend_matches_packed_end2end example_offset_null
      gattaca_aligner gattaca_wavefront 2 (-1) 1 = Some mwavefront' /\
    wavefront_extend_matches_packed_end2end example_offset_null
      gattaca_aligner mwavefront' 2 (-1) 1 = Some mwavefront'.
Proof.
  assert (H16 : 14 <= text_length gattaca_aligner) by (vm_compute; discriminate).
  exact (packed_end2end_driver_idempotent example_offset_null gattaca_aligner
           gattaca_pattern gattaca_text example_padding gattaca_wavefront
           2 (-1) 1 gattaca_sentinel_padded
           (gattaca_positions gattaca_aligner eq_refl H16)).
Defined.

Lemma orchestrators_frame_witness :
  exists r,
    example_end2end one_worker example_cutoff_keep identical_aligner 0 = Some r /\
    same_outside_slot identical_aligner (snd r) (modular_score identical_aligner 0) /\
    status (snd r) = WF_STATUS_SUCCESSFUL.
Proof.
  remember (example_end2end one_worker example_cutoff_keep identical_aligner 0)
    as res eqn:Er.
  assert (Hv : option_map fst res = Some true)
    by (rewrite Er; vm_compute; reflexivity).
  destruct res as [r|]; [|discriminate]. simpl in Hv. injection Hv as Hv.
  destruct (orchestrators_frame_without_heuristic example_offset_null true
              one_worker example_thread_limits example_cutoff_keep
              example_schedule 20 identical_aligner 0 eq_refl r
              (or_introl (eq_sym Er))) as (Hf & Ht & _).
  exists r. split; [reflexivity|]. split; [exact Hf|exact (Ht Hv)].
Defined.

Lemma true_verdict_sets_status_witness :
  exists a',
    example_end2end one_worker example_cutoff_drop gattaca_aligner 2
      = Some (true, a') /\
    (status a' = WF_STATUS_SUCCESSFUL \/
     (strategy gattaca_aligner <> wf_heuristic_none /\
      status a' = WF_STATUS_HEURISTICALY_DROPPED)).
Proof.
  remember (example_end2end one_worker example_cutoff_drop gattaca_aligner 2)
    as res eqn:Er.
  assert (Hv : option_map fst res = Some true)
    by (rewrite Er; vm_compute; reflexivity).
  destruct res as [[b a']|]; [|discriminate]. simpl in Hv. injection Hv as ->.
  exists a'. split; [reflexivity|].
  exact (true_verdict_sets_status example_offset_null true one_worker
           example_thread_limits example_cutoff_drop example_schedule 20
           gattaca_aligner 2 a' (or_introl (eq_sym Er))).
Defined.

Lemma sequential_build_witness :
  wavefront_extend_end2end example_offset_null false two_workers
    example_thread_limits example_cutoff_keep example_schedule poly_a_aligner 0
  = Some (false,
          store_mwavefront poly_a_aligner (modular_score poly_a_aligner 0)
            poly_a_wavefront).
Proof.
  assert (Hn : two_workers poly_a_aligner (lo poly_a_wavefront) (hi poly_a_wavefront)
               <> 1) by discriminate.
  destruct (sequential_build_skips_extension example_offset_null false two_workers
              example_thread_limits example_cutoff_keep example_schedule 20
              poly_a_aligner 0 poly_a_wavefront eq_refl Hn eq_refl)
    as (_ & _ & _ & H).
  exact (H eq_refl).
Defined.

Lemma end2end_identical_sequences_witness :
  exists mwavefront',
    example_end2end one_worker example_cutoff_keep identical_aligner 0
      = Some (true,
              set_status
                (store_mwavefront identical_aligner
                   (modular_score identical_aligner 0) mwavefront')
                WF_STATUS_SUCCESSFUL) /\
    k_alignment_end mwavefront' = 0 /\
    offsets mwavefront' 0 = text_length identical_aligner.
Proof.
  assert (H0 : lo gattaca_wavefront <= 0 <= hi gattaca_wavefront)
    by (vm_compute; split; discriminate).
  assert (Hn0 : offsets gattaca_wavefront 0 <> example_offset_null)
    by (vm_compute; discriminate).
  assert (H14 : 14 <= text_length identical_aligner) by (vm_compute; discriminate).
  exact (end2end_identical_sequences_succeed example_offset_null true one_worker
           example_thread_limits example_cutoff_keep example_schedule
           identical_aligner gattaca_pattern example_padding 0 gattaca_wavefront
           identical_sentinel_padded eq_refl (or_introl eq_refl) H0 Hn0
           (gattaca_positions identical_aligner eq_refl H14)).
Defined.

Lemma endsfree_orchestrator_outcome_witness :
  exists mwavefront',
    example_endsfree one_worker example_cutoff_keep poly_a_aligner 0
      = Some (true,
              set_status
                (store_mwavefront poly_a_aligner (modular_score poly_a_aligner 0)
                   mwavefront')
                WF_STATUS_SUCCESSFUL) /\
    lo poly_a_wavefront <= k_alignment_end mwavefront' <= hi poly_a_wavefront.
Proof.
  destruct (endsfree_orchestrator_outcome example_offset_null true one_worker
              example_thread_limits example_cutoff_keep example_schedule
              poly_a_aligner 0 poly_a_wavefront eq_refl (or_introl eq_refl)
              poly_a_defined_packed) as [Hsome _].
  destruct Hsome as (w' & Hr & Hk & _).
  - exists 0. split; [vm_compute; split; discriminate|].
    split; [vm_compute; discriminate|].
    exists 7. split; vm_compute; reflexivity.
  - exists w'. split; [exact Hr|exact Hk].
Defined.

Lemma end2end_orchestrator_closed_form_witness :
  example_end2end one_worker example_cutoff_drop gattaca_aligner 2
  = epilogue example_cutoff_drop gattaca_aligner (modular_score gattaca_aligner 2)
      (wavefront_extend_end2end_check_termination gattaca_aligner
         {| lo := lo gattaca_wavefront; hi := hi gattaca_wavefront;
            offsets :=
              extend_offsets example_offset_null
                (wavefront_extend_matches_packed_kernel gattaca_aligner)
                gattaca_wavefront (lo gattaca_wavefront) (hi gattaca_wavefront);
            k_alignment_end := k_alignment_end gattaca_wavefront |}).
Proof.
  exact (end2end_orchestrator_closed_form example_offset_null true one_worker
           example_thread_limits example_cutoff_drop example_schedule
           gattaca_aligner 2 gattaca_wavefront eq_refl (or_introl eq_refl)
           gattaca_defined_packed).
Defined.

Lemma custom_orchestrator_agrees_witness :
  example_custom one_worker example_cutoff_keep 20 poly_a_aligner 0
  = example_endsfree one_worker example_cutoff_keep poly_a_aligner 0.
Proof.
  assert (Hf : text_length poly_a_aligner <= Z.of_nat 20)
    by (vm_compute; discriminate).
  exact (custom_orchestrator_agrees_with_packed example_offset_null true
           one_worker example_thread_limits example_cutoff_keep example_schedule
           20 poly_a_aligner poly_a_pattern poly_a_text example_padding
           0 poly_a_wavefront poly_a_sentinel_padded (fun v h => eq_refl)
           eq_refl (or_introl eq_refl) poly_a_positions Hf).
Defined.

Lemma block_xor_first_difference_witness :
  exists r : nat,
    (r < 8)%nat /\
    DIV_FLOOR (__builtin_ctzl (Z.lxor (block gattaca_pattern 0) (block gattaca_text 1))) 8
      = Z.of_nat r /\
    first_mismatch gattaca_pattern 0 gattaca_text 1 r.
Proof.
  assert (Hp : (0 + 8 <= length gattaca_pattern)%nat) by (simpl; lia).
  assert (Ht : (1 + 8 <= length gattaca_text)%nat) by (simpl; lia).
  destruct (block_xor_first_difference gattaca_pattern gattaca_text 0 1 Hp Ht)
    as [_ H].
  apply H. vm_compute. discriminate.
Defined.

Lemma packed_kernel_advances_witness :
  wavefront_extend_matches_packed_kernel sentinel_clash_aligner 0 0
  = Some (0 + Z.of_nat 2).
Proof.
  assert (Hp : 0 <= pos (pattern sentinel_clash_aligner) + WAVEFRONT_V 0 0)
    by (vm_compute; discriminate).
  assert (Ht : 0 <= pos (text sentinel_clash_aligner) + WAVEFRONT_H 0 0)
    by (vm_compute; discriminate).
  apply (packed_kernel_advances_to_first_mismatch sentinel_clash_aligner 0 0 2
           Hp Ht).
  - split.
    + intros i Hi.
      destruct i as [|[|i]]; [eexists; split; reflexivity
                             |eexists; split; reflexivity|lia].
    + exists Byte.x3f, Byte.x21.
      split; [reflexivity|]. split; [reflexivity|discriminate].
  - vm_compute. discriminate.
  - vm_compute. discriminate.
Defined.


Lemma identical_defined_packed :
  defined_on example_offset_null
    (wavefront_extend_matches_packed_kernel identical_aligner) gattaca_wavefront (-1) 1.
Proof.
  intros j Hj.
  assert (j = -1 \/ j = 0 \/ j = 1) as [->|[->| ->]] by lia;
    vm_compute; congruence.
Qed.

Lemma custom_endsfree_driver_witness :
  exists reached mwavefront',
    wavefront_extend_matches_custom example_offset_null 20
      poly_a_aligner poly_a_wavefront 0 0 3 true = Some (reached, mwavefront') /\
    lo mwavefront' = lo poly_a_wavefront /\
    hi mwavefront' = hi poly_a_wavefront.
Proof.
  destruct (custom_endsfree_driver_spec example_offset_null 20 poly_a_aligner
              poly_a_wavefront 0 0 3 poly_a_defined_custom)
    as (b & w' & Hr & H1 & H2 & _).
  exists b, w'. split; [exact Hr|]. split; [exact H1|exact H2].
Defined.

Lemma custom_endsfree_orchestrator_witness :
  exists mwavefront',
    example_custom one_worker example_cutoff_keep 20 poly_a_aligner 0
      = Some (true,
              set_status
                (store_mwavefront poly_a_aligner (modular_score poly_a_aligner 0)
                   mwavefront')
                WF_STATUS_SUCCESSFUL) /\
    lo poly_a_wavefront <= k_alignment_end mwavefront' <= hi poly_a_wavefront.
Proof.
  destruct (custom_endsfree_orchestrator_outcome example_offset_null true
              one_worker example_thread_limits example_cutoff_keep
              example_schedule 20 poly_a_aligner 0 poly_a_wavefront eq_refl
              eq_refl (or_introl eq_refl) poly_a_defined_custom) as [Hsome _].
  destruct Hsome as (w' & Hr & Hk & _).
  - exists 0. split; [vm_compute; split; discriminate|].
    split; [vm_compute; discriminate|].
    exists 7. split; vm_compute; reflexivity.
  - exists w'. split; [exact Hr|exact Hk].
Defined.

Lemma orchestrators_keep_range_witness :
  exists r mwavefront',
    example_endsfree one_worker example_cutoff_keep poly_a_aligner 0 = Some r /\
    mwavefronts (wf_components (snd r)) (modular_score poly_a_aligner 0)
      = Some mwavefront' /\
    lo mwavefront' = lo poly_a_wavefront /\ hi mwavefront' = hi poly_a_wavefront /\
    offsets poly_a_wavefront 3 <= offsets mwavefront' 3.
Proof.
  destruct (example_endsfree one_worker example_cutoff_keep poly_a_aligner 0)
    as [r|] eqn:Er; [|vm_compute in Er; discriminate].
  destruct (orchestrators_keep_range_and_never_decrease example_offset_null true
              one_worker example_thread_limits example_cutoff_keep
              example_schedule 20 poly_a_aligner 0 poly_a_wavefront eq_refl
              eq_refl r (or_intror (or_introl Er)))
    as (w' & Hw & H1 & H2 & Hm).
  exists r, w'. split; [reflexivity|]. split; [exact Hw|].
  split; [exact H1|]. split; [exact H2|exact (Hm 3)].
Defined.

Lemma end2end_success_implies_endsfree_witness :
  final_verdict (example_endsfree one_worker example_cutoff_keep identical_aligner 0)
    = Some (true, WF_STATUS_SUCCESSFUL).
Proof.
  assert (Hp : 0 <= pattern_end_free (alignment_form identical_aligner))
    by (vm_compute; discriminate).
  assert (Ht : 0 <= text_end_free (alignment_form identical_aligner))
    by (vm_compute; discriminate).
  assert (Hn : example_offset_null < text_length identical_aligner)
    by (vm_compute; reflexivity).
  assert (He : final_verdict
                 (example_end2end one_worker example_cutoff_keep identical_aligner 0)
               = Some (true, WF_STATUS_SUCCESSFUL))
    by (vm_compute; reflexivity).
  exact (end2end_success_implies_endsfree_success example_offset_null true
           one_worker example_thread_limits example_cutoff_keep example_schedule
           identical_aligner 0 gattaca_wavefront eq_refl (or_introl eq_refl)
           identical_defined_packed Hp Ht Hn He).
Defined.
